(** * Verification of the compromised-package scanner (index.cjs)

    A shallow embedding of the scanner's core: the blacklist index
    ([COMPROMISED_PACKAGES_MAP]), the matcher ([isCompromised]), the
    tree walker ([findPackageRecursively], [findInPnpmDirectory]), the
    loop that turns walker hits into findings, and the risk-level
    summary.  JavaScript strings are [string]; the [Map] of the blacklist
    is an insertion-ordered association list with the update-in-place
    behaviour of [Map.prototype.set]; the [Set] of visited real paths is
    a [gset]; an operation of [fs] that may throw returns an [option].

    The later parts embed the manifest scanner
    ([scanPackageJsonDependencies]) with the object semantics it relies
    on, the check of the project manifest ([checkDeps]), the whole run
    ([main]) with its exit code, the list extractor
    (extract_packages.cjs) with its two patterns and its CSV file,
    the walker and manifest scanner of the earlier index.cjs, and the
    walker as a trace of the directories it lists. *)

From Stdlib Require Import Ascii String.
From stdpp Require Import gmap strings list pretty.

(** ** Strings *)

Module Str.

(** [s.replace(/^v/, '')]: the pattern is anchored at the start of the
    string, so at most one character is removed. *)
Definition strip_leading_v (s : string) : string :=
  match s with
  | String c rest => if Ascii.eqb c "v"%char then rest else s
  | EmptyString => s
  end.

(** [s.replace('/', '+')]: with a string pattern only the first
    occurrence is replaced. *)
Fixpoint replace_first_slash (s : string) : string :=
  match s with
  | EmptyString => EmptyString
  | String c rest =>
      if Ascii.eqb c "/"%char then String "+"%char rest
      else String c (replace_first_slash rest)
  end.

(** [s.startsWith(p)]. *)
Fixpoint startsWith (s p : string) {struct p} : bool :=
  match p, s with
  | EmptyString, _ => true
  | String _ _, EmptyString => false
  | String a p', String b s' => Ascii.eqb a b && startsWith s' p'
  end.

(** The string has no path separator. *)
Fixpoint no_slash (s : string) : bool :=
  match s with
  | EmptyString => true
  | String c rest => negb (Ascii.eqb c "/"%char) && no_slash rest
  end.

(** [s.split('/')]. *)
Fixpoint split_slash (s : string) : list string :=
  match s with
  | EmptyString => [EmptyString]
  | String c rest =>
      if Ascii.eqb c "/"%char then EmptyString :: split_slash rest
      else match split_slash rest with
           | [] => [String c EmptyString]
           | seg :: segs => String c seg :: segs
           end
  end.

(** A name that [readdirSync] can return: not empty, no separator, and
    neither [.] nor [..]. *)
Definition is_name (s : string) : bool :=
  no_slash s && negb (String.eqb s "") && negb (String.eqb s ".")
  && negb (String.eqb s "..").

End Str.

(** ** JSON values, as [JSON.parse] returns them *)

(** Numbers carry an integer: the scanner only ever tests a number for
    truthiness.  The fields of an object are its own properties, each
    key once. *)
#[local] Unset Elimination Schemes.
Inductive json : Type :=
  | JNull
  | JBool (b : bool)
  | JNumber (n : Z)
  | JString (s : string)
  | JArray (items : list json)
  | JObject (fields : list (string * json)).
#[local] Set Elimination Schemes.

(** The result of a property read: [None] is [undefined]. *)
Definition js_truthy (v : option json) : bool :=
  match v with
  | None | Some JNull | Some (JBool false) => false
  | Some (JNumber n) => negb (Z.eqb n 0)
  | Some (JString s) => negb (String.eqb s "")
  | Some _ => true
  end.

Fixpoint assoc_get {V : Type} (fields : list (string * V)) (k : string) : option V :=
  match fields with
  | [] => None
  | (k', v) :: rest => if String.eqb k' k then Some v else assoc_get rest k
  end.

(** [j.version]: reading a property of [null] throws a [TypeError]
    (outer [None]); of an object it gives the field or [undefined]; a
    boolean, number, string or array has no own [version]. *)
Definition get_version (j : json) : option (option json) :=
  match j with
  | JNull => None
  | JObject fields => Some (assoc_get fields "version")
  | _ => Some None
  end.

(** ** Blacklist index *)

(** An entry of [compromised_packages.json]. *)
Module PackageEntry.
Record t := { name : string; versions : list string }.
End PackageEntry.

(** A JavaScript [Map] from package name to version array, in insertion
    order. *)
Definition JsMap := list (string * list string).

(** [m.set(k, v)]: an existing key keeps its position. *)
Fixpoint Map_set (m : JsMap) (k : string) (v : list string) : JsMap :=
  match m with
  | [] => [(k, v)]
  | (k', v') :: rest =>
      if String.eqb k' k then (k', v) :: rest else (k', v') :: Map_set rest k v
  end.

Definition Map_get (m : JsMap) (k : string) : option (list string) := assoc_get m k.
Definition Map_has (m : JsMap) (k : string) : bool := bool_decide (is_Some (Map_get m k)).
Definition Map_keys (m : JsMap) : list string := m.*1.

(** [COMPROMISED_PACKAGES_DATA.packages.forEach(...)] over an empty map:
    every version loses a leading [v] before it is stored. *)
Definition COMPROMISED_PACKAGES_MAP (packages : list PackageEntry.t) : JsMap :=
  foldl (fun m pkg =>
           let normalizedVersions := Str.strip_leading_v <$> PackageEntry.versions pkg in
           Map_set m (PackageEntry.name pkg) normalizedVersions)
        [] packages.

(** ** Matcher *)

(** [array.includes(x)] on strings. *)
Definition includes (l : list string) (x : string) : bool := bool_decide (x ∈ l).

(** [isCompromised(packageName, version)].  [version.replace] exists
    only on strings: any other value throws a [TypeError] ([None]). *)
Definition isCompromised (m : JsMap) (packageName : string) (version : json) : option bool :=
  if negb (Map_has m packageName) then Some false
  else
    match Map_get m packageName, version with
    | Some compromisedVersions, JString v =>
        let normalizedVersion := Str.strip_leading_v v in
        Some (includes compromisedVersions normalizedVersion)
    | _, _ => None
    end.

(** ** Paths and the file system *)

(** Every path of the scanner descends from [CONFIG.targetDir], which
    [path.resolve] makes absolute and normalized, through [path.join].
    Such a path is the list of its segments: [/a/b] is [["a"; "b"]]. *)
Definition path := list string.

(** One segment through POSIX [path.normalize]: an empty segment and
    [.] vanish, [..] drops the last segment (and stays at the root). *)
Definition push_segment (p : path) (seg : string) : path :=
  if String.eqb seg "" || String.eqb seg "." then p
  else if String.eqb seg ".." then removelast p
  else p ++ [seg].

(** [path.join(p, s)]: the joined string is normalized segment by
    segment.  [path.join(p, a, b)] is [path_join (path_join p a) b]. *)
Definition path_join (p : path) (s : string) : path :=
  foldl push_segment p (Str.split_slash s).

(** An [fs.Dirent], as [readdirSync(_, { withFileTypes: true })]
    returns it. *)
Module Dirent.
Record t := { name : string; isDirectory : bool; isSymbolicLink : bool }.
End Dirent.

(** The calls of Node's [fs] that the walker makes.  [None] is a thrown
    exception.  [readJsonSync p] is [JSON.parse(fs.readFileSync(p,
    'utf8'))], which throws when the read or the parse does. *)
Record FileSystem := {
  existsSync : path → bool;
  realpathSync : path → option path;
  readdirSync : path → option (list Dirent.t);
  readJsonSync : path → option json;
}.

(** The directories of a file system list each entry once, under a
    name. *)
Definition well_formed (fs : FileSystem) : Prop :=
  ∀ p entries,
    readdirSync fs p = Some entries →
    NoDup (Dirent.name <$> entries)
    ∧ Forall (fun entry => Str.is_name (Dirent.name entry) = true) entries.

(** ** Tree walker *)

(** An element of the array the walker returns; its [type] field is
    always ['installed']. *)
Module Instance.
Record t := { path : list string; version : json; depth : nat }.
End Instance.

(** The manifest block that the walker repeats at each hit:
    [let version = 'unknown'; try { if (existsSync) { version =
    JSON.parse(...).version || 'unknown' } } catch {}]. *)
Definition readVersion (fs : FileSystem) (pkgJsonPath : path) : json :=
  let unknown := JString "unknown" in
  if existsSync fs pkgJsonPath then
    match readJsonSync fs pkgJsonPath with
    | None => unknown
    | Some pkgJson =>
        match get_version pkgJson with
        | None => unknown
        | Some v => if js_truthy v then default unknown v else unknown
        end
    end
  else unknown.

(** The object pushed at a hit: [pkgJsonPath] is [path.join(packagePath,
    'package.json')]. *)
Definition hit (fs : FileSystem) (packagePath : path) (depth : nat) : Instance.t :=
  let pkgJsonPath := path_join packagePath "package.json" in
  {| Instance.path := packagePath;
     Instance.version := readVersion fs pkgJsonPath;
     Instance.depth := depth |}.

(** [!entry.isDirectory() && !entry.isSymbolicLink()], the test before
    each [continue]. *)
Definition skipped (entry : Dirent.t) : bool :=
  negb (Dirent.isDirectory entry) && negb (Dirent.isSymbolicLink entry).

(** What one entry of the [.pnpm] directory adds to the results. *)
Definition pnpmEntry (fs : FileSystem) (pnpmPath : path) (targetPackage : string)
    (depth : nat) (entry : Dirent.t) : list Instance.t :=
  let searchPattern := Str.replace_first_slash targetPackage +:+ "@" in
  if skipped entry then []
  else if Str.startsWith (Dirent.name entry) searchPattern then
    let packageInNodeModules :=
      path_join (path_join (path_join pnpmPath (Dirent.name entry)) "node_modules")
                targetPackage in
    if existsSync fs packageInNodeModules then [hit fs packageInNodeModules depth]
    else []
  else [].

(** [findInPnpmDirectory(pnpmPath, targetPackage, depth)]. *)
Definition findInPnpmDirectory (fs : FileSystem) (pnpmPath : path)
    (targetPackage : string) (depth : nat) : list Instance.t :=
  match readdirSync fs pnpmPath with
  | None => []
  | Some entries => entries ≫= pnpmEntry fs pnpmPath targetPackage depth
  end.

(** The state of one walk: the [visitedPaths] set shared by all its
    calls, and a history variable [enumerated] that lists, in order, the
    roots whose entries were read.  The walker never reads
    [enumerated]. *)
Record WalkState := { visitedPaths : gset path; enumerated : list path }.

Definition fresh : WalkState := {| visitedPaths := ∅; enumerated := [] |}.

(** A [for ... of] loop whose body pushes onto [results] and may change
    the walk state. *)
Fixpoint for_of {E R : Type} (body : E → WalkState → list R * WalkState)
    (entries : list E) (st : WalkState) : list R * WalkState :=
  match entries with
  | [] => ([], st)
  | entry :: rest =>
      let '(r1, st1) := body entry st in
      let '(r2, st2) := for_of body rest st1 in
      (r1 ++ r2, st2)
  end.

(** The cycle check at the head of a call: [None] when the call returns
    at once, otherwise the state to go on with.  When [realpathSync]
    throws the call goes on with the set unchanged. *)
Definition cycleCheck (fs : FileSystem) (nodeModulesPath : path) (st : WalkState)
    : option WalkState :=
  match realpathSync fs nodeModulesPath with
  | Some realPath =>
      if bool_decide (realPath ∈ visitedPaths st) then None
      else Some {| visitedPaths := {[realPath]} ∪ visitedPaths st;
                   enumerated := enumerated st |}
  | None => Some st
  end.

(** A package directory, scoped or not: the hit when its name is the
    target, then the walk of its own [node_modules] when that exists. *)
Definition packageDir (recurse : path → WalkState → list Instance.t * WalkState)
    (fs : FileSystem) (packagePath : path) (isTarget : bool) (depth : nat)
    (st : WalkState) : list Instance.t * WalkState :=
  let pushed := if isTarget then [hit fs packagePath depth] else [] in
  let nestedNodeModules := path_join packagePath "node_modules" in
  if existsSync fs nestedNodeModules then
    let '(nested, st') := recurse nestedNodeModules st in
    (pushed ++ nested, st')
  else (pushed, st).

(** The body of the loop over the children of a scope directory. *)
Definition scopedEntry (recurse : path → WalkState → list Instance.t * WalkState)
    (fs : FileSystem) (entryPath : path) (scope targetPackage : string) (depth : nat)
    (child : Dirent.t) (st : WalkState) : list Instance.t * WalkState :=
  if skipped child then ([], st)
  else
    let fullPackageName := scope +:+ "/" +:+ Dirent.name child in
    let packagePath := path_join entryPath (Dirent.name child) in
    packageDir recurse fs packagePath (String.eqb fullPackageName targetPackage) depth st.

(** The body of the loop over the entries of a walk root. *)
Definition rootEntry (recurse : path → WalkState → list Instance.t * WalkState)
    (fs : FileSystem) (nodeModulesPath : path) (targetPackage : string) (depth : nat)
    (entry : Dirent.t) (st : WalkState) : list Instance.t * WalkState :=
  if skipped entry then ([], st)
  else
    let entryPath := path_join nodeModulesPath (Dirent.name entry) in
    if String.eqb (Dirent.name entry) ".pnpm" then
      (findInPnpmDirectory fs entryPath targetPackage (depth + 1), st)
    else if Str.startsWith (Dirent.name entry) "@" then
      match readdirSync fs entryPath with
      | None => ([], st)
      | Some scopedEntries =>
          for_of (scopedEntry recurse fs entryPath (Dirent.name entry) targetPackage depth)
                 scopedEntries st
      end
    else
      packageDir recurse fs entryPath
                 (String.eqb (Dirent.name entry) targetPackage) depth st.

(** [findPackageRecursively], with the number of calls that may still
    nest as the structural argument. *)
Fixpoint walk (fuel : nat) (fs : FileSystem) (nodeModulesPath : path)
    (targetPackage : string) (depth maxDepth : nat) (st : WalkState)
    : list Instance.t * WalkState :=
  match fuel with
  | 0 => ([], st)
  | S fuel' =>
      if (maxDepth <? depth) || negb (existsSync fs nodeModulesPath) then ([], st)
      else
        match cycleCheck fs nodeModulesPath st with
        | None => ([], st)
        | Some st1 =>
            match readdirSync fs nodeModulesPath with
            | None => ([], st1)
            | Some entries =>
                let st2 := {| visitedPaths := visitedPaths st1;
                              enumerated := enumerated st1 ++ [nodeModulesPath] |} in
                for_of (rootEntry
                          (fun p s => walk fuel' fs p targetPackage (depth + 1) maxDepth s)
                          fs nodeModulesPath targetPackage depth)
                       entries st2
            end
        end
  end.

(** [findPackageRecursively(nodeModulesPath, targetPackage, depth,
    maxDepth, visitedPaths)].  Each nested call is one level deeper and
    a call deeper than [maxDepth] returns at once, so [maxDepth + 1 -
    depth] levels are enough. *)
Definition findPackageRecursively (fs : FileSystem) (nodeModulesPath : path)
    (targetPackage : string) (depth maxDepth : nat) (st : WalkState)
    : list Instance.t * WalkState :=
  walk (S maxDepth - depth) fs nodeModulesPath targetPackage depth maxDepth st.

(** The call of the scanner: [depth = 0], [maxDepth = 5] and a new
    [Set]. *)
Definition findInstances (fs : FileSystem) (nodeModulesPath : path)
    (targetPackage : string) : list Instance.t :=
  (findPackageRecursively fs nodeModulesPath targetPackage 0 5 fresh).1.

(** ** Findings and the report *)

Inductive FindingType := installed | dependency_reference.

#[global] Instance FindingType_eq_dec : EqDecision FindingType.
Proof. solve_decision. Defined.

(** An element of [results.foundInNodeModules]. *)
Module Finding.
Record t := {
  package : string;
  version : json;
  path : list string;
  depth : nat;
  type : FindingType;
  referencedBy : option string;
  compromisedVersions : list string;
}.
End Finding.

(** An element of the array [scanPackageJsonDependencies] returns.  The
    manifest scanner itself is not embedded: its output enters the run
    as an argument. *)
Module DependencyRef.
Record t := {
  foundIn : list string;
  foundInPackageName : string;
  compromisedPackage : string;
  version : json;
  depth : nat;
}.
End DependencyRef.

(** An element of [results.foundInPackageJson]. *)
Module Declared.
Record t := { package : string; version : json; group : string }.
End Declared.

(** The body of [foundInstances.forEach]: a version that is not
    compromised is skipped; a [TypeError] of [isCompromised] is not
    caught and ends the process ([None]). *)
Definition reportInstance (m : JsMap) (pkg : string) (instance : Instance.t)
    : option (list Finding.t) :=
  match isCompromised m pkg (Instance.version instance) with
  | None => None
  | Some false => Some []
  | Some true =>
      Some [ {| Finding.package := pkg;
                Finding.version := Instance.version instance;
                Finding.path := Instance.path instance;
                Finding.depth := Instance.depth instance;
                Finding.type := installed;
                Finding.referencedBy := None;
                Finding.compromisedVersions := default [] (Map_get m pkg) |} ]
  end.

(** [Array.from(COMPROMISED_PACKAGES_MAP.keys()).forEach((pkg) => ...)]:
    one walk per blacklisted name, each with its own [visitedPaths]. *)
Definition scanInstalled (fs : FileSystem) (m : JsMap) (nodeModules : path)
    : option (list Finding.t) :=
  @concat _ <$> mapM (fun pkg =>
                     let foundInstances := findInstances fs nodeModules pkg in
                     @concat _ <$> mapM (reportInstance m pkg) foundInstances)
                  (Map_keys m).

(** The body of [depResults.forEach]. *)
Definition reportDependency (m : JsMap) (dep : DependencyRef.t) : Finding.t :=
  {| Finding.package := DependencyRef.compromisedPackage dep;
     Finding.version := DependencyRef.version dep;
     Finding.path := DependencyRef.foundIn dep;
     Finding.depth := DependencyRef.depth dep;
     Finding.type := dependency_reference;
     Finding.referencedBy := Some (DependencyRef.foundInPackageName dep);
     Finding.compromisedVersions :=
       default [] (Map_get m (DependencyRef.compromisedPackage dep)) |}.

Inductive Level := none | medium | high | critical.

Record Summary := { safe : bool; totalIssues : nat; criticalLevel : Level }.

Record Results := {
  foundInNodeModules : list Finding.t;
  foundInPackageJson : list Declared.t;
  summary : Summary;
}.

(** The summary block: [totalIssues], [safe], then the [if ... else if]
    that overwrites [criticalLevel] or leaves it as it was. *)
Definition summarize (results : Results) : Results :=
  let totalIssues :=
    length (foundInNodeModules results) + length (foundInPackageJson results) in
  let level :=
    if 0 <? length (foundInNodeModules results) then critical
    else if 0 <? length (foundInPackageJson results) then high
    else criticalLevel (summary results) in
  {| foundInNodeModules := foundInNodeModules results;
     foundInPackageJson := foundInPackageJson results;
     summary := {| safe := totalIssues =? 0; totalIssues := totalIssues;
                   criticalLevel := level |} |}.

(** One run of the scanner on [targetDir].  [depResults] is what
    [scanPackageJsonDependencies] returns and [declared] what the
    [checkDeps] calls push; both are outside this embedding.  [None] is
    an uncaught exception: no report is written. *)
Definition run (fs : FileSystem) (m : JsMap) (targetDir : path)
    (depResults : list DependencyRef.t) (declared : list Declared.t) : option Results :=
  let nodeModules := path_join targetDir "node_modules" in
  found ← (if existsSync fs nodeModules then
             inst ← scanInstalled fs m nodeModules;
             Some (inst ++ (reportDependency m <$> depResults))
           else Some []);
  Some (summarize {| foundInNodeModules := found;
                     foundInPackageJson := declared;
                     summary := {| safe := true; totalIssues := 0;
                                   criticalLevel := none |} |}).

(** The installed findings of a report. *)
Definition installedFindings (results : Results) : list Finding.t :=
  filter (fun f => Finding.type f = installed) (foundInNodeModules results).

(** The (package, path) combinations of the installed findings. *)
Definition installedKeys (results : Results) : list (string * path) :=
  (fun f => (Finding.package f, Finding.path f)) <$> installedFindings results.

(** ** The earlier scanner, which also read package-lock.json *)

Module Legacy.

Record Results := {
  foundInPackageLock : list (string * json);
  foundInNodeModules : list Finding.t;
  foundInPackageJson : list Declared.t;
  summary : Summary;
}.

Definition summarize (results : Results) : Results :=
  let totalIssues :=
    length (foundInPackageLock results) + length (foundInNodeModules results)
    + length (foundInPackageJson results) in
  let level :=
    if 0 <? length (foundInNodeModules results) then critical
    else if 0 <? length (foundInPackageJson results) then high
    else if 0 <? length (foundInPackageLock results) then medium
    else criticalLevel (summary results) in
  {| foundInPackageLock := foundInPackageLock results;
     foundInNodeModules := foundInNodeModules results;
     foundInPackageJson := foundInPackageJson results;
     summary := {| safe := totalIssues =? 0; totalIssues := totalIssues;
                   criticalLevel := level |} |}.

(** The [results] object before any check has run. *)
Definition initial : Results :=
  {| foundInPackageLock := []; foundInNodeModules := []; foundInPackageJson := [];
     summary := {| safe := true; totalIssues := 0; criticalLevel := none |} |}.

End Legacy.

(** ** Vocabulary of the statements *)

(** A result of [packageDir]: the hit, or a result of the nested
    walk. *)
Definition from_package (fs : FileSystem) (targetPackage : string)
    (recurse : path → WalkState → list Instance.t * WalkState)
    (packagePath : path) (fullPackageName : string) (depth : nat) (i : Instance.t) : Prop :=
  (fullPackageName = targetPackage ∧ i = hit fs packagePath depth)
  ∨ (existsSync fs (path_join packagePath "node_modules") = true
     ∧ ∃ s, i ∈ (recurse (path_join packagePath "node_modules") s).1).

(** The depth an instance may carry when the call that pushed it was
    entered at [depth]: at most [maxDepth], or [maxDepth + 1] for a hit
    in a content store. *)
Definition depth_ok (fs : FileSystem) (targetPackage : string) (maxDepth depth : nat)
    (i : Instance.t) : Prop :=
  depth ≤ Instance.depth i
  ∧ (Instance.depth i ≤ maxDepth
     ∨ (Instance.depth i = S maxDepth
        ∧ ∃ pnpmPath, i ∈ findInPnpmDirectory fs pnpmPath targetPackage (S maxDepth))).

(** The real paths of the roots of a list, for those that resolve. *)
Definition resolved (fs : FileSystem) (roots : list path) : list path :=
  omap (realpathSync fs) roots.

(** What calls of the walker do to the walk state: the set grows, and
    the roots read in between resolve to distinct real paths, none of
    which was in the set before and all of which are in it after. *)
Definition grows (fs : FileSystem) (st st' : WalkState) : Prop :=
  visitedPaths st ⊆ visitedPaths st'
  ∧ ∃ new, enumerated st' = enumerated st ++ new
           ∧ NoDup (resolved fs new)
           ∧ ∀ real, real ∈ resolved fs new →
                     (real ∉ visitedPaths st) ∧ (real ∈ visitedPaths st').

(** The segments of a string that normalization keeps, when none is
    [..]. *)
Definition segments (t : string) : list string :=
  filter (λ seg, seg ≠ "" ∧ seg ≠ ".") (Str.split_slash t).

(** [p] lies in or below the entry [n] of the directory [dir]. *)
Definition below (dir : path) (n : string) (p : path) : Prop :=
  ∃ rest, p = dir ++ n :: rest.

(** Results with distinct paths, all of them below [root]. *)
Definition tidy (root : path) (results : list Instance.t) : Prop :=
  NoDup (Instance.path <$> results)
  ∧ Forall (λ i, ∃ n, below root n (Instance.path i)) results.

(** The finding pushed for an instance that is reported. *)
Definition finding (m : JsMap) (pkg : string) (instance : Instance.t) : Finding.t :=
  {| Finding.package := pkg;
     Finding.version := Instance.version instance;
     Finding.path := Instance.path instance;
     Finding.depth := Instance.depth instance;
     Finding.type := installed;
     Finding.referencedBy := None;
     Finding.compromisedVersions := default [] (Map_get m pkg) |}.

(** The findings of one blacklisted name, when no call of
    [isCompromised] throws. *)
Definition reported (m : JsMap) (pkg : string) (instances : list Instance.t)
    : list Finding.t :=
  finding m pkg
    <$> filter (λ i, isCompromised m pkg (Instance.version i) = Some true) instances.

(** ** File systems given by tables *)

Module Table.

Record t := {
  present : list path;
  real : list (path * path);
  dirs : list (path * list Dirent.t);
  manifests : list (path * json);
}.

Fixpoint find {V : Type} (tbl : list (path * V)) (p : path) : option V :=
  match tbl with
  | [] => None
  | (k, v) :: rest => if bool_decide (k = p) then Some v else find rest p
  end.

Definition fs (tbl : t) : FileSystem :=
  {| existsSync p := bool_decide (p ∈ present tbl);
     realpathSync p := find (real tbl) p;
     readdirSync p := find (dirs tbl) p;
     readJsonSync p := find (manifests tbl) p |}.

(** The listed directories name each entry once. *)
Definition checked (tbl : t) : bool :=
  forallb (fun '(_, entries) =>
             bool_decide (NoDup (Dirent.name <$> entries))
             && forallb (fun entry => Str.is_name (Dirent.name entry)) entries)
          (dirs tbl).

Definition dir (n : string) : Dirent.t :=
  {| Dirent.name := n; Dirent.isDirectory := true; Dirent.isSymbolicLink := false |}.
Definition link (n : string) : Dirent.t :=
  {| Dirent.name := n; Dirent.isDirectory := false; Dirent.isSymbolicLink := true |}.
Definition file (n : string) : Dirent.t :=
  {| Dirent.name := n; Dirent.isDirectory := false; Dirent.isSymbolicLink := false |}.

End Table.

(** ** Example inputs *)

Module Ex.

(** [{"evil-pkg": ["1.0.0"]}], written with the [v] of the source
    list. *)
Definition versioned : JsMap :=
  COMPROMISED_PACKAGES_MAP
    [ {| PackageEntry.name := "evil-pkg"; PackageEntry.versions := ["v1.0.0"] |} ].

(** A bare name of the source list: [extract_packages.cjs] gives it
    [versions: []]. *)
Definition unversioned : JsMap :=
  COMPROMISED_PACKAGES_MAP
    [ {| PackageEntry.name := "evil-pkg"; PackageEntry.versions := [] |} ].

(** The install directory of the example project [/p]. *)
Definition root : path := ["p"; "node_modules"].

(** The install directory [n] levels below [root], each level inside a
    package [a]. *)
Fixpoint level (n : nat) : path :=
  match n with
  | 0 => root
  | S k => level k ++ ["a"; "node_modules"]
  end.

Definition levels (n : nat) : list path := level <$> seq 0 n.

Definition manifest (v : string) : json := JObject [("version", JString v)].

(** A chain of nested install directories with [evil-pkg] 1.0.0
    installed in the one at depth [n] and nowhere else. *)
Definition chain (n : nat) : Table.t :=
  {| Table.present :=
       levels (S n) ++ [level n ++ ["evil-pkg"; "package.json"]];
     Table.real := (fun p => (p, p)) <$> levels (S n);
     Table.dirs :=
       ((fun p => (p, [Table.dir "a"])) <$> levels n)
       ++ [(level n, [Table.dir "evil-pkg"])];
     Table.manifests :=
       [(level n ++ ["evil-pkg"; "package.json"], manifest "1.0.0")] |}.

(** The same chain with [evil-pkg] 1.0.0 present only in the content
    store of the install directory at depth [n]. *)
Definition chain_store (n : nat) : Table.t :=
  let store := level n ++ [".pnpm"] in
  let package := store ++ ["evil-pkg@1.0.0"; "node_modules"; "evil-pkg"] in
  {| Table.present := levels (S n) ++ [store; package; package ++ ["package.json"]];
     Table.real := (fun p => (p, p)) <$> levels (S n);
     Table.dirs :=
       ((fun p => (p, [Table.dir "a"])) <$> levels n)
       ++ [(level n, [Table.dir ".pnpm"]);
           (store, [Table.dir "evil-pkg@1.0.0"; Table.file "lock.yaml"])];
     Table.manifests := [(package ++ ["package.json"], manifest "1.0.0")] |}.

(** [@scope/evil] 1.0.0 present only in the content store of [root],
    next to another package of the store and a plain file. *)
Definition scoped_store : Table.t :=
  let store := root ++ [".pnpm"] in
  let package := store ++ ["@scope+evil@1.0.0"; "node_modules"; "@scope"; "evil"] in
  let other := store ++ ["left-pad@1.3.0"; "node_modules"; "left-pad"] in
  {| Table.present :=
       [root; store; package; package ++ ["package.json"];
        other; other ++ ["package.json"]];
     Table.real := [(root, root)];
     Table.dirs :=
       [(root, [Table.dir ".pnpm"; Table.link "left-pad"]);
        (store, [Table.dir "@scope+evil@1.0.0"; Table.dir "left-pad@1.3.0";
                 Table.file "lock.yaml"])];
     Table.manifests :=
       [(package ++ ["package.json"], manifest "1.0.0");
        (other ++ ["package.json"], manifest "1.3.0")] |}.

(** A tree with failures: the manifest of [root/evil-pkg] does not
    parse; [root/broken/node_modules] and the scope directory
    [root/@locked] cannot be read; [root/zzz/node_modules/evil-pkg] has
    no manifest. *)
Definition failing : Table.t :=
  {| Table.present :=
       [root; root ++ ["evil-pkg"; "package.json"];
        root ++ ["broken"; "node_modules"];
        root ++ ["zzz"; "node_modules"]];
     Table.real :=
       [(root, root);
        (root ++ ["broken"; "node_modules"], root ++ ["broken"; "node_modules"]);
        (root ++ ["zzz"; "node_modules"], root ++ ["zzz"; "node_modules"])];
     Table.dirs :=
       [(root, [Table.dir "broken"; Table.dir "evil-pkg"; Table.dir "@locked";
                Table.dir "zzz"]);
        (root ++ ["zzz"; "node_modules"], [Table.dir "evil-pkg"])];
     Table.manifests := [] |}.

(** [evil-pkg] 1.0.0 installed twice: in [root] and as a dependency of
    [a]. *)
Definition twice : Table.t :=
  {| Table.present :=
       [root; root ++ ["evil-pkg"; "package.json"];
        root ++ ["a"; "node_modules"];
        root ++ ["a"; "node_modules"; "evil-pkg"; "package.json"]];
     Table.real :=
       [(root, root); (root ++ ["a"; "node_modules"], root ++ ["a"; "node_modules"])];
     Table.dirs :=
       [(root, [Table.dir "a"; Table.dir "evil-pkg"]);
        (root ++ ["a"; "node_modules"], [Table.dir "evil-pkg"])];
     Table.manifests :=
       [(root ++ ["evil-pkg"; "package.json"], manifest "1.0.0");
        (root ++ ["a"; "node_modules"; "evil-pkg"; "package.json"], manifest "v1.0.0")] |}.

(** [evil-pkg] installed with a manifest whose version is the number
    [1]. *)
Definition numeric : Table.t :=
  {| Table.present := [root; root ++ ["evil-pkg"; "package.json"]];
     Table.real := [(root, root)];
     Table.dirs := [(root, [Table.dir "evil-pkg"])];
     Table.manifests :=
       [(root ++ ["evil-pkg"; "package.json"], JObject [("version", JNumber 1)])] |}.

(** A store with two entries for the name [../..]: [path.join]
    normalizes [<store>/<entry>/node_modules/../..] to the store
    itself, whatever the entry. *)
Definition climbing : Table.t :=
  let store := root ++ [".pnpm"] in
  {| Table.present := [root; store; store ++ ["package.json"]];
     Table.real := [(root, root)];
     Table.dirs :=
       [(root, [Table.dir ".pnpm"]);
        (store, [Table.dir "..+..@1.0.0"; Table.dir "..+..@2.0.0"])];
     Table.manifests := [(store ++ ["package.json"], manifest "1.0.0")] |}.

Definition climbing_name : JsMap :=
  COMPROMISED_PACKAGES_MAP
    [ {| PackageEntry.name := "../.."; PackageEntry.versions := ["v1.0.0"] |} ].

(** A blacklist whose entry lists the string that stands for a version
    that could not be read. *)
Definition unknown_listed : JsMap :=
  COMPROMISED_PACKAGES_MAP
    [ {| PackageEntry.name := "evil-pkg";
         PackageEntry.versions := ["v1.0.0"; "unknown"] |} ].

(** A symlink ring: [A] and [B] are installed in [root]; the only
    dependency of [A] is a link to [B] and the only dependency of [B] is
    a link to [A].  Every path [root/A/node_modules/B/node_modules/A/...]
    exists.  [locate cur allowed rest] follows [rest] from the install
    directory whose real path is [cur] and whose entries are [allowed],
    and gives the real path reached. *)
Fixpoint locate (cur : path) (allowed : list string) (rest : list string) : option path :=
  match rest with
  | [] => Some cur
  | x :: rest' =>
      if bool_decide (x ∈ allowed) then
        let other := if String.eqb x "A" then ["B"] else ["A"] in
        match rest' with
        | [] => Some (root ++ [x])
        | y :: rest'' =>
            if String.eqb y "node_modules" then
              locate (root ++ [x; "node_modules"]) other rest''
            else if String.eqb y "package.json" then
              match rest'' with
              | [] => Some (root ++ [x; "package.json"])
              | _ :: _ => None
              end
            else None
        end
      else None
  end.

Definition ring_real (p : path) : option path :=
  match p with
  | a :: b :: rest =>
      if String.eqb a "p" && String.eqb b "node_modules"
      then locate root ["A"; "B"] rest else None
  | _ => None
  end.

Definition ring : FileSystem :=
  {| existsSync p := bool_decide (is_Some (ring_real p));
     realpathSync := ring_real;
     readdirSync p :=
       real ← ring_real p;
       if bool_decide (real = root) then Some [Table.dir "A"; Table.dir "B"]
       else if bool_decide (real = root ++ ["A"; "node_modules"]) then Some [Table.link "B"]
       else if bool_decide (real = root ++ ["B"; "node_modules"]) then Some [Table.link "A"]
       else if bool_decide (real = root ++ ["A"]) || bool_decide (real = root ++ ["B"])
       then Some [Table.dir "node_modules"; Table.file "package.json"]
       else None;
     readJsonSync p :=
       real ← ring_real p;
       if bool_decide (real = root ++ ["A"; "package.json"]) then Some (manifest "1.0.0")
       else if bool_decide (real = root ++ ["B"; "package.json"]) then Some (manifest "2.0.0")
       else None |}.

End Ex.

(** ** Objects: property order, spread and string conversion *)

Module Js.

Definition is_digit (c : ascii) : bool :=
  (48 <=? nat_of_ascii c) && (nat_of_ascii c <=? 57).

Fixpoint digits_value (s : string) (acc : N) : option N :=
  match s with
  | EmptyString => Some acc
  | String c rest =>
      if is_digit c
      then digits_value rest (acc * 10 + N.of_nat (nat_of_ascii c - 48))%N
      else None
  end.

(** A property key that is an array index: a canonical decimal numeral
    below [2^32 - 1]. *)
Definition array_index (k : string) : option N :=
  match k with
  | EmptyString => None
  | String c rest =>
      if Ascii.eqb c "0"%char && negb (String.eqb rest "") then None
      else
        v ← digits_value k 0;
        if (v <? 4294967295)%N then Some v else None
  end.

(** The place of a new array index among the properties: after the
    smaller indices and before everything else. *)
Fixpoint insert_index (n : N) (k : string) (v : json) (fields : list (string * json))
    : list (string * json) :=
  match fields with
  | [] => [(k, v)]
  | (k', v') :: rest =>
      match array_index k' with
      | Some n' =>
          if (n' <? n)%N then (k', v') :: insert_index n k v rest
          else (k, v) :: fields
      | None => (k, v) :: fields
      end
  end.

(** [CreateDataProperty]: an existing key keeps its place and takes the
    new value; a new key goes where [Object.keys] will list it, the
    array indices first and ascending, then the other keys in the order
    of their creation. *)
Definition define (fields : list (string * json)) (k : string) (v : json)
    : list (string * json) :=
  if bool_decide (k ∈ fields.*1) then
    (fun kv => if String.eqb (fst kv) k then (fst kv, v) else kv) <$> fields
  else
    match array_index k with
    | Some n => insert_index n k v fields
    | None => fields ++ [(k, v)]
    end.

(** The own enumerable properties that a spread copies and
    [Object.keys] lists: none for [undefined], [null], a boolean or a
    number; the code units of a string and the items of an array under
    their indices; the fields of an object. *)
Definition own_props (src : option json) : list (string * json) :=
  match src with
  | Some (JString s) =>
      imap (fun i c => (pretty i, JString (String c EmptyString))) (list_ascii_of_string s)
  | Some (JArray items) => imap (fun i item => (pretty i, item)) items
  | Some (JObject fields) => fields
  | _ => []
  end.

(** [{ ...target, ...src }]. *)
Definition spread (target : list (string * json)) (src : option json)
    : list (string * json) :=
  foldl (fun t kv => define t (fst kv) (snd kv)) target (own_props src).

(** [j.k] for a key [k] that no prototype defines: a [TypeError] on
    [null] (outer [None]), the field of an object, [undefined] on
    anything else. *)
Definition get_prop (j : json) (k : string) : option (option json) :=
  match j with
  | JNull => None
  | JObject fields => Some (assoc_get fields k)
  | _ => Some None
  end.

(** [j.k] when [j] is not [null]. *)
Definition member (j : json) (k : string) : option json := mjoin (get_prop j k).

(** The value that a spread of [src] stores under [k]: the last one
    among the own properties of [src]. *)
Definition own (src : option json) (k : string) : option json :=
  assoc_get (reverse (own_props src)) k.

Definition or_else (a b : option json) : option json :=
  match a with Some v => Some v | None => b end.

(** Whether [`${j}`] throws.  An object with an own [toString] property
    has no callable conversion left ([valueOf] returns the object); an
    array joins the conversions of its items. *)
Fixpoint toString_throws (j : json) : bool :=
  match j with
  | JObject fields => bool_decide ("toString" ∈ fields.*1)
  | JArray items => existsb toString_throws items
  | _ => false
  end.

End Js.

(** ** Manifest scanner *)

(** [{...pkgJson.dependencies, ...pkgJson.devDependencies,
    ...pkgJson.peerDependencies, ...pkgJson.optionalDependencies}];
    [None] when [pkgJson] is [null]. *)
Definition allDeps (pkgJson : json) : option (list (string * json)) :=
  dependencies ← Js.get_prop pkgJson "dependencies";
  devDependencies ← Js.get_prop pkgJson "devDependencies";
  peerDependencies ← Js.get_prop pkgJson "peerDependencies";
  optionalDependencies ← Js.get_prop pkgJson "optionalDependencies";
  Some (Js.spread (Js.spread (Js.spread (Js.spread [] dependencies) devDependencies)
                             peerDependencies) optionalDependencies).

(** The manifest block of the scanner: one reference for each key of
    [allDeps] that [compromisedPackages] includes, with the value stored
    under the key as its version.  A manifest that is missing, cannot be
    read or parsed, or is [null], gives none. *)
Definition manifestRefs (fs : FileSystem) (compromisedPackages : list string)
    (packagePath : path) (packageName : string) (depth : nat) : list DependencyRef.t :=
  let pkgJsonPath := path_join packagePath "package.json" in
  if existsSync fs pkgJsonPath then
    match readJsonSync fs pkgJsonPath with
    | None => []
    | Some pkgJson =>
        match allDeps pkgJson with
        | None => []
        | Some deps =>
            (fun kv => {| DependencyRef.foundIn := packagePath;
                          DependencyRef.foundInPackageName := packageName;
                          DependencyRef.compromisedPackage := fst kv;
                          DependencyRef.version := snd kv;
                          DependencyRef.depth := depth |})
              <$> filter (fun kv => fst kv ∈ compromisedPackages) deps
        end
    end
  else [].

(** A package directory of the scanner: its manifest, then the scan of
    its own [node_modules] when that exists. *)
Definition scanPackage (recurse : path → WalkState → list DependencyRef.t * WalkState)
    (fs : FileSystem) (compromisedPackages : list string) (packagePath : path)
    (packageName : string) (depth : nat) (st : WalkState)
    : list DependencyRef.t * WalkState :=
  let refs := manifestRefs fs compromisedPackages packagePath packageName depth in
  let nestedNodeModules := path_join packagePath "node_modules" in
  if existsSync fs nestedNodeModules then
    let '(nested, st') := recurse nestedNodeModules st in
    (refs ++ nested, st')
  else (refs, st).

(** The body of the scanner's loop over the entries of a root.  There
    is no branch for [.pnpm]. *)
Definition scanEntry (recurse : path → WalkState → list DependencyRef.t * WalkState)
    (fs : FileSystem) (compromisedPackages : list string) (nodeModulesPath : path)
    (depth : nat) (entry : Dirent.t) (st : WalkState)
    : list DependencyRef.t * WalkState :=
  if skipped entry then ([], st)
  else
    let entryPath := path_join nodeModulesPath (Dirent.name entry) in
    if Str.startsWith (Dirent.name entry) "@" then
      match readdirSync fs entryPath with
      | None => ([], st)
      | Some scopedEntries =>
          for_of (fun child s =>
                    if skipped child then ([], s)
                    else
                      let packagePath := path_join entryPath (Dirent.name child) in
                      let packageName := Dirent.name entry +:+ "/" +:+ Dirent.name child in
                      scanPackage recurse fs compromisedPackages packagePath packageName
                                  depth s)
                 scopedEntries st
      end
    else
      scanPackage recurse fs compromisedPackages entryPath (Dirent.name entry) depth st.

Fixpoint scan (fuel : nat) (fs : FileSystem) (nodeModulesPath : path)
    (compromisedPackages : list string) (depth maxDepth : nat) (st : WalkState)
    : list DependencyRef.t * WalkState :=
  match fuel with
  | 0 => ([], st)
  | S fuel' =>
      if (maxDepth <? depth) || negb (existsSync fs nodeModulesPath) then ([], st)
      else
        match cycleCheck fs nodeModulesPath st with
        | None => ([], st)
        | Some st1 =>
            match readdirSync fs nodeModulesPath with
            | None => ([], st1)
            | Some entries =>
                let st2 := {| visitedPaths := visitedPaths st1;
                              enumerated := enumerated st1 ++ [nodeModulesPath] |} in
                for_of (scanEntry
                          (fun p s => scan fuel' fs p compromisedPackages (depth + 1)
                                           maxDepth s)
                          fs compromisedPackages nodeModulesPath depth)
                       entries st2
            end
        end
  end.

(** [scanPackageJsonDependencies(nodeModulesPath, compromisedPackages,
    depth, maxDepth, visitedPaths)]. *)
Definition scanPackageJsonDependencies (fs : FileSystem) (nodeModulesPath : path)
    (compromisedPackages : list string) (depth maxDepth : nat) (st : WalkState)
    : list DependencyRef.t * WalkState :=
  scan (S maxDepth - depth) fs nodeModulesPath compromisedPackages depth maxDepth st.

(** ** The manifest of the project *)

(** A [forEach] whose body pushes and then logs: when the log of an
    element throws, that element is the last one pushed. *)
Fixpoint push_until {A : Type} (throws : A → bool) (l : list A) : list A * bool :=
  match l with
  | [] => ([], false)
  | x :: rest =>
      if throws x then ([x], true)
      else let '(pushed, thrown) := push_until throws rest in (x :: pushed, thrown)
  end.

(** [checkDeps(deps, type)]: nothing for a falsy [deps]; otherwise one
    finding for each key of [deps] that the index has.  The flag tells
    whether the log line of a finding threw. *)
Definition checkDeps (m : JsMap) (deps : option json) (type : string)
    : list Declared.t * bool :=
  if negb (js_truthy deps) then ([], false)
  else
    push_until (fun f => Js.toString_throws (Declared.version f))
      ((fun kv => {| Declared.package := fst kv;
                     Declared.version := snd kv;
                     Declared.group := type |})
         <$> filter (fun kv => Map_has m (fst kv) = true) (Js.own_props deps)).

(** The four calls of [checkDeps], until one throws. *)
Fixpoint checkGroups (m : JsMap) (packageJson : json) (groups : list string)
    : list Declared.t :=
  match groups with
  | [] => []
  | group :: rest =>
      match Js.get_prop packageJson group with
      | None => []
      | Some deps =>
          let '(pushed, thrown) := checkDeps m deps group in
          if thrown then pushed else pushed ++ checkGroups m packageJson rest
      end
  end.

Definition dependencyGroups : list string :=
  ["dependencies"; "devDependencies"; "peerDependencies"; "optionalDependencies"].

(** The check of [package.json]: [results.foundInPackageJson] when it
    is done.  Every exception is caught and leaves what was pushed. *)
Definition scanPackageJson (fs : FileSystem) (m : JsMap) (packageJsonPath : path)
    : list Declared.t :=
  if existsSync fs packageJsonPath then
    match readJsonSync fs packageJsonPath with
    | None => []
    | Some packageJson => checkGroups m packageJson dependencyGroups
    end
  else [].

(** ** The whole run *)

(** The scanner from the check of [node_modules] to the summary.  The
    log line of a dependency reference is not inside a [try]: when it
    throws, the process ends ([None]). *)
Definition main (fs : FileSystem) (m : JsMap) (targetDir : path) : option Results :=
  let nodeModules := path_join targetDir "node_modules" in
  found ← (if existsSync fs nodeModules then
             inst ← scanInstalled fs m nodeModules;
             let depResults :=
               (scanPackageJsonDependencies fs nodeModules (Map_keys m) 0 5 fresh).1 in
             if existsb (fun dep => Js.toString_throws (DependencyRef.version dep)) depResults
             then None
             else Some (inst ++ (reportDependency m <$> depResults))
           else Some []);
  let declared := scanPackageJson fs m (path_join targetDir "package.json") in
  Some (summarize {| foundInNodeModules := found;
                     foundInPackageJson := declared;
                     summary := {| safe := true; totalIssues := 0;
                                   criticalLevel := none |} |}).

(** [process.exit(results.summary.safe ? 0 : 1)]. *)
Definition exitCode (results : Results) : nat :=
  if safe (summary results) then 0 else 1.

(** ** Vocabulary of the further statements *)

(** The (declaring directory, referenced name) combination of a
    reference. *)
Definition refKey (r : DependencyRef.t) : path * string :=
  (DependencyRef.foundIn r, DependencyRef.compromisedPackage r).

(** References with distinct combinations, all found below [root]. *)
Definition tidy_refs (root : path) (refs : list DependencyRef.t) : Prop :=
  NoDup (refKey <$> refs)
  ∧ Forall (fun r => ∃ n, below root n (DependencyRef.foundIn r)) refs.

(** What the manifest at [packagePath] declares for the name [k]: the
    value of the last of the four groups that has the key. *)
Definition declaredRange (pkgJson : json) (k : string) : option json :=
  Js.or_else (Js.own (Js.member pkgJson "optionalDependencies") k)
    (Js.or_else (Js.own (Js.member pkgJson "peerDependencies") k)
       (Js.or_else (Js.own (Js.member pkgJson "devDependencies") k)
          (Js.own (Js.member pkgJson "dependencies") k))).

(** A result of the walker, as the source pushes it: the directory
    [path.join(dir, targetPackage)] with the version of its manifest. *)
Definition pushed_at (fs : FileSystem) (targetPackage : string) (i : Instance.t) : Prop :=
  ∃ dir, i = hit fs (path_join dir targetPackage) (Instance.depth i).

(** ** A sample project *)

Module Sample.

(** The index of a list file that names [evil-pkg] with one version and
    [@scope/evil] with none. *)
Definition blacklist : JsMap :=
  COMPROMISED_PACKAGES_MAP
    [ {| PackageEntry.name := "evil-pkg"; PackageEntry.versions := ["v1.0.0"] |};
      {| PackageEntry.name := "@scope/evil"; PackageEntry.versions := [] |} ].

(** The manifest of the installed package [a]: [evil-pkg] is declared
    in two groups. *)
Definition manifest_a : json :=
  JObject [("name", JString "a"); ("version", JString "2.0.0");
           ("dependencies",
            JObject [("evil-pkg", JString "^1.0.0"); ("left-pad", JString "1.3.0")]);
           ("optionalDependencies", JObject [("evil-pkg", JString "2.x")])].

Definition manifest_b : json :=
  JObject [("peerDependencies", JObject [("@scope/evil", JString "*")])].

Definition manifest_c : json :=
  JObject [("devDependencies", JObject [("evil-pkg", JString "1.0.0")])].

(** The manifest of the project itself. *)
Definition manifest_project : json :=
  JObject [("dependencies", JObject [("evil-pkg", JString "^1.0.0")]);
           ("devDependencies",
            JObject [("left-pad", JString "1.3.0"); ("evil-pkg", JString "1.0.0")])].

Definition root : path := ["p"; "node_modules"].

(** The project [/p]: [a] and [@s/c] are installed in [root], [b] is
    installed as a dependency of [a]; no blacklisted package is
    installed. *)
Definition project : Table.t :=
  {| Table.present :=
       [root; root ++ ["a"; "package.json"]; root ++ ["a"; "node_modules"];
        root ++ ["a"; "node_modules"; "b"; "package.json"];
        root ++ ["@s"; "c"; "package.json"]; ["p"; "package.json"]];
     Table.real :=
       [(root, root); (root ++ ["a"; "node_modules"], root ++ ["a"; "node_modules"])];
     Table.dirs :=
       [(root, [Table.dir "a"; Table.dir "@s"; Table.file ".package-lock.json"]);
        (root ++ ["@s"], [Table.dir "c"]);
        (root ++ ["a"; "node_modules"], [Table.dir "b"])];
     Table.manifests :=
       [(root ++ ["a"; "package.json"], manifest_a);
        (root ++ ["a"; "node_modules"; "b"; "package.json"], manifest_b);
        (root ++ ["@s"; "c"; "package.json"], manifest_c);
        (["p"; "package.json"], manifest_project)] |}.

Definition ref_a : DependencyRef.t :=
  {| DependencyRef.foundIn := root ++ ["a"];
     DependencyRef.foundInPackageName := "a";
     DependencyRef.compromisedPackage := "evil-pkg";
     DependencyRef.version := JString "2.x";
     DependencyRef.depth := 0 |}.

Definition ref_b : DependencyRef.t :=
  {| DependencyRef.foundIn := root ++ ["a"; "node_modules"; "b"];
     DependencyRef.foundInPackageName := "b";
     DependencyRef.compromisedPackage := "@scope/evil";
     DependencyRef.version := JString "*";
     DependencyRef.depth := 1 |}.

Definition ref_c : DependencyRef.t :=
  {| DependencyRef.foundIn := root ++ ["@s"; "c"];
     DependencyRef.foundInPackageName := "@s/c";
     DependencyRef.compromisedPackage := "evil-pkg";
     DependencyRef.version := JString "1.0.0";
     DependencyRef.depth := 0 |}.

End Sample.

(** The findings that [checkDeps] pushes for one group of the project
    manifest when no log line throws: one for each own key of the group
    that the index has, in the order of [Object.keys]. *)
Definition declaredIn (m : JsMap) (packageJson : json) (group : string)
    : list Declared.t :=
  (fun kv => {| Declared.package := fst kv;
                Declared.version := snd kv;
                Declared.group := group |})
    <$> filter (fun kv => Map_has m (fst kv) = true)
          (Js.own_props (Js.member packageJson group)).

(** The same for the four groups, in the order of the calls. *)
Definition allDeclared (m : JsMap) (packageJson : json) : list Declared.t :=
  dependencyGroups ≫= declaredIn m packageJson.

(** The log line of a finding of the project manifest throws. *)
Definition logThrows (d : Declared.t) : bool := Js.toString_throws (Declared.version d).

(** ** A hostile project *)

Module Hostile.

(** A range that is an object with an own [toString] property: its
    conversion to a string throws. *)
Definition range : json := JObject [("toString", JString "1.0.0")].

(** The manifest of the project and of the installed package [a]: the
    first blacklisted name has the range that cannot be logged. *)
Definition manifest : json :=
  JObject [("dependencies",
            JObject [("evil-pkg", range); ("@scope/evil", JString "1.0.0")])].

Definition project : Table.t :=
  {| Table.present :=
       [Sample.root; Sample.root ++ ["a"; "package.json"]; ["p"; "package.json"]];
     Table.real := [(Sample.root, Sample.root)];
     Table.dirs := [(Sample.root, [Table.dir "a"])];
     Table.manifests :=
       [(Sample.root ++ ["a"; "package.json"], manifest);
        (["p"; "package.json"], manifest)] |}.

(** The same project before anything is installed. *)
Definition uninstalled : Table.t :=
  {| Table.present := [["p"; "package.json"]];
     Table.real := [];
     Table.dirs := [];
     Table.manifests := [(["p"; "package.json"], manifest)] |}.

(** A manifest where the range that cannot be logged comes second, and
    the same name is declared again in a later group. *)
Definition late : json :=
  JObject [("dependencies",
            JObject [("@scope/evil", JString "1.0.0"); ("evil-pkg", range)]);
           ("devDependencies", JObject [("evil-pkg", JString "2.0.0")])].

Definition late_project : Table.t :=
  {| Table.present := [["p"; "package.json"]];
     Table.real := [];
     Table.dirs := [];
     Table.manifests := [(["p"; "package.json"], late)] |}.

End Hostile.

(** * The earlier walker and manifest scanner

    The earlier index.cjs has no set of visited paths, passes over
    symbolic links and knows no content store. *)

Module Earlier.

(** [!entry.isDirectory()], the test before each [continue]. *)
Definition skipped (entry : Dirent.t) : bool := negb (Dirent.isDirectory entry).

(** A package directory: the hit when its name is the target, then the
    walk of its own [node_modules] when that exists. *)
Definition packageDir (recurse : path → list Instance.t) (fs : FileSystem)
    (packagePath : path) (isTarget : bool) (depth : nat) : list Instance.t :=
  let pushed := if isTarget then [hit fs packagePath depth] else [] in
  let nestedNodeModules := path_join packagePath "node_modules" in
  if existsSync fs nestedNodeModules then pushed ++ recurse nestedNodeModules
  else pushed.

(** The body of the loop over the entries of a walk root. *)
Definition rootEntry (recurse : path → list Instance.t) (fs : FileSystem)
    (nodeModulesPath : path) (targetPackage : string) (depth : nat) (entry : Dirent.t)
    : list Instance.t :=
  if skipped entry then []
  else
    let entryPath := path_join nodeModulesPath (Dirent.name entry) in
    if Str.startsWith (Dirent.name entry) "@" then
      match readdirSync fs entryPath with
      | None => []
      | Some scopedEntries =>
          scopedEntries ≫= fun scopedEntry =>
            if skipped scopedEntry then []
            else
              let fullPackageName :=
                Dirent.name entry +:+ "/" +:+ Dirent.name scopedEntry in
              let packagePath := path_join entryPath (Dirent.name scopedEntry) in
              packageDir recurse fs packagePath
                         (String.eqb fullPackageName targetPackage) depth
      end
    else
      packageDir recurse fs entryPath (String.eqb (Dirent.name entry) targetPackage) depth.

Fixpoint walk (fuel : nat) (fs : FileSystem) (nodeModulesPath : path)
    (targetPackage : string) (depth maxDepth : nat) : list Instance.t :=
  match fuel with
  | 0 => []
  | S fuel' =>
      if (maxDepth <? depth) || negb (existsSync fs nodeModulesPath) then []
      else
        match readdirSync fs nodeModulesPath with
        | None => []
        | Some entries =>
            entries ≫= rootEntry (fun p => walk fuel' fs p targetPackage (depth + 1) maxDepth)
                          fs nodeModulesPath targetPackage depth
        end
  end.

(** [findPackageRecursively(nodeModulesPath, targetPackage, depth,
    maxDepth)] of the earlier scanner. *)
Definition findPackageRecursively (fs : FileSystem) (nodeModulesPath : path)
    (targetPackage : string) (depth maxDepth : nat) : list Instance.t :=
  walk (S maxDepth - depth) fs nodeModulesPath targetPackage depth maxDepth.

(** A package directory of the manifest scanner. *)
Definition scanPackage (recurse : path → list DependencyRef.t) (fs : FileSystem)
    (compromisedPackages : list string) (packagePath : path) (packageName : string)
    (depth : nat) : list DependencyRef.t :=
  let refs := manifestRefs fs compromisedPackages packagePath packageName depth in
  let nestedNodeModules := path_join packagePath "node_modules" in
  if existsSync fs nestedNodeModules then refs ++ recurse nestedNodeModules
  else refs.

Definition scanEntry (recurse : path → list DependencyRef.t) (fs : FileSystem)
    (compromisedPackages : list string) (nodeModulesPath : path) (depth : nat)
    (entry : Dirent.t) : list DependencyRef.t :=
  if skipped entry then []
  else
    let entryPath := path_join nodeModulesPath (Dirent.name entry) in
    if Str.startsWith (Dirent.name entry) "@" then
      match readdirSync fs entryPath with
      | None => []
      | Some scopedEntries =>
          scopedEntries ≫= fun scopedEntry =>
            if skipped scopedEntry then []
            else
              let packagePath := path_join entryPath (Dirent.name scopedEntry) in
              let packageName := Dirent.name entry +:+ "/" +:+ Dirent.name scopedEntry in
              scanPackage recurse fs compromisedPackages packagePath packageName depth
      end
    else
      scanPackage recurse fs compromisedPackages entryPath (Dirent.name entry) depth.

Fixpoint scan (fuel : nat) (fs : FileSystem) (nodeModulesPath : path)
    (compromisedPackages : list string) (depth maxDepth : nat) : list DependencyRef.t :=
  match fuel with
  | 0 => []
  | S fuel' =>
      if (maxDepth <? depth) || negb (existsSync fs nodeModulesPath) then []
      else
        match readdirSync fs nodeModulesPath with
        | None => []
        | Some entries =>
            entries ≫= scanEntry (fun p => scan fuel' fs p compromisedPackages (depth + 1)
                                             maxDepth)
                          fs compromisedPackages nodeModulesPath depth
        end
  end.

(** [scanPackageJsonDependencies(nodeModulesPath, compromisedPackages,
    depth, maxDepth)] of the earlier scanner. *)
Definition scanPackageJsonDependencies (fs : FileSystem) (nodeModulesPath : path)
    (compromisedPackages : list string) (depth maxDepth : nat) : list DependencyRef.t :=
  scan (S maxDepth - depth) fs nodeModulesPath compromisedPackages depth maxDepth.

End Earlier.

(** ** Vocabulary: trees without links *)

(** A file system without symbolic links: its directories list each
    entry once and no entry is a link, and a path that resolves is its
    own real path. *)
Definition link_free (fs : FileSystem) : Prop :=
  well_formed fs
  ∧ (∀ p real, realpathSync fs p = Some real → real = p)
  ∧ (∀ p entries, readdirSync fs p = Some entries →
                  Forall (fun entry => Dirent.isSymbolicLink entry = false) entries).

(** No directory has an entry named [.pnpm]. *)
Definition store_free (fs : FileSystem) : Prop :=
  ∀ p entries, readdirSync fs p = Some entries →
               Forall (fun entry => Dirent.name entry ≠ ".pnpm") entries.

(** No path of the set lies at or below [root]. *)
Definition fresh_for (root : path) (st : WalkState) : Prop :=
  ∀ p, p ∈ visitedPaths st → ¬ root `prefix_of` p.

(** The paths that [st'] has and [st] has not lie at or below
    [root]. *)
Definition grown_under (root : path) (st st' : WalkState) : Prop :=
  ∀ p, p ∈ visitedPaths st' → p ∈ visitedPaths st ∨ root `prefix_of` p.

(** The check of a table for [link_free] and [store_free]. *)
Definition Table_plain (tbl : Table.t) : bool :=
  Table.checked tbl
  && forallb (fun '(p, real) => bool_decide (real = p)) (Table.real tbl)
  && forallb (fun '(_, entries) =>
                forallb (fun entry => negb (Dirent.isSymbolicLink entry)
                                      && negb (String.eqb (Dirent.name entry) ".pnpm"))
                        entries)
       (Table.dirs tbl).

(** * The list extractor (extract_packages.cjs)

    A string of the extractor is the list of its UTF-16 code units,
    each a number.  The names and versions that the patterns accept
    hold ASCII code units only; [Extract.text] turns them into the
    [string] of the other parts. *)

Module Re.

(** The regular expressions that the extractor uses.  A character class
    or a literal is its predicate on code units, with the [i] flag
    applied.  Quantifiers are greedy.  [r+] is [Seq r (Star r)]. *)
Inductive t :=
  | Eps
  | Chr (p : N → bool)
  | Seq (r1 r2 : t)
  | Opt (r : t)
  | Star (r : t)
  | Group (n : nat) (r : t)
  | End_.

Definition Plus (r : t) : t := Seq r (Star r).

(** The captures of a match, the latest first. *)
Definition captures := list (nat * list N).

(** The code units between the input [s] and its suffix [s1]. *)
Definition consumed (s s1 : list N) : list N := take (length s - length s1) s.

(** The backtracking matcher of ECMAScript, in continuation-passing
    style: [run r s c k] matches [r] at the head of [s] and hands the
    rest of the input and the captures to [k]; when [k] fails the next
    alternative of [r] is tried, the longer ones first.  An iteration of
    a quantifier that consumes nothing is rejected. *)
Fixpoint run (r : t) (s : list N) (c : captures)
    (k : list N → captures → option captures) {struct r} : option captures :=
  match r with
  | Eps => k s c
  | Chr p =>
      match s with
      | a :: s1 => if p a then k s1 c else None
      | [] => None
      end
  | Seq r1 r2 => run r1 s c (fun s1 c1 => run r2 s1 c1 k)
  | Opt r1 =>
      match run r1 s c (fun s1 c1 => if length s1 <? length s then k s1 c1 else None) with
      | Some res => Some res
      | None => k s c
      end
  | Star r1 =>
      (fix loop (fuel : nat) (s : list N) (c : captures) {struct fuel}
         : option captures :=
         match fuel with
         | 0 => k s c
         | S fuel' =>
             match run r1 s c
                     (fun s1 c1 => if length s1 <? length s then loop fuel' s1 c1 else None)
             with
             | Some res => Some res
             | None => k s c
             end
         end) (length s) s c
  | Group n r1 => run r1 s c (fun s1 c1 => k s1 ((n, consumed s s1) :: c1))
  | End_ =>
      match s with
      | [] => k s c
      | _ :: _ => None
      end
  end.

(** [s.match(/^r/)] for a pattern without the [g] and [m] flags: the
    anchor holds at index 0 only, so no later start is tried. *)
Definition exec (r : t) (s : list N) : option captures :=
  run r s [] (fun _ c => Some c).

(** [match[n]]: [None] is [undefined]. *)
Fixpoint group (c : captures) (n : nat) : option (list N) :=
  match c with
  | [] => None
  | (n', w) :: rest => if n' =? n then Some w else group rest n
  end.

(** What a match consumes and captures, without the order of the
    alternatives. *)
Inductive Derives : t → list N → captures → list N → captures → Prop :=
  | D_Eps s c : Derives Eps s c s c
  | D_Chr p a s c : p a = true → Derives (Chr p) (a :: s) c s c
  | D_Seq r1 r2 s c s1 c1 s2 c2 :
      Derives r1 s c s1 c1 → Derives r2 s1 c1 s2 c2 → Derives (Seq r1 r2) s c s2 c2
  | D_Opt_skip r s c : Derives (Opt r) s c s c
  | D_Opt_take r s c s1 c1 : Derives r s c s1 c1 → Derives (Opt r) s c s1 c1
  | D_Star_stop r s c : Derives (Star r) s c s c
  | D_Star_more r s c s1 c1 s2 c2 :
      Derives r s c s1 c1 → Derives (Star r) s1 c1 s2 c2 → Derives (Star r) s c s2 c2
  | D_Group n r s c s1 c1 :
      Derives r s c s1 c1 → Derives (Group n r) s c s1 ((n, consumed s s1) :: c1)
  | D_End c : Derives End_ [] c [] c.

End Re.

Module Extract.

(** The code unit of an ASCII character. *)
Definition code (a : ascii) : N := N_of_ascii a.

Definition between (lo hi c : N) : bool := ((lo <=? c) && (c <=? hi))%N.

(** [\d]. *)
Definition is_digit (c : N) : bool := between 48 57 c.

(** [[a-z]] under the [i] flag: no code unit outside ASCII is
    canonicalized to an ASCII letter. *)
Definition is_letter (c : N) : bool := between 65 90 c || between 97 122 c.

(** [\w]. *)
Definition is_word (c : N) : bool := is_letter c || is_digit c || (c =? code "_")%N.

(** [\s], and what [trim] removes: the white space and the line
    terminators of ECMAScript.  Tab to carriage return, space, no-break
    space, U+1680, U+2000 to U+200A, U+2028, U+2029, U+202F, U+205F,
    U+3000 and U+FEFF. *)
Definition is_space (c : N) : bool :=
  (between 9 13 c || (c =? 32) || (c =? 160) || (c =? 5760) || between 8192 8202 c
   || (c =? 8232) || (c =? 8233) || (c =? 8239) || (c =? 8287) || (c =? 12288)
   || (c =? 65279))%N.

(** [[\w-]]. *)
Definition scope_char (c : N) : bool := is_word c || (c =? code "-")%N.

(** [[a-z0-9-_.]] under the [i] flag. *)
Definition name_char (c : N) : bool :=
  is_letter c || is_digit c || (c =? code "-")%N || (c =? code "_")%N
  || (c =? code ".")%N.

(** [[\d.]]. *)
Definition version_char (c : N) : bool := is_digit c || (c =? code ".")%N.

(** A literal. *)
Definition lit (x : ascii) (c : N) : bool := (c =? code x)%N.

(** The literal [v] under the [i] flag. *)
Definition lit_v (c : N) : bool := lit "v" c || lit "V" c.

(** [(@?[\w-]+\/)?], the first group of both patterns. *)
Definition scope_re : Re.t :=
  Re.Opt (Re.Group 1 (Re.Seq (Re.Opt (Re.Chr (lit "@")))
                        (Re.Seq (Re.Plus (Re.Chr scope_char)) (Re.Chr (lit "/"))))).

(** [([a-z0-9-_.]+)], the second group. *)
Definition name_re : Re.t := Re.Group 2 (Re.Plus (Re.Chr name_char)).

(** [v[\d.]+]. *)
Definition version_re : Re.t := Re.Seq (Re.Chr lit_v) (Re.Plus (Re.Chr version_char)).

(** The third group: a version, then any number of times a comma,
    optional white space and a version. *)
Definition versions_re : Re.t :=
  Re.Group 3 (Re.Seq version_re
                (Re.Star (Re.Seq (Re.Chr (lit ","))
                            (Re.Seq (Re.Star (Re.Chr is_space)) version_re)))).

(** [pattern1]: the scope, the name, white space, and the third group
    between parentheses; what follows the closing parenthesis is not
    looked at. *)
Definition pattern1 : Re.t :=
  Re.Seq scope_re
    (Re.Seq name_re
       (Re.Seq (Re.Plus (Re.Chr is_space))
          (Re.Seq (Re.Chr (lit "("))
             (Re.Seq versions_re (Re.Chr (lit ")")))))).

(** [pattern2]: the scope and the name, up to the end of the line. *)
Definition pattern2 : Re.t := Re.Seq scope_re (Re.Seq name_re Re.End_).

Fixpoint trimStart (s : list N) : list N :=
  match s with
  | c :: rest => if is_space c then trimStart rest else s
  | [] => []
  end.

(** [s.trim()]. *)
Definition trim (s : list N) : list N :=
  reverse (trimStart (reverse (trimStart s))).

(** [s.split(sep)] for a separator of one code unit. *)
Fixpoint split (sep : N) (s : list N) : list (list N) :=
  match s with
  | [] => [[]]
  | c :: rest =>
      if (c =? sep)%N then [] :: split sep rest
      else match split sep rest with
           | [] => [[c]]
           | piece :: pieces => (c :: piece) :: pieces
           end
  end.

(** [s.startsWith(p)]. *)
Fixpoint startsWith (s p : list N) {struct p} : bool :=
  match p, s with
  | [], _ => true
  | _ :: _, [] => false
  | a :: p', b :: s' => (a =? b)%N && startsWith s' p'
  end.

(** The code units of an ASCII string. *)
Definition str (s : string) : list N := code <$> list_ascii_of_string s.

(** The [string] of a list of code units below 256. *)
Definition text (w : list N) : string := string_of_list_ascii (ascii_of_N <$> w).

(** What one line yields: the package name and the versions, or
    nothing, when the line is blank, a comment or a rule, or fits
    neither pattern. *)
Definition parseLine (line : list N) : option (list N * list (list N)) :=
  let trimmedLine := trim line in
  if bool_decide (trimmedLine = []) || startsWith trimmedLine (str "---")
     || startsWith trimmedLine (str "#")
  then None
  else
    match Re.exec pattern1 trimmedLine with
    | Some match1 =>
        let scope := default [] (Re.group match1 1) in
        let packageName := scope ++ default [] (Re.group match1 2) in
        let versions := trim <$> split (code ",") (default [] (Re.group match1 3)) in
        Some (packageName, versions)
    | None =>
        match Re.exec pattern2 trimmedLine with
        | Some match2 =>
            let scope := default [] (Re.group match2 1) in
            let packageName := scope ++ default [] (Re.group match2 2) in
            Some (packageName, [])
        | None => None
        end
    end.

(** An element of [packages]. *)
Record Package := { name : list N; versions : list (list N); line : nat }.

(** The body of [lines.forEach((line, index) => ...)], on the pair of
    [packageSet] and [packages]. *)
Definition step (st : gset (list N) * list Package) (il : nat * list N)
    : gset (list N) * list Package :=
  match parseLine (snd il) with
  | Some (packageName, versions) =>
      if bool_decide (packageName ∈ fst st) then st
      else ({[packageName]} ∪ fst st,
            snd st ++ [ {| name := packageName; versions := versions;
                           line := fst il + 1 |} ])
  | None => st
  end.

(** [packages] after the loop over the lines of [content]. *)
Definition extract (content : list N) : list Package :=
  snd (foldl step (∅, []) (imap pair (split 10 content))).

(** [jsonOutput.packages], which index.cjs reads back as
    [COMPROMISED_PACKAGES_DATA.packages]. *)
Definition output (packages : list Package) : list PackageEntry.t :=
  (fun pkg => {| PackageEntry.name := text (name pkg);
                 PackageEntry.versions := text <$> versions pkg |})
    <$> packages.

(** A list file, from its lines. *)
Definition file (lines : list string) : list N :=
  lines ≫= fun l => str l ++ [10%N].

Definition sample : list N :=
  file [ "# Shai-Hulud"; "---"; "@ctrl/tinycolor (v4.1.1, v4.1.2)"; "left-pad";
         "  ngx-toastr (V19.0.1)  "; "beta-pkg (v1.0.0-beta)"; "left-pad (v1.3.0)" ].

Definition tinycolor : Package :=
  {| name := str "@ctrl/tinycolor"; versions := [str "v4.1.1"; str "v4.1.2"];
     line := 3 |}.

Definition left_pad : Package :=
  {| name := str "left-pad"; versions := []; line := 4 |}.

Definition ngx_toastr : Package :=
  {| name := str "ngx-toastr"; versions := [str "V19.0.1"]; line := 5 |}.

End Extract.

(** ** The CSV file of the extractor *)

Module Csv.

Definition quote : N := 34.

(** [pieces.join(sep)]. *)
Fixpoint join (sep : list N) (pieces : list (list N)) : list N :=
  match pieces with
  | [] => []
  | [piece] => piece
  | piece :: rest => piece ++ sep ++ join sep rest
  end.

(** The line pushed for a package: the name and the versions, joined by
    semicolons, each between double quotes. *)
Definition row (pkg : Extract.Package) : list N :=
  let versionsStr := join [Extract.code ";"] (Extract.versions pkg) in
  [quote] ++ Extract.name pkg ++ [quote; Extract.code ","; quote]
  ++ versionsStr ++ [quote].

Definition header : list N := Extract.str "package_name,versions".

(** [csvLines.join('\n')], the text written to the CSV file. *)
Definition content (packages : list Extract.Package) : list N :=
  join [10%N] (header :: (row <$> packages)).

(** The number of occurrences of a code unit. *)
Definition count (x : N) (s : list N) : nat :=
  length (filter (fun c => c = x) s).

End Csv.

(** ** Vocabulary of the extractor's statements *)

(** What holds of [packageSet] and [packages] after the lines [ils],
    given with their indices: the set holds the names of the packages,
    which are distinct; each package is the record of the first line
    that yields its name; the name of every line is in the set. *)
Definition loop_invariant (ils : list (nat * list N))
    (st : gset (list N) * list Extract.Package) : Prop :=
  (∀ n, n ∈ st.1 ↔ n ∈ Extract.name <$> st.2)
  ∧ NoDup (Extract.name <$> st.2)
  ∧ (∀ pkg, pkg ∈ st.2 →
       ∃ j il, ils !! j = Some il
               ∧ Extract.parseLine il.2 = Some (Extract.name pkg, Extract.versions pkg)
               ∧ Extract.line pkg = il.1 + 1
               ∧ ∀ j' il' vs, j' < j → ils !! j' = Some il' →
                              Extract.parseLine il'.2 ≠ Some (Extract.name pkg, vs))
  ∧ (∀ il n vs, il ∈ ils → Extract.parseLine il.2 = Some (n, vs) → n ∈ st.1).

(** A version as the first pattern accepts it: [v] or [V], then one or
    more digits or dots. *)
Definition version_shape (w : list N) : Prop :=
  ∃ x d, w = x :: d ∧ Extract.lit_v x = true ∧ d ≠ []
         ∧ Forall (fun c => Extract.version_char c = true) d.

(** A scope as the patterns accept it: nothing, or an optional [@], one
    or more word characters or hyphens, and a slash. *)
Definition scope_shape (w : list N) : Prop :=
  w = []
  ∨ ∃ sign run, w = sign ++ run ++ [Extract.code "/"]
                ∧ (sign = [] ∨ sign = [Extract.code "@"]) ∧ run ≠ []
                ∧ Forall (fun c => Extract.scope_char c = true) run.

(** The rest of a name: one or more letters, digits, hyphens,
    underscores or dots. *)
Definition base_shape (w : list N) : Prop :=
  w ≠ [] ∧ Forall (fun c => Extract.name_char c = true) w.

Definition name_shape (n : list N) : Prop :=
  ∃ scope base, n = scope ++ base ∧ scope_shape scope ∧ base_shape base.

(** The text of the repeated part of the third group: for each item a
    comma, white space and a version. *)
Definition items_text (items : list (list N * list N)) : list N :=
  items ≫= fun item => Extract.code "," :: fst item ++ snd item.

(** A code unit of a name or a version: a letter, a digit, or one of
    [-], [_], [.], [@], [/]; in particular ASCII. *)
Definition plain_char (c : N) : Prop :=
  (Extract.is_letter c || Extract.is_digit c) = true
  ∨ c = Extract.code "-" ∨ c = Extract.code "_" ∨ c = Extract.code "."
  ∨ c = Extract.code "@" ∨ c = Extract.code "/".

(** Settles a fact about one code unit: the classes are unfolded into
    comparisons of numbers. *)
Ltac code_facts :=
  unfold plain_char, Extract.version_char, Extract.name_char, Extract.scope_char,
    Extract.is_word, Extract.is_letter, Extract.is_digit, Extract.is_space,
    Extract.lit_v, Extract.lit, Extract.between;
  repeat match goal with
         | |- context [Extract.code ?a] =>
             let v := eval vm_compute in (Extract.code a) in
             change (Extract.code a) with v
         end;
  rewrite ?orb_true_iff, ?andb_true_iff, ?orb_false_iff, ?andb_false_iff,
    ?N.leb_le, ?N.leb_gt, ?N.eqb_eq, ?N.eqb_neq;
  lia.

(** * The directories that a search lists

    The walker once more, with its calls of [readdirSync] made visible:
    what a search does is the sequence of the directories whose entries
    it reads and of the instances it pushes.  A call of [readdirSync]
    that throws lists nothing. *)

Module Traced.

Inductive event :=
  | Root (p : path)
  | Scope (p : path)
  | Store (p : path)
  | Pushed (i : Instance.t).

(** The instances of a trace: the array that the walker returns. *)
Definition pushed (trace : list event) : list Instance.t :=
  omap (fun e => match e with Pushed i => Some i | _ => None end) trace.

(** The walk roots whose entries were read. *)
Definition roots (trace : list event) : list path :=
  omap (fun e => match e with Root p => Some p | _ => None end) trace.

(** Every directory whose entries were read: walk roots, scope
    directories and content stores. *)
Definition listed (trace : list event) : list path :=
  omap (fun e => match e with
                 | Root p | Scope p | Store p => Some p
                 | Pushed _ => None
                 end) trace.

(** [findInPnpmDirectory(pnpmPath, targetPackage, depth)]. *)
Definition findInPnpmDirectory (fs : FileSystem) (pnpmPath : path)
    (targetPackage : string) (depth : nat) : list event :=
  match readdirSync fs pnpmPath with
  | None => []
  | Some entries =>
      Store pnpmPath :: (Pushed <$> (entries ≫= pnpmEntry fs pnpmPath targetPackage depth))
  end.

Definition packageDir (recurse : path → WalkState → list event * WalkState)
    (fs : FileSystem) (packagePath : path) (isTarget : bool) (depth : nat)
    (st : WalkState) : list event * WalkState :=
  let pushed := if isTarget then [Pushed (hit fs packagePath depth)] else [] in
  let nestedNodeModules := path_join packagePath "node_modules" in
  if existsSync fs nestedNodeModules then
    let '(nested, st') := recurse nestedNodeModules st in
    (pushed ++ nested, st')
  else (pushed, st).

Definition scopedEntry (recurse : path → WalkState → list event * WalkState)
    (fs : FileSystem) (entryPath : path) (scope targetPackage : string) (depth : nat)
    (child : Dirent.t) (st : WalkState) : list event * WalkState :=
  if skipped child then ([], st)
  else
    let fullPackageName := scope +:+ "/" +:+ Dirent.name child in
    let packagePath := path_join entryPath (Dirent.name child) in
    packageDir recurse fs packagePath (String.eqb fullPackageName targetPackage) depth st.

Definition rootEntry (recurse : path → WalkState → list event * WalkState)
    (fs : FileSystem) (nodeModulesPath : path) (targetPackage : string) (depth : nat)
    (entry : Dirent.t) (st : WalkState) : list event * WalkState :=
  if skipped entry then ([], st)
  else
    let entryPath := path_join nodeModulesPath (Dirent.name entry) in
    if String.eqb (Dirent.name entry) ".pnpm" then
      (findInPnpmDirectory fs entryPath targetPackage (depth + 1), st)
    else if Str.startsWith (Dirent.name entry) "@" then
      match readdirSync fs entryPath with
      | None => ([], st)
      | Some scopedEntries =>
          let '(results, st') :=
            for_of (scopedEntry recurse fs entryPath (Dirent.name entry) targetPackage depth)
                   scopedEntries st in
          (Scope entryPath :: results, st')
      end
    else
      packageDir recurse fs entryPath
                 (String.eqb (Dirent.name entry) targetPackage) depth st.

Fixpoint walk (fuel : nat) (fs : FileSystem) (nodeModulesPath : path)
    (targetPackage : string) (depth maxDepth : nat) (st : WalkState)
    : list event * WalkState :=
  match fuel with
  | 0 => ([], st)
  | S fuel' =>
      if (maxDepth <? depth) || negb (existsSync fs nodeModulesPath) then ([], st)
      else
        match cycleCheck fs nodeModulesPath st with
        | None => ([], st)
        | Some st1 =>
            match readdirSync fs nodeModulesPath with
            | None => ([], st1)
            | Some entries =>
                let st2 := {| visitedPaths := visitedPaths st1;
                              enumerated := enumerated st1 ++ [nodeModulesPath] |} in
                let '(results, st') :=
                  for_of (rootEntry
                            (fun p s => walk fuel' fs p targetPackage (depth + 1) maxDepth s)
                            fs nodeModulesPath targetPackage depth)
                         entries st2 in
                (Root nodeModulesPath :: results, st')
            end
        end
  end.

(** [findPackageRecursively(nodeModulesPath, targetPackage, depth,
    maxDepth, visitedPaths)], as a trace. *)
Definition findPackageRecursively (fs : FileSystem) (nodeModulesPath : path)
    (targetPackage : string) (depth maxDepth : nat) (st : WalkState)
    : list event * WalkState :=
  walk (S maxDepth - depth) fs nodeModulesPath targetPackage depth maxDepth st.

End Traced.

(** A trace of calls entered in the state [st] and the result of the
    walker for the same calls: the instances are those of the trace, the
    walk state is the same, and the history variable [enumerated] has
    grown by the walk roots of the trace. *)
Definition erases (st : WalkState) (traced : list Traced.event * WalkState)
    (plain : list Instance.t * WalkState) : Prop :=
  Traced.pushed traced.1 = plain.1
  ∧ traced.2 = plain.2
  ∧ enumerated traced.2 = enumerated st ++ Traced.roots traced.1.

(** ** A content store reached through a link *)

Module Linked.

Definition store : path := Ex.root ++ [".pnpm"].

(** The install directory of the package [a]. *)
Definition nested : path := Ex.root ++ ["a"; "node_modules"].

(** [a/node_modules/.pnpm], a link to [../../.pnpm]. *)
Definition linked : path := nested ++ [".pnpm"].

Definition package (store : path) : path :=
  store ++ ["evil-pkg@1.0.0"; "node_modules"; "evil-pkg"].

(** The project [/p]: [evil-pkg] 1.0.0 lies in the content store of
    [root] and nowhere else; the install directory of [a] holds a link
    to that store. *)
Definition project : Table.t :=
  {| Table.present :=
       [Ex.root; store; nested; linked;
        package store; package store ++ ["package.json"];
        package linked; package linked ++ ["package.json"]];
     Table.real :=
       [(Ex.root, Ex.root); (store, store); (nested, nested); (linked, store);
        (package store, package store); (package linked, package store)];
     Table.dirs :=
       [(Ex.root, [Table.dir ".pnpm"; Table.dir "a"]);
        (store, [Table.dir "evil-pkg@1.0.0"]);
        (nested, [Table.link ".pnpm"]);
        (linked, [Table.dir "evil-pkg@1.0.0"])];
     Table.manifests :=
       [(package store ++ ["package.json"], Ex.manifest "1.0.0");
        (package linked ++ ["package.json"], Ex.manifest "1.0.0")] |}.

End Linked.

(** ** Matcher: lemmas *)

#[local] Arguments Ascii.eqb : simpl never.
#[local] Arguments String.eqb : simpl never.
#[local] Arguments path_join : simpl never.
#[local] Arguments readVersion : simpl never.

Lemma Map_has_get m k : Map_has m k = true ↔ is_Some (Map_get m k).
Proof. unfold Map_has. by rewrite bool_decide_eq_true. Qed.

Lemma Map_has_false m k : Map_has m k = false ↔ Map_get m k = None.
Proof.
  unfold Map_has. rewrite bool_decide_eq_false, <- eq_None_not_Some. done.
Qed.

Lemma isCompromised_absent m k v :
  Map_get m k = None → isCompromised m k v = Some false.
Proof.
  intros H. unfold isCompromised.
  by rewrite (proj2 (Map_has_false m k) H).
Qed.

Lemma isCompromised_present m k vs v :
  Map_get m k = Some vs →
  isCompromised m k (JString v) = Some (includes vs (Str.strip_leading_v v)).
Proof.
  intros H. unfold isCompromised.
  assert (Map_has m k = true) as -> by (apply Map_has_get; eauto).
  by rewrite H.
Qed.

Lemma includes_true l x : includes l x = true ↔ x ∈ l.
Proof. unfold includes. by rewrite bool_decide_eq_true. Qed.

Lemma startsWith_vv (v : string) :
  Str.startsWith v "vv" = true ↔ ∃ r, v = String "v"%char (String "v"%char r).
Proof.
  split.
  - destruct v as [|c [|c' r]]; cbn; try done.
    + by destruct (Ascii.eqb_spec "v"%char c).
    + destruct (Ascii.eqb_spec "v"%char c) as [<-|]; [|done].
      destruct (Ascii.eqb_spec "v"%char c') as [<-|]; [|done]. eauto.
  - by intros [r ->].
Qed.

Lemma strip_leading_v_fixed (v : string) :
  Str.strip_leading_v (Str.strip_leading_v v) = Str.strip_leading_v v
  ↔ Str.startsWith v "vv" = false.
Proof.
  rewrite <- not_true_iff_false, startsWith_vv.
  destruct v as [|c r]; cbn.
  { split; [|done]. by intros _ [? ?]. }
  destruct (Ascii.eqb_spec c "v"%char) as [->|Hc].
  - destruct r as [|c' r']; cbn.
    { split; [|done]. by intros _ [? ?]. }
    destruct (Ascii.eqb_spec c' "v"%char) as [->|Hc'].
    + split; [|intros []; eauto]. intros H.
      apply (f_equal String.length) in H. cbn in H. lia.
    + split; [|done]. intros _ [r0 [= ?]]. done.
  - cbn. destruct (Ascii.eqb_spec c "v"%char); [done|].
    split; [|done]. intros _ [r0 [= ?]]. done.
Qed.

(** ** Loops and the unfolding of the walker *)

Section Loops.
Context {E R : Type}.
Implicit Types (body : E → WalkState → list R * WalkState).

Lemma for_of_cons body e es st :
  for_of body (e :: es) st =
    ((body e st).1 ++ (for_of body es (body e st).2).1,
     (for_of body es (body e st).2).2).
Proof.
  simpl. destruct (body e st) as [r1 st1]. simpl.
  by destruct (for_of body es st1).
Qed.

Lemma for_of_ext body1 body2 es st :
  (∀ e s, body1 e s = body2 e s) → for_of body1 es st = for_of body2 es st.
Proof.
  intros Hext. revert st. induction es as [|e es IH]; intros st; [done|].
  by rewrite !for_of_cons, Hext, !IH.
Qed.

(** A relation between the state before and after that every pass of
    the body keeps is kept by the loop. *)
Lemma for_of_rel (Rel : WalkState → WalkState → Prop) body es st :
  (∀ s, Rel s s) → (∀ s1 s2 s3, Rel s1 s2 → Rel s2 s3 → Rel s1 s3) →
  (∀ e s, e ∈ es → Rel s (body e s).2) →
  Rel st (for_of body es st).2.
Proof.
  intros Hrefl Htrans. revert st.
  induction es as [|e es IH]; intros st Hbody; [apply Hrefl|].
  rewrite for_of_cons. cbn. eapply Htrans.
  - apply Hbody. left.
  - apply IH. intros e' s' He'. apply Hbody. by right.
Qed.

(** What holds of everything a pass pushes holds of the results. *)
Lemma for_of_Forall (Q : R → Prop) body es st :
  (∀ e s, e ∈ es → Forall Q (body e s).1) →
  Forall Q (for_of body es st).1.
Proof.
  revert st. induction es as [|e es IH]; intros st Hbody; [by constructor|].
  rewrite for_of_cons. cbn. apply Forall_app. split.
  - apply Hbody. left.
  - apply IH. intros e' s' He'. apply Hbody. by right.
Qed.

(** Every result was pushed by the pass of some entry. *)
Lemma elem_of_for_of body es st r :
  r ∈ (for_of body es st).1 → ∃ e s, e ∈ es ∧ r ∈ (body e s).1.
Proof.
  revert st. induction es as [|e es IH]; intros st; [by intros ?%elem_of_nil|].
  rewrite for_of_cons. cbn. intros [Hr|Hr]%elem_of_app.
  - exists e, st. split; [left|done].
  - destruct (IH _ Hr) as (e' & s' & He' & Hr'). exists e', s'. split; [by right|done].
Qed.

(** What the pass of an entry pushes is among the results, whatever
    the other passes do. *)
Lemma for_of_elem_of body es st e :
  e ∈ es → ∃ s, (body e s).1 ⊆ (for_of body es st).1.
Proof.
  revert st. induction es as [|e' es IH]; intros st; [by intros ?%elem_of_nil|].
  rewrite for_of_cons. cbn. intros [->|He]%elem_of_cons.
  - exists st. intros r Hr. apply elem_of_app. by left.
  - destruct (IH (body e' st).2 He) as [s Hs]. exists s.
    intros r Hr. apply elem_of_app. right. by apply Hs.
Qed.
End Loops.

Section Unfolding.
Context (fs : FileSystem) (targetPackage : string).
Implicit Types (recurse : path → WalkState → list Instance.t * WalkState).

Lemma packageDir_ext recurse1 recurse2 packagePath isTarget depth st :
  (∀ p s, recurse1 p s = recurse2 p s) →
  packageDir recurse1 fs packagePath isTarget depth st
  = packageDir recurse2 fs packagePath isTarget depth st.
Proof. intros Hext. unfold packageDir. by rewrite Hext. Qed.

Lemma rootEntry_ext recurse1 recurse2 nodeModulesPath depth entry st :
  (∀ p s, recurse1 p s = recurse2 p s) →
  rootEntry recurse1 fs nodeModulesPath targetPackage depth entry st
  = rootEntry recurse2 fs nodeModulesPath targetPackage depth entry st.
Proof.
  intros Hext. unfold rootEntry.
  repeat case_match; try done.
  - apply for_of_ext. intros e s. unfold scopedEntry.
    case_match; [done|]. by apply packageDir_ext.
  - by apply packageDir_ext.
Qed.

Lemma walk_S fuel nodeModulesPath depth maxDepth st :
  walk (S fuel) fs nodeModulesPath targetPackage depth maxDepth st =
    if (maxDepth <? depth) || negb (existsSync fs nodeModulesPath) then ([], st)
    else
      match cycleCheck fs nodeModulesPath st with
      | None => ([], st)
      | Some st1 =>
          match readdirSync fs nodeModulesPath with
          | None => ([], st1)
          | Some entries =>
              for_of (rootEntry
                        (fun p s => walk fuel fs p targetPackage (depth + 1) maxDepth s)
                        fs nodeModulesPath targetPackage depth)
                     entries
                     {| visitedPaths := visitedPaths st1;
                        enumerated := enumerated st1 ++ [nodeModulesPath] |}
          end
      end.
Proof. reflexivity. Qed.

(** More fuel than the depth bound leaves room for changes nothing. *)
Lemma walk_fuel fuel nodeModulesPath depth maxDepth st :
  S maxDepth - depth ≤ fuel →
  walk fuel fs nodeModulesPath targetPackage depth maxDepth st
  = walk (S maxDepth - depth) fs nodeModulesPath targetPackage depth maxDepth st.
Proof.
  revert nodeModulesPath depth st.
  induction fuel as [|fuel IH]; intros root depth st Hfuel.
  { by replace (S maxDepth - depth) with 0 by lia. }
  destruct (decide (maxDepth < depth)) as [Hdeep|Hdepth].
  - replace (S maxDepth - depth) with 0 by lia. rewrite walk_S.
    by rewrite (proj2 (Nat.ltb_lt _ _) Hdeep).
  - replace (S maxDepth - depth) with (S (maxDepth - depth)) by lia.
    rewrite !walk_S. repeat case_match; try done.
    apply for_of_ext. intros e s. apply rootEntry_ext. intros p s'.
    rewrite IH by lia. f_equal. lia.
Qed.

(** The recursion of [findPackageRecursively] as the source writes
    it. *)
Lemma findPackageRecursively_unfold nodeModulesPath depth maxDepth st :
  findPackageRecursively fs nodeModulesPath targetPackage depth maxDepth st =
    if (maxDepth <? depth) || negb (existsSync fs nodeModulesPath) then ([], st)
    else
      match cycleCheck fs nodeModulesPath st with
      | None => ([], st)
      | Some st1 =>
          match readdirSync fs nodeModulesPath with
          | None => ([], st1)
          | Some entries =>
              for_of (rootEntry
                        (fun p s =>
                           findPackageRecursively fs p targetPackage (depth + 1) maxDepth s)
                        fs nodeModulesPath targetPackage depth)
                     entries
                     {| visitedPaths := visitedPaths st1;
                        enumerated := enumerated st1 ++ [nodeModulesPath] |}
          end
      end.
Proof.
  unfold findPackageRecursively.
  destruct (decide (maxDepth < depth)) as [Hdeep|Hdepth].
  - replace (S maxDepth - depth) with 0 by lia.
    by rewrite (proj2 (Nat.ltb_lt _ _) Hdeep).
  - replace (S maxDepth - depth) with (S (maxDepth - depth)) by lia.
    rewrite walk_S. repeat case_match; try done.
    apply for_of_ext. intros e s. apply rootEntry_ext. intros p s'.
    f_equal. lia.
Qed.
End Unfolding.

(** ** Where a result of the walker comes from *)

Section Origin.
Context (fs : FileSystem) (targetPackage : string).
Implicit Types (recurse : path → WalkState → list Instance.t * WalkState).

Lemma elem_of_packageDir recurse packagePath fullPackageName depth st i :
  i ∈ (packageDir recurse fs packagePath
         (String.eqb fullPackageName targetPackage) depth st).1 →
  from_package fs targetPackage recurse packagePath fullPackageName depth i.
Proof.
  unfold packageDir, from_package.
  destruct (String.eqb_spec fullPackageName targetPackage) as [Heq|Hne];
    destruct (existsSync fs (path_join packagePath "node_modules")) eqn:Hex.
  - destruct (recurse _ st) as [nested st'] eqn:Hrec. cbn.
    intros [->|Hi]%elem_of_cons; [by left|].
    right. split; [done|]. exists st. by rewrite Hrec.
  - cbn. intros ->%list_elem_of_singleton. by left.
  - destruct (recurse _ st) as [nested st'] eqn:Hrec. cbn. intros Hi.
    right. split; [done|]. exists st. by rewrite Hrec.
  - cbn. by intros ?%elem_of_nil.
Qed.

Lemma elem_of_findInPnpmDirectory pnpmPath depth i :
  i ∈ findInPnpmDirectory fs pnpmPath targetPackage depth ↔
  ∃ entries entry,
    readdirSync fs pnpmPath = Some entries ∧ entry ∈ entries
    ∧ skipped entry = false
    ∧ Str.startsWith (Dirent.name entry)
        (Str.replace_first_slash targetPackage +:+ "@") = true
    ∧ existsSync fs (path_join (path_join (path_join pnpmPath (Dirent.name entry))
                                          "node_modules") targetPackage) = true
    ∧ i = hit fs (path_join (path_join (path_join pnpmPath (Dirent.name entry))
                                    "node_modules") targetPackage) depth.
Proof.
  unfold findInPnpmDirectory. destruct (readdirSync fs pnpmPath) as [entries|].
  - rewrite list_elem_of_bind. split.
    + intros (entry & Hi & Hentry). exists entries, entry.
      unfold pnpmEntry in Hi. repeat case_match; try by apply elem_of_nil in Hi.
      apply list_elem_of_singleton in Hi. by repeat split.
    + intros (? & entry & [= <-] & Hentry & Hskip & Hpat & Hex & ->).
      exists entry. split; [|done]. unfold pnpmEntry.
      rewrite Hskip, Hpat, Hex. by apply list_elem_of_singleton.
  - split; [by intros ?%elem_of_nil|]. by intros (? & ? & [=] & _).
Qed.

(** The three kinds of entry of a walk root and what each pushes. *)
Lemma elem_of_rootEntry recurse nodeModulesPath depth entry st i :
  i ∈ (rootEntry recurse fs nodeModulesPath targetPackage depth entry st).1 →
  skipped entry = false
  ∧ ((Dirent.name entry = ".pnpm"
      ∧ i ∈ findInPnpmDirectory fs (path_join nodeModulesPath ".pnpm")
              targetPackage (depth + 1))
     ∨ (Dirent.name entry ≠ ".pnpm"
        ∧ Str.startsWith (Dirent.name entry) "@" = true
        ∧ ∃ scopedEntries child,
            readdirSync fs (path_join nodeModulesPath (Dirent.name entry))
              = Some scopedEntries
            ∧ child ∈ scopedEntries ∧ skipped child = false
            ∧ from_package fs targetPackage recurse
                (path_join (path_join nodeModulesPath (Dirent.name entry))
                           (Dirent.name child))
                (Dirent.name entry +:+ "/" +:+ Dirent.name child) depth i)
     ∨ (Dirent.name entry ≠ ".pnpm"
        ∧ Str.startsWith (Dirent.name entry) "@" = false
        ∧ from_package fs targetPackage recurse (path_join nodeModulesPath (Dirent.name entry))
            (Dirent.name entry) depth i)).
Proof.
  unfold rootEntry. destruct (skipped entry); [by intros ?%elem_of_nil|].
  intros Hi. split; [done|].
  destruct (String.eqb_spec (Dirent.name entry) ".pnpm") as [Hpnpm|Hpnpm].
  { left. by rewrite <- Hpnpm. }
  right. destruct (Str.startsWith (Dirent.name entry) "@") eqn:Hscope.
  - left. split; [done|]. split; [done|].
    destruct (readdirSync fs _) as [scopedEntries|]; [|by apply elem_of_nil in Hi].
    apply elem_of_for_of in Hi as (child & s & Hchild & Hi).
    exists scopedEntries, child. split; [done|]. split; [done|].
    unfold scopedEntry in Hi. destruct (skipped child); [by apply elem_of_nil in Hi|].
    split; [done|]. by eapply elem_of_packageDir.
  - right. split; [done|]. split; [done|]. by eapply elem_of_packageDir.
Qed.
End Origin.

(** ** Depth bound *)

Section Depth.
Context (fs : FileSystem) (targetPackage : string) (maxDepth : nat).

Lemma findInPnpmDirectory_depth pnpmPath depth i :
  i ∈ findInPnpmDirectory fs pnpmPath targetPackage depth → Instance.depth i = depth.
Proof.
  rewrite elem_of_findInPnpmDirectory. by intros (? & ? & _ & _ & _ & _ & _ & ->).
Qed.

Lemma walk_depth fuel nodeModulesPath depth st :
  Forall (depth_ok fs targetPackage maxDepth depth)
         (walk fuel fs nodeModulesPath targetPackage depth maxDepth st).1.
Proof.
  revert nodeModulesPath depth st.
  induction fuel as [|fuel IH]; intros root depth st; [by constructor|].
  rewrite walk_S.
  destruct (Nat.ltb_spec maxDepth depth) as [Hdeep|Hdepth]; [by constructor|].
  cbn [orb]. destruct (negb _); [by constructor|].
  destruct (cycleCheck fs root st) as [st1|]; [|by constructor].
  destruct (readdirSync fs root) as [entries|]; [|by constructor].
  apply for_of_Forall. intros entry s _. apply Forall_forall. intros i Hi.
  assert (∀ packagePath fullName,
            from_package fs targetPackage
              (λ p s, walk fuel fs p targetPackage (depth + 1) maxDepth s)
              packagePath fullName depth i → depth_ok fs targetPackage maxDepth depth i) as Hpkg.
  { intros packagePath fullName [[_ ->]|[_ [s' Hnested]]].
    - split; [done|]. by left.
    - pose proof (IH (path_join packagePath "node_modules") (depth + 1) s') as Hall.
      rewrite Forall_forall in Hall. destruct (Hall _ Hnested) as [Hlo Hhi].
      split; [lia|done]. }
  apply elem_of_rootEntry in Hi as [_ [[_ Hi]|[(_ & _ & Hi)|(_ & _ & Hi)]]].
  - pose proof (findInPnpmDirectory_depth _ _ _ Hi) as Hd.
    split; [lia|]. destruct (decide (depth = maxDepth)) as [->|].
    + right. split; [lia|]. eexists. by replace (S maxDepth) with (maxDepth + 1) by lia.
    + left. lia.
  - destruct Hi as (? & ? & _ & _ & _ & Hi). by eapply Hpkg.
  - by eapply Hpkg.
Qed.
End Depth.

(** ** Cycle check *)

Section Cycle.
Context (fs : FileSystem) (targetPackage : string).
Implicit Types (recurse : path → WalkState → list Instance.t * WalkState).

Lemma grows_refl st : grows fs st st.
Proof.
  split; [done|]. exists []. rewrite app_nil_r. split; [done|].
  split; [constructor|]. by intros real ?%elem_of_nil.
Qed.

Lemma grows_trans st1 st2 st3 : grows fs st1 st2 → grows fs st2 st3 → grows fs st1 st3.
Proof.
  intros [Hsub1 (new1 & Hlog1 & Hnd1 & Hnew1)] [Hsub2 (new2 & Hlog2 & Hnd2 & Hnew2)].
  split; [by etrans|]. exists (new1 ++ new2).
  split; [by rewrite Hlog2, Hlog1, app_assoc|].
  unfold resolved in *. rewrite omap_app. split.
  - apply NoDup_app. split; [done|]. split; [|done].
    intros real Hin1 Hin2. destruct (Hnew1 _ Hin1) as [_ Hafter].
    destruct (Hnew2 _ Hin2) as [Hbefore _]. done.
  - intros real [Hin|Hin]%elem_of_app.
    + destruct (Hnew1 _ Hin) as [Hbefore Hafter]. split; [done|]. by apply Hsub2.
    + destruct (Hnew2 _ Hin) as [Hbefore Hafter]. split; [|done].
      intros Hold. apply Hbefore. by apply Hsub1.
Qed.

Lemma packageDir_grows recurse packagePath isTarget depth st :
  (∀ p s, grows fs s (recurse p s).2) →
  grows fs st (packageDir recurse fs packagePath isTarget depth st).2.
Proof.
  intros Hrec. unfold packageDir. destruct (existsSync fs _); [|apply grows_refl].
  specialize (Hrec (path_join packagePath "node_modules") st).
  by destruct (recurse _ st).
Qed.

Lemma rootEntry_grows recurse nodeModulesPath depth entry st :
  (∀ p s, grows fs s (recurse p s).2) →
  grows fs st (rootEntry recurse fs nodeModulesPath targetPackage depth entry st).2.
Proof.
  intros Hrec. unfold rootEntry. repeat case_match; try apply grows_refl.
  - apply for_of_rel; [apply grows_refl|apply grows_trans|].
    intros child s _. unfold scopedEntry. case_match; [apply grows_refl|].
    by apply packageDir_grows.
  - by apply packageDir_grows.
Qed.

Lemma cycleCheck_grows nodeModulesPath st st1 :
  cycleCheck fs nodeModulesPath st = Some st1 →
  grows fs st {| visitedPaths := visitedPaths st1;
              enumerated := enumerated st1 ++ [nodeModulesPath] |}.
Proof.
  unfold cycleCheck, grows, resolved.
  destruct (realpathSync fs nodeModulesPath) as [real|] eqn:Hreal.
  - case_bool_decide as Hin; [done|]. intros [= <-]. cbn.
    split; [set_solver|]. exists [nodeModulesPath]. split; [done|].
    cbn. rewrite Hreal. cbn. split; [apply NoDup_singleton|].
    intros ? ->%list_elem_of_singleton. set_solver.
  - intros [= <-]. split; [done|]. exists [nodeModulesPath]. split; [done|].
    cbn. rewrite Hreal. cbn. split; [constructor|]. by intros ? ?%elem_of_nil.
Qed.

Lemma cycleCheck_grows_unread nodeModulesPath st st1 :
  cycleCheck fs nodeModulesPath st = Some st1 →
  grows fs st st1.
Proof.
  unfold cycleCheck.
  destruct (realpathSync fs nodeModulesPath) as [real|] eqn:Hreal.
  - case_bool_decide as Hin; [done|]. intros [= <-].
    split; [cbn; set_solver|]. exists []. cbn. rewrite app_nil_r.
    split; [done|]. split; [constructor|]. by intros ? ?%elem_of_nil.
  - intros [= <-]. apply grows_refl.
Qed.

Lemma walk_grows fuel nodeModulesPath depth maxDepth st :
  grows fs st (walk fuel fs nodeModulesPath targetPackage depth maxDepth st).2.
Proof.
  revert nodeModulesPath depth st.
  induction fuel as [|fuel IH]; intros root depth st; [apply grows_refl|].
  rewrite walk_S. destruct (_ || _); [apply grows_refl|].
  destruct (cycleCheck fs root st) as [st1|] eqn:Hcheck; [|apply grows_refl].
  destruct (readdirSync fs root) as [entries|].
  - eapply grows_trans; [by apply cycleCheck_grows|].
    apply for_of_rel; [apply grows_refl|apply grows_trans|].
    intros entry s _. apply rootEntry_grows. intros p s'. apply IH.
  - by eapply cycleCheck_grows_unread.
Qed.

(** A call whose root resolves to a path of the set returns at once. *)
Lemma findPackageRecursively_visited nodeModulesPath depth maxDepth st real :
  realpathSync fs nodeModulesPath = Some real →
  real ∈ visitedPaths st →
  findPackageRecursively fs nodeModulesPath targetPackage depth maxDepth st = ([], st).
Proof.
  intros Hreal Hin. rewrite findPackageRecursively_unfold.
  destruct (_ || _); [done|]. unfold cycleCheck. rewrite Hreal.
  by rewrite bool_decide_eq_true_2.
Qed.
End Cycle.

(** ** Paths: lemmas *)

Lemma split_slash_no_slash (n : string) :
  Str.no_slash n = true → Str.split_slash n = [n].
Proof.
  induction n as [|c r IH]; [done|]. cbn.
  destruct (Ascii.eqb c "/"%char); [done|]. cbn. intros Hr. by rewrite IH.
Qed.

Lemma is_name_spec (n : string) :
  Str.is_name n = true ↔
  Str.no_slash n = true ∧ n ≠ "" ∧ n ≠ "." ∧ n ≠ "..".
Proof.
  unfold Str.is_name. rewrite !andb_true_iff, !negb_true_iff, !String.eqb_neq.
  tauto.
Qed.

Lemma path_join_name (p : path) (n : string) :
  Str.is_name n = true → path_join p n = p ++ [n].
Proof.
  intros (Hn & H1 & H2 & H3)%is_name_spec.
  unfold path_join. rewrite split_slash_no_slash by done. cbn. unfold push_segment.
  by rewrite (proj2 (String.eqb_neq _ _) H1), (proj2 (String.eqb_neq _ _) H2),
    (proj2 (String.eqb_neq _ _) H3).
Qed.

Lemma foldl_push_segment (p : path) (segs : list string) :
  ".." ∉ segs →
  foldl push_segment p segs = p ++ filter (λ seg, seg ≠ "" ∧ seg ≠ ".") segs.
Proof.
  revert p. induction segs as [|seg segs IH]; intros p Hup.
  { by rewrite app_nil_r. }
  apply not_elem_of_cons in Hup as [Hseg Hup]. cbn [foldl]. rewrite IH by done.
  unfold push_segment.
  destruct (String.eqb_spec seg "") as [->|H1]; cbn [orb].
  { rewrite filter_cons_False; [done|]. by intros [? _]. }
  destruct (String.eqb_spec seg ".") as [->|H2].
  { rewrite filter_cons_False; [done|]. by intros [_ ?]. }
  rewrite (proj2 (String.eqb_neq _ _)) by done.
  rewrite filter_cons_True by done. by rewrite <- app_assoc.
Qed.

Lemma path_join_segments (p : path) (t : string) :
  ".." ∉ Str.split_slash t → path_join p t = p ++ segments t.
Proof. apply foldl_push_segment. Qed.

(** ** Each walk returns each path once *)

Lemma below_inj dir n1 n2 p : below dir n1 p → below dir n2 p → n1 = n2.
Proof. intros [r1 ->] [r2 H]. apply app_inv_head in H. by injection H. Qed.

Lemma below_app dir n m p : below (dir ++ [n]) m p → below dir n p.
Proof. intros [rest ->]. exists (m :: rest). by rewrite <- app_assoc. Qed.

Section Tagged.
Context {E : Type} (key : E → string) (dir : path).

(** Results pushed for entries of distinct names, each below its
    entry, have distinct paths. *)
Lemma for_of_NoDup_paths (body : E → WalkState → list Instance.t * WalkState) es st :
  NoDup (key <$> es) →
  (∀ e s, e ∈ es →
          NoDup (Instance.path <$> (body e s).1)
          ∧ Forall (λ i, below dir (key e) (Instance.path i)) (body e s).1) →
  NoDup (Instance.path <$> (for_of body es st).1).
Proof.
  revert st. induction es as [|e es IH]; intros st Hkeys Hbody; [constructor|].
  rewrite fmap_cons in Hkeys. apply NoDup_cons in Hkeys as [Hfresh Hkeys].
  rewrite for_of_cons. cbn [fst]. rewrite fmap_app. apply NoDup_app.
  destruct (Hbody e st) as [Hnd Hbelow]; [left|]. split; [done|]. split.
  - intros p (i & -> & Hi)%list_elem_of_fmap (i' & Hp & Hi')%list_elem_of_fmap.
    apply elem_of_for_of in Hi' as (e' & s' & He' & Hi').
    rewrite Forall_forall in Hbelow. specialize (Hbelow _ Hi).
    destruct (Hbody e' s') as [_ Hbelow']; [by right|].
    rewrite Forall_forall in Hbelow'. specialize (Hbelow' _ Hi').
    rewrite <- Hp in Hbelow'. apply Hfresh.
    rewrite (below_inj _ _ _ _ Hbelow Hbelow'). apply list_elem_of_fmap. eauto.
  - apply IH; [done|]. intros e' s' He'. apply Hbody. by right.
Qed.
End Tagged.

Lemma for_of_pure {E R : Type} (f : E → list R) (es : list E) (st : WalkState) :
  for_of (λ e s, (f e, s)) es st = (es ≫= f, st).
Proof.
  induction es as [|e es IH]; [done|]. rewrite for_of_cons. cbn. by rewrite IH.
Qed.

Section Unique.
Context (fs : FileSystem) (targetPackage : string).
Context (Hwf : well_formed fs) (Htarget : ".." ∉ Str.split_slash targetPackage).
Implicit Types (recurse : path → WalkState → list Instance.t * WalkState).

Lemma packageDir_paths recurse packagePath isTarget depth st :
  (∀ p s, tidy p (recurse p s).1) →
  NoDup (Instance.path <$> (packageDir recurse fs packagePath isTarget depth st).1)
  ∧ Forall (λ i, Instance.path i = packagePath
                 ∨ below packagePath "node_modules" (Instance.path i))
      (packageDir recurse fs packagePath isTarget depth st).1.
Proof.
  intros Hrec. unfold packageDir. rewrite (path_join_name _ "node_modules") by done.
  assert (∀ s, NoDup (Instance.path <$> (recurse (packagePath ++ ["node_modules"]) s).1)
               ∧ Forall (λ i, below packagePath "node_modules" (Instance.path i))
                   (recurse (packagePath ++ ["node_modules"]) s).1) as Hnested.
  { intros s. destruct (Hrec (packagePath ++ ["node_modules"]) s) as [Hnd Hall].
    split; [done|]. eapply Forall_impl; [exact Hall|].
    intros i [n Hn]. by eapply below_app. }
  destruct (existsSync fs _).
  - specialize (Hnested st). destruct (recurse _ st) as [nested st'].
    cbn [fst] in *. destruct Hnested as [Hnd Hall]. destruct isTarget; cbn.
    + split.
      * apply NoDup_cons. split; [|done].
        intros (i & Hp & Hi)%list_elem_of_fmap. rewrite Forall_forall in Hall.
        destruct (Hall _ Hi) as [rest Hrest]. rewrite <- Hp in Hrest.
        apply (f_equal length) in Hrest. rewrite length_app in Hrest. cbn in Hrest. lia.
      * constructor; [by left|]. eapply Forall_impl; [exact Hall|]. naive_solver.
    + split; [done|]. eapply Forall_impl; [exact Hall|]. naive_solver.
  - destruct isTarget; cbn.
    + split; [apply NoDup_singleton|]. constructor; [by left|constructor].
    + split; constructor.
Qed.

Lemma packageDir_below recurse dir n isTarget depth st :
  (∀ p s, tidy p (recurse p s).1) →
  NoDup (Instance.path <$> (packageDir recurse fs (dir ++ [n]) isTarget depth st).1)
  ∧ Forall (λ i, below dir n (Instance.path i))
      (packageDir recurse fs (dir ++ [n]) isTarget depth st).1.
Proof.
  intros Hrec.
  destruct (packageDir_paths recurse (dir ++ [n]) isTarget depth st Hrec) as [Hnd Hall].
  split; [done|]. eapply Forall_impl; [exact Hall|].
  intros i [->|Hbelow]; [by exists []|by eapply below_app].
Qed.

Lemma findInPnpmDirectory_paths pnpmPath depth :
  tidy pnpmPath (findInPnpmDirectory fs pnpmPath targetPackage depth).
Proof.
  unfold findInPnpmDirectory.
  destruct (readdirSync fs pnpmPath) as [entries|] eqn:Hdir; [|by split; constructor].
  destruct (Hwf _ _ Hdir) as [Hnames Hclean]. rewrite Forall_forall in Hclean.
  assert (∀ entry, entry ∈ entries →
            NoDup (Instance.path <$> pnpmEntry fs pnpmPath targetPackage depth entry)
            ∧ Forall (λ i, below pnpmPath (Dirent.name entry) (Instance.path i))
                (pnpmEntry fs pnpmPath targetPackage depth entry)) as Hentry.
  { intros entry Hin. unfold pnpmEntry.
    rewrite (path_join_name pnpmPath) by by apply Hclean.
    rewrite (path_join_name _ "node_modules") by done.
    rewrite path_join_segments by done.
    repeat case_match; try (by split; constructor).
    split; [apply NoDup_singleton|]. constructor; [|constructor]. cbn.
    exists ("node_modules" :: segments targetPackage). by rewrite <- !app_assoc. }
  split.
  - pose proof (for_of_NoDup_paths Dirent.name pnpmPath
                  (λ e s, (pnpmEntry fs pnpmPath targetPackage depth e, s))
                  entries fresh Hnames) as Hnd.
    rewrite for_of_pure in Hnd. apply Hnd. intros e s He. by apply Hentry.
  - apply Forall_forall. intros i (entry & Hi & Hin)%list_elem_of_bind.
    destruct (Hentry _ Hin) as [_ Hall]. rewrite Forall_forall in Hall. eauto.
Qed.

Lemma rootEntry_paths recurse nodeModulesPath depth entry st :
  (∀ p s, tidy p (recurse p s).1) →
  Str.is_name (Dirent.name entry) = true →
  NoDup (Instance.path <$>
           (rootEntry recurse fs nodeModulesPath targetPackage depth entry st).1)
  ∧ Forall (λ i, below nodeModulesPath (Dirent.name entry) (Instance.path i))
      (rootEntry recurse fs nodeModulesPath targetPackage depth entry st).1.
Proof.
  intros Hrec Hname. unfold rootEntry. rewrite path_join_name by done.
  destruct (skipped entry); [by split; constructor|].
  destruct (String.eqb_spec (Dirent.name entry) ".pnpm") as [Hpnpm|_].
  { destruct (findInPnpmDirectory_paths (nodeModulesPath ++ [Dirent.name entry])
                (depth + 1)) as [Hnd Hall].
    split; [done|]. eapply Forall_impl; [exact Hall|].
    intros i [n Hn]. by eapply below_app. }
  destruct (Str.startsWith (Dirent.name entry) "@"); [|by apply packageDir_below].
  destruct (readdirSync fs _) as [children|] eqn:Hdir; [|by split; constructor].
  destruct (Hwf _ _ Hdir) as [Hnames Hclean]. rewrite Forall_forall in Hclean.
  assert (∀ child s, child ∈ children →
            NoDup (Instance.path <$>
                     (scopedEntry recurse fs (nodeModulesPath ++ [Dirent.name entry])
                        (Dirent.name entry) targetPackage depth child s).1)
            ∧ Forall (λ i, below (nodeModulesPath ++ [Dirent.name entry])
                             (Dirent.name child) (Instance.path i))
                (scopedEntry recurse fs (nodeModulesPath ++ [Dirent.name entry])
                   (Dirent.name entry) targetPackage depth child s).1) as Hchild.
  { intros child s Hin. unfold scopedEntry.
    destruct (skipped child); [by split; constructor|].
    rewrite path_join_name by by apply Hclean. by apply packageDir_below. }
  split.
  - by eapply for_of_NoDup_paths.
  - apply for_of_Forall. intros child s Hin.
    destruct (Hchild child s Hin) as [_ Hall].
    eapply Forall_impl; [exact Hall|]. intros i Hi. exact (below_app _ _ _ _ Hi).
Qed.

Lemma walk_paths fuel nodeModulesPath depth maxDepth st :
  tidy nodeModulesPath (walk fuel fs nodeModulesPath targetPackage depth maxDepth st).1.
Proof.
  revert nodeModulesPath depth st.
  induction fuel as [|fuel IH]; intros root depth st; [by split; constructor|].
  rewrite walk_S. destruct (_ || _); [by split; constructor|].
  destruct (cycleCheck fs root st) as [st1|]; [|by split; constructor].
  destruct (readdirSync fs root) as [entries|] eqn:Hdir; [|by split; constructor].
  destruct (Hwf _ _ Hdir) as [Hnames Hclean]. rewrite Forall_forall in Hclean.
  split.
  - eapply for_of_NoDup_paths; [exact Hnames|]. intros entry s Hin.
    apply rootEntry_paths; [|by apply Hclean]. intros p s'. apply IH.
  - apply for_of_Forall. intros entry s Hin.
    destruct (rootEntry_paths
                (λ p s, walk fuel fs p targetPackage (depth + 1) maxDepth s)
                root depth entry s) as [_ Hall]; [intros; apply IH|by apply Hclean|].
    eapply Forall_impl; [exact Hall|]. intros i Hi. by exists (Dirent.name entry).
Qed.

Lemma findInstances_NoDup nodeModulesPath :
  NoDup (Instance.path <$> findInstances fs nodeModulesPath targetPackage).
Proof. apply walk_paths. Qed.
End Unique.

(** ** The findings of a run *)

Lemma Map_keys_set (m : JsMap) (k : string) (v : list string) :
  Map_keys (Map_set m k v)
  = if bool_decide (k ∈ Map_keys m) then Map_keys m else Map_keys m ++ [k].
Proof.
  unfold Map_keys. induction m as [|[k' v'] m IH]; [done|]. cbn.
  destruct (String.eqb_spec k' k) as [->|Hne]; cbn.
  - rewrite bool_decide_eq_true_2; [done|left].
  - rewrite IH. destruct (decide (k ∈ m.*1)).
    + rewrite !bool_decide_eq_true_2; [done|by right|done].
    + rewrite !bool_decide_eq_false_2; [done| |done].
      intros [?|?]%elem_of_cons; congruence.
Qed.

Lemma Map_set_NoDup (m : JsMap) (k : string) (v : list string) :
  NoDup (Map_keys m) → NoDup (Map_keys (Map_set m k v)).
Proof.
  intros Hnd. rewrite Map_keys_set. case_bool_decide; [done|].
  apply NoDup_app. split; [done|]. split; [|apply NoDup_singleton].
  intros x Hx Hk%list_elem_of_singleton. by subst.
Qed.

(** The keys of the blacklist index are distinct, and each is the name
    of an entry of the file. *)
Lemma COMPROMISED_PACKAGES_MAP_keys (packages : list PackageEntry.t) :
  NoDup (Map_keys (COMPROMISED_PACKAGES_MAP packages))
  ∧ ∀ k, k ∈ Map_keys (COMPROMISED_PACKAGES_MAP packages) →
         ∃ pkg, pkg ∈ packages ∧ PackageEntry.name pkg = k.
Proof.
  unfold COMPROMISED_PACKAGES_MAP.
  assert (∀ acc : JsMap,
            NoDup (Map_keys acc) →
            NoDup (Map_keys (foldl (λ m pkg,
                     Map_set m (PackageEntry.name pkg)
                       (Str.strip_leading_v <$> PackageEntry.versions pkg)) acc packages))
            ∧ ∀ k, k ∈ Map_keys (foldl (λ m pkg,
                     Map_set m (PackageEntry.name pkg)
                       (Str.strip_leading_v <$> PackageEntry.versions pkg)) acc packages) →
                   k ∈ Map_keys acc ∨ ∃ pkg, pkg ∈ packages ∧ PackageEntry.name pkg = k)
    as Hgen.
  { induction packages as [|pkg packages IH]; intros acc Hacc; cbn [foldl].
    { split; [done|]. by left. }
    destruct (IH (Map_set acc (PackageEntry.name pkg)
                    (Str.strip_leading_v <$> PackageEntry.versions pkg)))
      as [Hnd Hin]; [by apply Map_set_NoDup|].
    split; [done|]. intros k Hk. destruct (Hin k Hk) as [Hk'|(pkg' & ? & ?)].
    - rewrite Map_keys_set in Hk'. case_bool_decide; [by left|].
      apply elem_of_app in Hk' as [?|Hk']; [by left|].
      apply list_elem_of_singleton in Hk' as ->.
      right. exists pkg. split; [left|done].
    - right. exists pkg'. split; [by right|done]. }
  destruct (Hgen []) as [Hnd Hin]; [constructor|]. split; [done|].
  intros k Hk. destruct (Hin k Hk) as [?%elem_of_nil|?]; done.
Qed.

Section Findings.
Context (fs : FileSystem) (m : JsMap).

Lemma reportInstance_eq pkg i :
  reportInstance m pkg i
  = match isCompromised m pkg (Instance.version i) with
    | Some true => Some [finding m pkg i]
    | Some false => Some []
    | None => None
    end.
Proof. reflexivity. Qed.

Lemma mapM_reportInstance pkg instances chunks :
  mapM (reportInstance m pkg) instances = Some chunks →
  concat chunks = reported m pkg instances.
Proof.
  intros Hall%mapM_Some_1. unfold reported.
  induction Hall as [|i chunk instances chunks Hi _ IH]; [done|].
  cbn [concat]. rewrite IH. rewrite reportInstance_eq in Hi.
  destruct (isCompromised m pkg (Instance.version i)) as [[]|] eqn:Hflag; [| |done];
    injection Hi as <-.
  - by rewrite filter_cons_True.
  - rewrite filter_cons_False; [done|]. by rewrite Hflag.
Qed.

Lemma scanInstalled_Some nodeModules found :
  scanInstalled fs m nodeModules = Some found →
  found = Map_keys m ≫= λ pkg, reported m pkg (findInstances fs nodeModules pkg).
Proof.
  unfold scanInstalled. intros (chunks & Hall & ->)%fmap_Some.
  apply mapM_Some_1 in Hall.
  induction Hall as [|pkg chunk keys chunks Hpkg _ IH]; [done|].
  apply fmap_Some in Hpkg as (parts & Hparts & ->).
  cbn. by rewrite IH, (mapM_reportInstance _ _ _ Hparts).
Qed.

Lemma elem_of_reported pkg instances f :
  f ∈ reported m pkg instances →
  Finding.package f = pkg ∧ Finding.type f = installed
  ∧ isCompromised m pkg (Finding.version f) = Some true
  ∧ ∃ i, i ∈ instances ∧ f = finding m pkg i.
Proof.
  unfold reported. intros (i & -> & [Hi Hin]%list_elem_of_filter)%list_elem_of_fmap.
  repeat split; [done|]. eauto.
Qed.

Lemma reported_NoDup pkg instances :
  NoDup (Instance.path <$> instances) →
  NoDup ((λ f, (Finding.package f, Finding.path f)) <$> reported m pkg instances).
Proof.
  intros Hnd. unfold reported. apply (NoDup_fmap_1 snd).
  rewrite <- !list_fmap_compose. eapply sublist_NoDup; [exact Hnd|].
  apply (fmap_sublist Instance.path), sublist_filter.
Qed.

(** Findings of distinct names, each with distinct paths. *)
Lemma bind_reported_NoDup (instances : string → list Instance.t) keys :
  NoDup keys →
  (∀ pkg, pkg ∈ keys → NoDup (Instance.path <$> instances pkg)) →
  NoDup ((λ f, (Finding.package f, Finding.path f))
           <$> (keys ≫= λ pkg, reported m pkg (instances pkg))).
Proof.
  induction keys as [|pkg keys IH]; intros Hkeys Hpaths; [constructor|].
  apply NoDup_cons in Hkeys as [Hfresh Hkeys]. cbn. rewrite fmap_app.
  apply NoDup_app. split; [apply reported_NoDup, Hpaths; left|]. split.
  - intros [pkg' p] (f & [= -> ->] & Hf)%list_elem_of_fmap
      (f' & [= Hpkg _] & Hf')%list_elem_of_fmap.
    apply elem_of_reported in Hf as [Hf _].
    apply list_elem_of_bind in Hf' as (pkg'' & Hf' & Hin).
    apply elem_of_reported in Hf' as [Hf' _]. congruence.
  - apply IH; [done|]. intros pkg' Hin. apply Hpaths. by right.
Qed.

(** The installed findings of a report are what [scanInstalled]
    returned. *)
Lemma run_installedFindings targetDir depResults declared results :
  run fs m targetDir depResults declared = Some results →
  installedFindings results = []
  ∨ scanInstalled fs m (path_join targetDir "node_modules")
    = Some (installedFindings results).
Proof.
  unfold run, installedFindings. destruct (existsSync fs _).
  - destruct (scanInstalled fs m _) as [found|] eqn:Hscan; [|done]. cbn.
    intros [= <-]. cbn. right. f_equal. rewrite filter_app.
    rewrite (scanInstalled_Some _ _ Hscan).
    assert (∀ l : list Finding.t,
              Forall (λ f, Finding.type f = installed) l →
              filter (λ f, Finding.type f = installed) l = l) as Hall.
    { induction l as [|f l IH]; [done|]. intros [Hf Hl]%Forall_cons.
      rewrite filter_cons_True by done. by rewrite IH. }
    rewrite Hall.
    + assert (filter (λ f, Finding.type f = installed) (reportDependency m <$> depResults)
              = []) as ->; [|by rewrite app_nil_r].
      induction depResults as [|dep deps IH]; [done|].
      rewrite fmap_cons, filter_cons_False; done.
    + apply Forall_forall. intros f (pkg & Hf & _)%list_elem_of_bind.
      by apply elem_of_reported in Hf as (_ & ? & _).
  - cbn. intros [= <-]. by left.
Qed.
End Findings.

(** A version that is not a string reaches [version.replace] and the
    run ends without a report. *)
Lemma run_numeric_version :
  findInstances (Table.fs Ex.numeric) Ex.root "evil-pkg"
  = [ {| Instance.path := Ex.root ++ ["evil-pkg"];
         Instance.version := JNumber 1; Instance.depth := 0 |} ]
  ∧ run (Table.fs Ex.numeric) Ex.versioned ["p"] [] [] = None.
Proof. split; vm_compute; reflexivity. Qed.

(** ** Matcher: the claims *)

(** C1, counterexample: a name recorded with an empty version array is
    in the index, and [isCompromised] answers [false] for it. *)
Lemma isCompromised_empty_array_not_flagged :
  Map_get Ex.unversioned "evil-pkg" = Some []
  ∧ isCompromised Ex.unversioned "evil-pkg" (JString "1.0.0") = Some false.
Proof. split; reflexivity. Qed.

(** C1, as the code has it: for a name recorded with an empty version
    array, [isCompromised] returns [false] for every version string; an
    empty array flags no version. *)
Theorem isCompromised_empty_array (m : JsMap) (packageName version : string) :
  Map_get m packageName = Some [] →
  isCompromised m packageName (JString version) = Some false.
Proof.
  intros H. rewrite (isCompromised_present _ _ _ _ H).
  unfold includes. by rewrite bool_decide_eq_false_2 by apply not_elem_of_nil.
Qed.

(** The bare name of the example blacklist, with a version of the
    source list. *)
Lemma isCompromised_empty_array_witness :
  Map_get Ex.unversioned "evil-pkg" = Some []
  ∧ isCompromised Ex.unversioned "evil-pkg" (JString "v2.3.4") = Some false.
Proof.
  split; [reflexivity|].
  apply (isCompromised_empty_array Ex.unversioned "evil-pkg" "v2.3.4").
  reflexivity.
Defined.

(** C2: [isCompromised] returns [false] for a name that is not in the
    index; for a name in the index it returns a boolean, which is [true]
    exactly when the version, one leading [v] removed, is an element of
    the recorded array.  Elements are compared as strings: with only
    [1.0.0] recorded, [1.0.1] is not flagged. *)
Theorem isCompromised_exact_match (m : JsMap) (packageName version : string) :
  (Map_has m packageName = false →
     isCompromised m packageName (JString version) = Some false)
  ∧ (∀ compromisedVersions,
       Map_get m packageName = Some compromisedVersions →
       compromisedVersions ≠ [] →
       (∃ b, isCompromised m packageName (JString version) = Some b)
       ∧ (isCompromised m packageName (JString version) = Some true
          ↔ Str.strip_leading_v version ∈ compromisedVersions))
  ∧ isCompromised Ex.versioned "evil-pkg" (JString "1.0.0") = Some true
  ∧ isCompromised Ex.versioned "evil-pkg" (JString "v1.0.0") = Some true
  ∧ isCompromised Ex.versioned "evil-pkg" (JString "1.0.1") = Some false.
Proof.
  split; [|split; [|by repeat split]].
  - intros H. apply isCompromised_absent. by apply Map_has_false.
  - intros vs Hget _. rewrite (isCompromised_present _ _ _ _ Hget). split; [eauto|].
    rewrite <- includes_true. split; [by intros [= ->]|by intros ->].
Qed.

(** The two cases of C2 on the example blacklist. *)
Lemma isCompromised_exact_match_witness :
  Map_has Ex.versioned "left-pad" = false
  ∧ isCompromised Ex.versioned "left-pad" (JString "1.0.0") = Some false
  ∧ Map_get Ex.versioned "evil-pkg" = Some ["1.0.0"]
  ∧ (isCompromised Ex.versioned "evil-pkg" (JString "v1.0.0") = Some true
     ↔ Str.strip_leading_v "v1.0.0" ∈ ["1.0.0"]).
Proof.
  destruct (isCompromised_exact_match Ex.versioned "left-pad" "1.0.0") as [Habsent _].
  destruct (isCompromised_exact_match Ex.versioned "evil-pkg" "v1.0.0")
    as (_ & Hpresent & _).
  split; [reflexivity|]. split; [apply Habsent; reflexivity|].
  split; [reflexivity|]. apply (Hpresent ["1.0.0"]); [reflexivity|discriminate].
Defined.

(** C3, counterexample: normalization removes one [v], so a string that
    starts with two is changed again by a second pass. *)
Lemma strip_leading_v_not_idempotent :
  Str.strip_leading_v (Str.strip_leading_v "vv1.2.3") ≠ Str.strip_leading_v "vv1.2.3".
Proof. discriminate. Qed.

(** C3, as the code has it: a second normalization changes nothing
    exactly on the strings that do not start with [vv]; and [v1.2.3] and
    [1.2.3] normalize to the same string, [1.2.3]. *)
Theorem strip_leading_v_idempotent_iff (v : string) :
  (Str.strip_leading_v (Str.strip_leading_v v) = Str.strip_leading_v v
   ↔ Str.startsWith v "vv" = false)
  ∧ Str.strip_leading_v "v1.2.3" = Str.strip_leading_v "1.2.3"
  ∧ Str.strip_leading_v "1.2.3" = "1.2.3".
Proof. split; [apply strip_leading_v_fixed|by split]. Qed.

(** Both directions of C3 on strings of the source list. *)
Lemma strip_leading_v_idempotent_iff_witness :
  Str.startsWith "v1.2.3" "vv" = false
  ∧ Str.strip_leading_v (Str.strip_leading_v "v1.2.3") = Str.strip_leading_v "v1.2.3"
  ∧ Str.startsWith "vv1.2.3" "vv" ≠ false.
Proof.
  destruct (strip_leading_v_idempotent_iff "v1.2.3") as [Hiff _].
  destruct (strip_leading_v_idempotent_iff "vv1.2.3") as [Hiff' _].
  split; [reflexivity|]. split; [by apply Hiff|].
  intros Hfalse. apply Hiff' in Hfalse. discriminate.
Defined.

(** ** Risk level *)

(** C7: the level of a report is [critical] when [foundInNodeModules]
    (installed instances and dependency references) is not empty;
    otherwise [high] when [foundInPackageJson] is not empty; otherwise
    [medium] in the earlier scanner when [foundInPackageLock] is not
    empty; otherwise it stays at its initial value, which is [none]. *)
Theorem criticalLevel_precedence :
  (∀ (results : Results),
     let level := criticalLevel (summary (summarize results)) in
     (foundInNodeModules results ≠ [] → level = critical)
     ∧ (foundInNodeModules results = [] → foundInPackageJson results ≠ [] → level = high)
     ∧ (foundInNodeModules results = [] → foundInPackageJson results = [] →
        level = criticalLevel (summary results)))
  ∧ (∀ (results : Legacy.Results),
       let level := criticalLevel (Legacy.summary (Legacy.summarize results)) in
       (Legacy.foundInNodeModules results ≠ [] → level = critical)
       ∧ (Legacy.foundInNodeModules results = [] →
          Legacy.foundInPackageJson results ≠ [] → level = high)
       ∧ (Legacy.foundInNodeModules results = [] →
          Legacy.foundInPackageJson results = [] →
          Legacy.foundInPackageLock results ≠ [] → level = medium)
       ∧ (Legacy.foundInNodeModules results = [] →
          Legacy.foundInPackageJson results = [] →
          Legacy.foundInPackageLock results = [] →
          level = criticalLevel (Legacy.summary results)))
  ∧ (∀ fs m targetDir depResults declared results,
       run fs m targetDir depResults declared = Some results →
       criticalLevel (summary results) =
         if bool_decide (foundInNodeModules results ≠ []) then critical
         else if bool_decide (foundInPackageJson results ≠ []) then high
         else none)
  ∧ criticalLevel (Legacy.summary Legacy.initial) = none.
Proof.
  split; [|split; [|split; [|done]]].
  - intros [nm pj s]; cbn. destruct nm, pj; cbn; by repeat split.
  - intros [pl nm pj s]; cbn. destruct pl, nm, pj; cbn; by repeat split.
  - intros fs m targetDir depResults declared results Hrun.
    unfold run in Hrun. cbn in Hrun.
    destruct (if existsSync fs _ then _ else _) as [found|]; [|done].
    cbn in Hrun. injection Hrun as <-. cbn.
    destruct found, declared; done.
Qed.

(** The level of the report of a run that finds [evil-pkg] twice. *)
Lemma criticalLevel_precedence_witness :
  ∃ results,
    run (Table.fs Ex.twice) Ex.versioned ["p"] [] [] = Some results
    ∧ length (foundInNodeModules results) = 2
    ∧ criticalLevel (summary results) = critical.
Proof.
  eexists. split; [vm_compute; reflexivity|]. split; [reflexivity|].
  destruct criticalLevel_precedence as (_ & _ & Hrun & _).
  etrans; [apply (Hrun (Table.fs Ex.twice) Ex.versioned ["p"] [] []);
           vm_compute; reflexivity|].
  vm_compute. reflexivity.
Defined.

(** ** Depth bound: the claim *)

(** C5, counterexample: with the default bound 5, a content store in
    the install directory at depth 5 yields an instance whose depth is
    6. *)
Lemma findInstances_store_beyond_bound :
  findInstances (Table.fs (Ex.chain_store 5)) Ex.root "evil-pkg"
  = [ {| Instance.path :=
           Ex.level 5 ++ [".pnpm"; "evil-pkg@1.0.0"; "node_modules"; "evil-pkg"];
         Instance.version := JString "1.0.0";
         Instance.depth := 6 |} ].
Proof. vm_compute. reflexivity. Qed.

(** C5, as the code has it: a call of [findPackageRecursively] entered
    with [depth > maxDepth] returns the empty array and leaves the walk
    state alone; an instance pushed by a call entered at [depth] carries
    a depth of at least [depth] and at most [maxDepth], except that a
    hit in a content store carries the depth of its root plus one and so
    may carry [maxDepth + 1].  With the default bound 5, a package
    installed only in the install directory at depth 6 of a chain is not
    found, and one installed at depth 5 is. *)
Theorem findPackageRecursively_depth_bound :
  (∀ fs nodeModulesPath targetPackage depth maxDepth st,
     (maxDepth < depth →
      findPackageRecursively fs nodeModulesPath targetPackage depth maxDepth st = ([], st))
     ∧ Forall (depth_ok fs targetPackage maxDepth depth)
         (findPackageRecursively fs nodeModulesPath targetPackage depth maxDepth st).1)
  ∧ (∀ fs nodeModulesPath targetPackage,
       Forall (λ i, Instance.depth i ≤ 6) (findInstances fs nodeModulesPath targetPackage))
  ∧ findInstances (Table.fs (Ex.chain 6)) Ex.root "evil-pkg" = []
  ∧ Instance.depth <$> findInstances (Table.fs (Ex.chain 5)) Ex.root "evil-pkg" = [5].
Proof.
  split; [|split; [|split; vm_compute; reflexivity]].
  - intros fs root target depth maxDepth st. split.
    + intros Hdeep. rewrite findPackageRecursively_unfold.
      by rewrite (proj2 (Nat.ltb_lt _ _) Hdeep).
    + apply walk_depth.
  - intros fs root target. unfold findInstances, findPackageRecursively.
    eapply Forall_impl; [apply walk_depth|].
    intros i [_ [H|[H _]]]; lia.
Qed.

(** A call entered at depth 6 under the bound 5, on the root that holds
    the package. *)
Lemma findPackageRecursively_depth_bound_witness :
  5 < 6
  ∧ readdirSync (Table.fs (Ex.chain 6)) (Ex.level 6) = Some [Table.dir "evil-pkg"]
  ∧ findPackageRecursively (Table.fs (Ex.chain 6)) (Ex.level 6) "evil-pkg" 6 5 fresh
    = ([], fresh).
Proof.
  split; [lia|]. split; [vm_compute; reflexivity|].
  destruct findPackageRecursively_depth_bound as [Hbound _].
  apply (Hbound (Table.fs (Ex.chain 6)) (Ex.level 6) "evil-pkg" 6 5 fresh). lia.
Defined.

(** ** Cycle check: the claim *)

(** The traced walker and the walker agree. *)
Section Erasure.
Context (fs : FileSystem) (targetPackage : string).

Lemma erases_for_of {E : Type}
    (traced : E → WalkState → list Traced.event * WalkState)
    (plain : E → WalkState → list Instance.t * WalkState) (es : list E) (st : WalkState) :
  (∀ e s, e ∈ es → erases s (traced e s) (plain e s)) →
  erases st (for_of traced es st) (for_of plain es st).
Proof.
  revert st. induction es as [|e es IH]; intros st Hbody.
  { unfold erases. cbn. by rewrite app_nil_r. }
  rewrite !for_of_cons.
  destruct (Hbody e st) as (Hres & Hst & Hlog); [left|].
  destruct (IH (traced e st).2) as (Hres' & Hst' & Hlog').
  { intros e' s He'. apply Hbody. by right. }
  unfold erases, Traced.pushed, Traced.roots in *. cbn [fst snd].
  rewrite !omap_app. rewrite <- Hst. split; [by rewrite Hres, Hres'|].
  split; [done|]. by rewrite Hlog', Hlog, app_assoc.
Qed.

Lemma erases_packageDir recurseT recurse packagePath isTarget depth st :
  (∀ p s, erases s (recurseT p s) (recurse p s)) →
  erases st (Traced.packageDir recurseT fs packagePath isTarget depth st)
    (packageDir recurse fs packagePath isTarget depth st).
Proof.
  intros Hrec. unfold Traced.packageDir, packageDir.
  destruct (existsSync fs _).
  - destruct (Hrec (path_join packagePath "node_modules") st) as (Hres & Hst & Hlog).
    destruct (recurseT _ st) as [nestedT stT], (recurse _ st) as [nested st'].
    unfold erases, Traced.pushed, Traced.roots in *. cbn [fst snd] in *.
    rewrite !omap_app. destruct isTarget; cbn; by rewrite Hres.
  - unfold erases. destruct isTarget; cbn; by rewrite app_nil_r.
Qed.

Lemma erases_findInPnpmDirectory pnpmPath depth st :
  erases st (Traced.findInPnpmDirectory fs pnpmPath targetPackage depth, st)
    (findInPnpmDirectory fs pnpmPath targetPackage depth, st).
Proof.
  unfold erases, Traced.findInPnpmDirectory, findInPnpmDirectory.
  destruct (readdirSync fs pnpmPath) as [entries|]; cbn [fst snd];
    [|by rewrite app_nil_r].
  generalize (entries ≫= pnpmEntry fs pnpmPath targetPackage depth). intros found.
  assert (Traced.pushed (Traced.Pushed <$> found) = found
          ∧ Traced.roots (Traced.Pushed <$> found) = [])
    as [Hpushed Hroots].
  { induction found as [|i found [IH1 IH2]]; [done|]. split; [|exact IH2].
    change (i :: Traced.pushed (Traced.Pushed <$> found) = i :: found).
    by rewrite IH1. }
  split; [exact Hpushed|]. split; [done|].
  change (enumerated st = enumerated st ++ Traced.roots (Traced.Pushed <$> found)).
  by rewrite Hroots, app_nil_r.
Qed.

Lemma erases_rootEntry recurseT recurse nodeModulesPath depth entry st :
  (∀ p s, erases s (recurseT p s) (recurse p s)) →
  erases st (Traced.rootEntry recurseT fs nodeModulesPath targetPackage depth entry st)
    (rootEntry recurse fs nodeModulesPath targetPackage depth entry st).
Proof.
  intros Hrec. unfold Traced.rootEntry, rootEntry.
  destruct (skipped entry); [unfold erases; cbn; by rewrite app_nil_r|].
  destruct (String.eqb _ ".pnpm"); [apply erases_findInPnpmDirectory|].
  destruct (Str.startsWith _ "@"); [|by apply erases_packageDir].
  destruct (readdirSync fs _) as [scopedEntries|];
    [|unfold erases; cbn; by rewrite app_nil_r].
  match goal with
  | |- erases _ (let '(_, _) := for_of ?bodyT _ _ in _) (for_of ?body _ _) =>
      destruct (erases_for_of bodyT body scopedEntries st) as (Hres & Hst & Hlog)
  end.
  { intros child s _. unfold Traced.scopedEntry, scopedEntry.
    destruct (skipped child); [unfold erases; cbn; by rewrite app_nil_r|].
    by apply erases_packageDir. }
  destruct (for_of _ scopedEntries st) as [results st']. by repeat split.
Qed.

Lemma erases_walk fuel nodeModulesPath depth maxDepth st :
  erases st (Traced.walk fuel fs nodeModulesPath targetPackage depth maxDepth st)
    (walk fuel fs nodeModulesPath targetPackage depth maxDepth st).
Proof.
  revert nodeModulesPath depth st.
  induction fuel as [|fuel IH]; intros root depth st;
    [unfold erases; cbn; by rewrite app_nil_r|].
  cbn [Traced.walk walk].
  destruct (_ || _); [unfold erases; cbn; by rewrite app_nil_r|].
  assert (∀ st1, cycleCheck fs root st = Some st1 → enumerated st1 = enumerated st)
    as Hcheck.
  { unfold cycleCheck. intros st1. destruct (realpathSync fs root); [|by intros [= ->]].
    case_bool_decide; [done|]. by intros [= <-]. }
  destruct (cycleCheck fs root st) as [st1|];
    [|unfold erases; cbn; by rewrite app_nil_r].
  specialize (Hcheck st1 eq_refl).
  destruct (readdirSync fs root) as [entries|];
    [|unfold erases; cbn; by rewrite app_nil_r].
  match goal with
  | |- erases _ (let '(_, _) := for_of ?bodyT _ ?st2 in _) (for_of ?body _ _) =>
      destruct (erases_for_of bodyT body entries st2) as (Hres & Hst & Hlog)
  end.
  { intros entry s _. apply erases_rootEntry. intros p s'. apply IH. }
  destruct (for_of _ entries _) as [results st']. cbn [fst snd] in *.
  split; [done|]. split; [done|]. cbn [fst snd]. rewrite Hlog. cbn [enumerated].
  rewrite Hcheck. unfold Traced.roots. cbn. by rewrite <- app_assoc.
Qed.

(** The instances of the traced search are the result of the walker,
    and its walk roots are what the walker adds to [enumerated]. *)
Lemma erases_findPackageRecursively nodeModulesPath depth maxDepth st :
  erases st
    (Traced.findPackageRecursively fs nodeModulesPath targetPackage depth maxDepth st)
    (findPackageRecursively fs nodeModulesPath targetPackage depth maxDepth st).
Proof. apply erases_walk. Qed.
End Erasure.

(** C4, counterexample: the install directory of [a] holds a link to the
    content store of the project.  One search lists four directories,
    and the second and the fourth are the same real directory: the
    store is listed once under its own path and once through the link,
    and its package is returned twice.  The history variable holds the
    two walk roots only. *)
Lemma findPackageRecursively_store_listed_twice :
  let fs := Table.fs Linked.project in
  let search := Traced.findPackageRecursively fs Ex.root "evil-pkg" 0 5 fresh in
  Traced.listed search.1 = [Ex.root; Linked.store; Linked.nested; Linked.linked]
  ∧ realpathSync fs Linked.store = Some Linked.store
  ∧ realpathSync fs Linked.linked = Some Linked.store
  ∧ ¬ NoDup (resolved fs (Traced.listed search.1))
  ∧ Traced.pushed search.1 = findInstances fs Ex.root "evil-pkg"
  ∧ Instance.path <$> findInstances fs Ex.root "evil-pkg"
    = [Linked.package Linked.store; Linked.package Linked.linked]
  ∧ realpathSync fs (Linked.package Linked.linked)
    = realpathSync fs (Linked.package Linked.store)
  ∧ enumerated search.2 = [Ex.root; Linked.nested].
Proof.
  cbv zeta. split; [vm_compute; reflexivity|].
  split; [vm_compute; reflexivity|]. split; [vm_compute; reflexivity|].
  split; [|repeat split; vm_compute; reflexivity].
  assert (resolved (Table.fs Linked.project)
            (Traced.listed
               (Traced.findPackageRecursively (Table.fs Linked.project) Ex.root
                  "evil-pkg" 0 5 fresh).1)
          = [Ex.root; Linked.store; Linked.nested; Linked.store]) as ->
    by (vm_compute; reflexivity).
  intros [_ [Hfresh _]%NoDup_cons]%NoDup_cons. apply Hfresh. right. left.
Qed.

(** C4, as the code has it: a call of [findPackageRecursively] whose
    root resolves to a real path that is already in [visitedPaths]
    returns the empty array and changes nothing.  So the walk roots
    whose entries one call and its nested calls read, and whose real
    path resolves, have pairwise distinct real paths, none of them in
    the set the call was given.  The walk returns on every file system;
    on the ring where [A] depends on [B] and [B] on [A], where paths of
    any length exist, the search for [A] reads three roots and returns
    two instances.  The check covers the walk roots only, which are the
    [Root] entries of the trace of the search: the listing of a content
    store in [findInPnpmDirectory] consults no set. *)
Theorem findPackageRecursively_cycle_guard :
  (∀ fs nodeModulesPath targetPackage depth maxDepth st real,
     realpathSync fs nodeModulesPath = Some real →
     real ∈ visitedPaths st →
     findPackageRecursively fs nodeModulesPath targetPackage depth maxDepth st = ([], st))
  ∧ (∀ fs nodeModulesPath targetPackage depth maxDepth st,
       ∃ new,
         enumerated (findPackageRecursively fs nodeModulesPath targetPackage
                       depth maxDepth st).2 = enumerated st ++ new
         ∧ NoDup (resolved fs new)
         ∧ ∀ real, real ∈ resolved fs new → real ∉ visitedPaths st)
  ∧ (∀ fs nodeModulesPath targetPackage,
       NoDup (resolved fs
                (enumerated (findPackageRecursively fs nodeModulesPath targetPackage
                               0 5 fresh).2)))
  ∧ (findPackageRecursively Ex.ring Ex.root "A" 0 5 fresh).1
    = [ {| Instance.path := Ex.root ++ ["A"];
           Instance.version := JString "1.0.0"; Instance.depth := 0 |};
        {| Instance.path := Ex.root ++ ["A"; "node_modules"; "B"; "node_modules"; "A"];
           Instance.version := JString "1.0.0"; Instance.depth := 2 |} ]
  ∧ enumerated (findPackageRecursively Ex.ring Ex.root "A" 0 5 fresh).2
    = [ Ex.root; Ex.root ++ ["A"; "node_modules"];
        Ex.root ++ ["A"; "node_modules"; "B"; "node_modules"] ]
  ∧ (∀ fs nodeModulesPath targetPackage depth maxDepth st,
       let search :=
         Traced.findPackageRecursively fs nodeModulesPath targetPackage depth maxDepth st in
       Traced.pushed search.1
       = (findPackageRecursively fs nodeModulesPath targetPackage depth maxDepth st).1
       ∧ enumerated (findPackageRecursively fs nodeModulesPath targetPackage
                       depth maxDepth st).2
         = enumerated st ++ Traced.roots search.1).
Proof.
  split; [|split; [|split; [|split; [vm_compute; reflexivity|
                                     split; [vm_compute; reflexivity|]]]]].
  - intros. by eapply findPackageRecursively_visited.
  - intros fs root target depth maxDepth st.
    destruct (walk_grows fs target (S maxDepth - depth) root depth maxDepth st)
      as [_ (new & Hlog & Hnd & Hnew)].
    exists new. split; [done|]. split; [done|]. intros real Hin. by apply Hnew.
  - intros fs root target.
    destruct (walk_grows fs target (S 5 - 0) root 0 5 fresh)
      as [_ (new & Hlog & Hnd & Hnew)].
    unfold findPackageRecursively. by rewrite Hlog.
  - intros fs root target depth maxDepth st search.
    destruct (erases_findPackageRecursively fs target root depth maxDepth st)
      as (Hres & Hst & Hlog).
    split; [done|]. by rewrite <- Hst.
Qed.

(** On the ring, the install directory of [A] reached again through
    [B], when its real path is in the set. *)
Lemma findPackageRecursively_cycle_guard_witness :
  let again := Ex.root ++ ["A"; "node_modules"; "B"; "node_modules"; "A"; "node_modules"] in
  let st := {| visitedPaths := {[ Ex.root ++ ["A"; "node_modules"] ]};
               enumerated := [Ex.root ++ ["A"; "node_modules"]] |} in
  existsSync Ex.ring again = true
  ∧ realpathSync Ex.ring again = Some (Ex.root ++ ["A"; "node_modules"])
  ∧ findPackageRecursively Ex.ring again "A" 2 5 st = ([], st).
Proof.
  split; [vm_compute; reflexivity|]. split; [vm_compute; reflexivity|].
  destruct findPackageRecursively_cycle_guard as [Hguard _].
  apply (Hguard Ex.ring _ "A" 2 5 _ (Ex.root ++ ["A"; "node_modules"]));
    [vm_compute; reflexivity|]. cbn [visitedPaths]. apply elem_of_singleton. reflexivity.
Defined.

(** ** Content store: the claim *)

(** C6: for an entry named [.pnpm] that is a directory or a link, the
    walker pushes what [findInPnpmDirectory] returns for it, at depth
    plus one, and goes on with the walk state as it was: nothing of the
    store is walked.  The instances of [findInPnpmDirectory] are exactly
    the hits at [<store>/<entry>/node_modules/<target>] for the entries
    of the store that are directories or links, whose name starts with
    the target name, its first [/] replaced by [+], followed by [@], and
    under which that path exists.  [@scope/evil], present only as
    [.pnpm/@scope+evil@1.0.0/node_modules/@scope/evil], is found. *)
Theorem findInPnpmDirectory_direct_match :
  (∀ recurse fs nodeModulesPath targetPackage depth entry st,
     skipped entry = false →
     Dirent.name entry = ".pnpm" →
     rootEntry recurse fs nodeModulesPath targetPackage depth entry st
     = (findInPnpmDirectory fs (path_join nodeModulesPath ".pnpm") targetPackage (depth + 1),
        st))
  ∧ (∀ fs pnpmPath targetPackage depth i,
       i ∈ findInPnpmDirectory fs pnpmPath targetPackage depth ↔
       ∃ entries entry,
         readdirSync fs pnpmPath = Some entries ∧ entry ∈ entries
         ∧ skipped entry = false
         ∧ Str.startsWith (Dirent.name entry)
             (Str.replace_first_slash targetPackage +:+ "@") = true
         ∧ existsSync fs (path_join (path_join (path_join pnpmPath (Dirent.name entry))
                                               "node_modules") targetPackage) = true
         ∧ i = hit fs (path_join (path_join (path_join pnpmPath (Dirent.name entry))
                                            "node_modules") targetPackage) depth)
  ∧ Str.replace_first_slash "@scope/evil" +:+ "@" = "@scope+evil@"
  ∧ findInstances (Table.fs Ex.scoped_store) Ex.root "@scope/evil"
    = [ {| Instance.path :=
             Ex.root ++ [".pnpm"; "@scope+evil@1.0.0"; "node_modules"; "@scope"; "evil"];
           Instance.version := JString "1.0.0";
           Instance.depth := 1 |} ]
  ∧ enumerated (findPackageRecursively (Table.fs Ex.scoped_store) Ex.root "@scope/evil"
                  0 5 fresh).2 = [Ex.root].
Proof.
  split; [|split; [|split; [|split]]]; try (vm_compute; reflexivity).
  - intros recurse fs root target depth entry st Hskip Hname.
    unfold rootEntry. by rewrite Hskip, Hname.
  - intros. apply elem_of_findInPnpmDirectory.
Qed.

(** The store entry of the example, as the first call of the walker
    meets it. *)
Lemma findInPnpmDirectory_direct_match_witness :
  rootEntry
    (fun p s => findPackageRecursively (Table.fs Ex.scoped_store) p "@scope/evil" 1 5 s)
    (Table.fs Ex.scoped_store) Ex.root "@scope/evil" 0 (Table.dir ".pnpm") fresh
  = ([ hit (Table.fs Ex.scoped_store)
         (Ex.root ++ [".pnpm"; "@scope+evil@1.0.0"; "node_modules"; "@scope"; "evil"]) 1 ],
     fresh).
Proof.
  destruct findInPnpmDirectory_direct_match as [Hstore _].
  rewrite (Hstore _ (Table.fs Ex.scoped_store) Ex.root "@scope/evil" 0
             (Table.dir ".pnpm") fresh eq_refl eq_refl).
  vm_compute. reflexivity.
Defined.

(** ** Failures during the walk *)

Section Failures.
Context (fs : FileSystem) (targetPackage : string).

Lemma readVersion_unknown pkgJsonPath :
  existsSync fs pkgJsonPath = false
  ∨ readJsonSync fs pkgJsonPath = None
  ∨ readJsonSync fs pkgJsonPath = Some JNull →
  readVersion fs pkgJsonPath = JString "unknown".
Proof.
  unfold readVersion. intros [->|[->| ->]]; [done| |]; by destruct (existsSync _ _).
Qed.

(** The entries of a readable root that passed the checks at the head
    of the call are all processed: what one of them pushes is in the
    results. *)
Lemma rootEntry_results nodeModulesPath depth maxDepth st entries entry :
  depth ≤ maxDepth →
  existsSync fs nodeModulesPath = true →
  is_Some (cycleCheck fs nodeModulesPath st) →
  readdirSync fs nodeModulesPath = Some entries →
  entry ∈ entries →
  ∃ s, (rootEntry
          (fun p s => findPackageRecursively fs p targetPackage (depth + 1) maxDepth s)
          fs nodeModulesPath targetPackage depth entry s).1
       ⊆ (findPackageRecursively fs nodeModulesPath targetPackage depth maxDepth st).1.
Proof.
  intros Hdepth Hex [st1 Hcheck] Hdir Hentry.
  rewrite findPackageRecursively_unfold.
  rewrite (proj2 (Nat.ltb_ge _ _) Hdepth), Hex, Hcheck, Hdir. cbn [orb negb].
  by apply for_of_elem_of.
Qed.

Lemma packageDir_hit recurse packagePath depth st :
  hit fs packagePath depth ∈ (packageDir recurse fs packagePath true depth st).1.
Proof.
  unfold packageDir. destruct (existsSync fs _); [|by apply list_elem_of_singleton].
  destruct (recurse _ st). cbn. left.
Qed.
End Failures.

(** C8: no failure at a node ends the walk.  A manifest that is
    missing, cannot be read or parsed, or parses to [null], gives the
    version ["unknown"].  A root that cannot be read gives the empty
    array.  In a root that can be read, every entry is processed
    whatever happens at the others: a directory or link named as the
    target is pushed, with version ["unknown"] when its manifest is
    missing or cannot be parsed; so is a child of a scope directory that
    can be read; a scope directory that cannot be read is skipped.  In
    the example tree, two of four entries fail and both copies of the
    target are returned, with version ["unknown"]. *)
Theorem findPackageRecursively_failures_skipped :
  (∀ fs pkgJsonPath,
     existsSync fs pkgJsonPath = false
     ∨ readJsonSync fs pkgJsonPath = None
     ∨ readJsonSync fs pkgJsonPath = Some JNull →
     readVersion fs pkgJsonPath = JString "unknown")
  ∧ (∀ fs nodeModulesPath targetPackage depth maxDepth st,
       readdirSync fs nodeModulesPath = None →
       (findPackageRecursively fs nodeModulesPath targetPackage depth maxDepth st).1 = [])
  ∧ (∀ fs nodeModulesPath targetPackage depth maxDepth st entries entry,
       depth ≤ maxDepth →
       existsSync fs nodeModulesPath = true →
       is_Some (cycleCheck fs nodeModulesPath st) →
       readdirSync fs nodeModulesPath = Some entries →
       entry ∈ entries → skipped entry = false →
       Dirent.name entry = targetPackage →
       targetPackage ≠ ".pnpm" → Str.startsWith targetPackage "@" = false →
       let packagePath := path_join nodeModulesPath targetPackage in
       {| Instance.path := packagePath;
          Instance.version := readVersion fs (path_join packagePath "package.json");
          Instance.depth := depth |}
       ∈ (findPackageRecursively fs nodeModulesPath targetPackage depth maxDepth st).1)
  ∧ (∀ fs nodeModulesPath targetPackage depth maxDepth st entries entry children child,
       depth ≤ maxDepth →
       existsSync fs nodeModulesPath = true →
       is_Some (cycleCheck fs nodeModulesPath st) →
       readdirSync fs nodeModulesPath = Some entries →
       entry ∈ entries → skipped entry = false →
       Dirent.name entry ≠ ".pnpm" → Str.startsWith (Dirent.name entry) "@" = true →
       readdirSync fs (path_join nodeModulesPath (Dirent.name entry)) = Some children →
       child ∈ children → skipped child = false →
       Dirent.name entry +:+ "/" +:+ Dirent.name child = targetPackage →
       let packagePath :=
         path_join (path_join nodeModulesPath (Dirent.name entry)) (Dirent.name child) in
       {| Instance.path := packagePath;
          Instance.version := readVersion fs (path_join packagePath "package.json");
          Instance.depth := depth |}
       ∈ (findPackageRecursively fs nodeModulesPath targetPackage depth maxDepth st).1)
  ∧ (∀ recurse fs nodeModulesPath targetPackage depth entry st,
       skipped entry = false →
       Dirent.name entry ≠ ".pnpm" → Str.startsWith (Dirent.name entry) "@" = true →
       readdirSync fs (path_join nodeModulesPath (Dirent.name entry)) = None →
       rootEntry recurse fs nodeModulesPath targetPackage depth entry st = ([], st))
  ∧ findInstances (Table.fs Ex.failing) Ex.root "evil-pkg"
    = [ {| Instance.path := Ex.root ++ ["evil-pkg"];
           Instance.version := JString "unknown"; Instance.depth := 0 |};
        {| Instance.path := Ex.root ++ ["zzz"; "node_modules"; "evil-pkg"];
           Instance.version := JString "unknown"; Instance.depth := 1 |} ].
Proof.
  split; [|split; [|split; [|split; [|split; [|vm_compute; reflexivity]]]]].
  - apply readVersion_unknown.
  - intros fs root target depth maxDepth st Hdir.
    rewrite findPackageRecursively_unfold, Hdir. by repeat case_match.
  - intros fs root target depth maxDepth st entries entry
      Hdepth Hex Hcheck Hdir Hentry Hskip Hname Hpnpm Hscope packagePath.
    destruct (rootEntry_results fs target root depth maxDepth st entries entry)
      as [s Hs]; try done.
    apply Hs. unfold rootEntry. rewrite Hskip, Hname.
    rewrite (proj2 (String.eqb_neq _ _) Hpnpm), Hscope, String.eqb_refl.
    apply packageDir_hit.
  - intros fs root target depth maxDepth st entries entry children child
      Hdepth Hex Hcheck Hdir Hentry Hskip Hpnpm Hscope Hchildren Hchild Hskip' Hname
      packagePath.
    destruct (rootEntry_results fs target root depth maxDepth st entries entry)
      as [s Hs]; try done.
    apply Hs. unfold rootEntry.
    rewrite Hskip, (proj2 (String.eqb_neq _ _) Hpnpm), Hscope, Hchildren.
    destruct (for_of_elem_of
                (scopedEntry
                   (fun p s => findPackageRecursively fs p target (depth + 1) maxDepth s)
                   fs (path_join root (Dirent.name entry)) (Dirent.name entry) target depth)
                children s child Hchild) as [s' Hs'].
    apply Hs'. unfold scopedEntry. rewrite Hskip', Hname, String.eqb_refl.
    apply packageDir_hit.
  - intros recurse fs root target depth entry st Hskip Hpnpm Hscope Hdir.
    unfold rootEntry.
    by rewrite Hskip, (proj2 (String.eqb_neq _ _) Hpnpm), Hscope, Hdir.
Qed.

(** The copy of the example tree whose manifest does not parse. *)
Lemma findPackageRecursively_failures_skipped_witness :
  existsSync (Table.fs Ex.failing) (Ex.root ++ ["evil-pkg"; "package.json"]) = true
  ∧ readJsonSync (Table.fs Ex.failing) (Ex.root ++ ["evil-pkg"; "package.json"]) = None
  ∧ {| Instance.path := Ex.root ++ ["evil-pkg"];
       Instance.version := JString "unknown";
       Instance.depth := 0 |}
    ∈ (findPackageRecursively (Table.fs Ex.failing) Ex.root "evil-pkg" 0 5 fresh).1.
Proof.
  split; [vm_compute; reflexivity|]. split; [vm_compute; reflexivity|].
  destruct findPackageRecursively_failures_skipped as (Hunknown & _ & Hhit & _).
  pose proof (Hhit (Table.fs Ex.failing) Ex.root "evil-pkg" 0 5 fresh
                [Table.dir "broken"; Table.dir "evil-pkg"; Table.dir "@locked";
                 Table.dir "zzz"]
                (Table.dir "evil-pkg")) as Hin.
  cbv zeta in Hin.
  rewrite (Hunknown (Table.fs Ex.failing)
             (path_join (path_join Ex.root "evil-pkg") "package.json")) in Hin.
  - apply Hin; try (vm_compute; reflexivity); try lia; try discriminate.
    + by eexists.
    + right. left.
  - right. left. vm_compute. reflexivity.
Defined.

(** ** Installed findings: the claims *)

Lemma Table_well_formed (tbl : Table.t) :
  Table.checked tbl = true → well_formed (Table.fs tbl).
Proof.
  unfold Table.checked, well_formed. cbn. intros Hall p entries.
  induction (Table.dirs tbl) as [|[k v] dirs IH]; [done|]. cbn in *.
  apply andb_true_iff in Hall as [[Hnd Hnames]%andb_true_iff Hall].
  apply bool_decide_eq_true in Hnd.
  destruct (decide (k = p)) as [->|Hne].
  - rewrite bool_decide_eq_true_2 by done. intros [= ->]. split; [done|].
    apply Forall_forall. intros entry Hin.
    rewrite forallb_forall in Hnames. apply Hnames. by apply list_elem_of_In.
  - rewrite bool_decide_eq_false_2 by done. by apply IH.
Qed.

(** C9, counterexample: for the blacklisted name [../..] and a store
    that holds two entries whose names start with [..+..@], the report
    holds the same (package, path) combination twice. *)
Lemma installedKeys_repeated :
  installedKeys <$> run (Table.fs Ex.climbing) Ex.climbing_name ["p"] [] []
  = Some [ ("../..", Ex.root ++ [".pnpm"]); ("../..", Ex.root ++ [".pnpm"]) ].
Proof. vm_compute. reflexivity. Qed.

(** C9, as the code has it: the scanner removes no duplicate from the
    installed findings.  A (package, path) combination appears at most
    once among them when no blacklisted name has a [..] segment, on a
    file system whose directories list each entry once: the names of
    the index are distinct, and one walk returns each path once. *)
Theorem installedKeys_NoDup (fs : FileSystem) (packages : list PackageEntry.t)
    (targetDir : path) (depResults : list DependencyRef.t) (declared : list Declared.t)
    (results : Results) :
  well_formed fs →
  Forall (λ pkg, ".." ∉ Str.split_slash (PackageEntry.name pkg)) packages →
  run fs (COMPROMISED_PACKAGES_MAP packages) targetDir depResults declared = Some results →
  NoDup (installedKeys results).
Proof.
  intros Hwf Hnames Hrun. unfold installedKeys.
  destruct (run_installedFindings _ _ _ _ _ _ Hrun) as [->|Hscan]; [constructor|].
  rewrite (scanInstalled_Some _ _ _ _ Hscan).
  destruct (COMPROMISED_PACKAGES_MAP_keys packages) as [Hkeys Hfrom].
  apply bind_reported_NoDup; [done|]. intros pkg Hpkg.
  apply findInstances_NoDup; [done|].
  destruct (Hfrom _ Hpkg) as (entry & Hentry & <-).
  rewrite Forall_forall in Hnames. by apply Hnames.
Qed.

(** The report of the tree that holds [evil-pkg] twice. *)
Lemma installedKeys_NoDup_witness :
  ∃ results,
    run (Table.fs Ex.twice) Ex.versioned ["p"] [] [] = Some results
    ∧ installedKeys results
      = [ ("evil-pkg", Ex.root ++ ["a"; "node_modules"; "evil-pkg"]);
          ("evil-pkg", Ex.root ++ ["evil-pkg"]) ]
    ∧ NoDup (installedKeys results).
Proof.
  eexists. split; [vm_compute; reflexivity|]. split; [vm_compute; reflexivity|].
  apply (installedKeys_NoDup (Table.fs Ex.twice)
           [ {| PackageEntry.name := "evil-pkg"; PackageEntry.versions := ["v1.0.0"] |} ]
           ["p"] [] []).
  - apply Table_well_formed. vm_compute. reflexivity.
  - repeat constructor. vm_compute. intros H. inversion H as [|? ? ? H']. inversion H'.
  - vm_compute. reflexivity.
Defined.

(** C10, counterexample: the version array of the entry is not empty
    and lists ["unknown"]; both copies of the package, whose manifests
    cannot be read, are reported. *)
Lemma unknown_version_reported :
  Map_get Ex.unknown_listed "evil-pkg" = Some ["1.0.0"; "unknown"]
  ∧ (λ results, (λ f, (Finding.path f, Finding.version f)) <$> installedFindings results)
      <$> run (Table.fs Ex.failing) Ex.unknown_listed ["p"] [] []
    = Some [ (Ex.root ++ ["evil-pkg"], JString "unknown");
             (Ex.root ++ ["zzz"; "node_modules"; "evil-pkg"], JString "unknown") ].
Proof. split; vm_compute; reflexivity. Qed.

(** C10, as the code has it: an instance whose version is ["unknown"]
    is matched like any other: it is reported exactly when ["unknown"]
    is an element of the version array of its name.  So, for a name
    whose array does not list ["unknown"], no installed finding of a
    report has the version ["unknown"]: a copy whose manifest is missing
    or cannot be parsed is not reported.  With only [1.0.0] listed, the
    two unreadable copies of the example tree give no finding. *)
Theorem unknown_version_matched_literally :
  (∀ m pkg compromisedVersions instance,
     Map_get m pkg = Some compromisedVersions →
     Instance.version instance = JString "unknown" →
     reportInstance m pkg instance
     = Some (if bool_decide ("unknown" ∈ compromisedVersions)
             then [finding m pkg instance] else []))
  ∧ (∀ fs m targetDir depResults declared results pkg compromisedVersions,
       run fs m targetDir depResults declared = Some results →
       Map_get m pkg = Some compromisedVersions →
       "unknown" ∉ compromisedVersions →
       ∀ f, f ∈ installedFindings results →
            Finding.package f = pkg → Finding.version f ≠ JString "unknown")
  ∧ findInstances (Table.fs Ex.failing) Ex.root "evil-pkg"
    = [ {| Instance.path := Ex.root ++ ["evil-pkg"];
           Instance.version := JString "unknown"; Instance.depth := 0 |};
        {| Instance.path := Ex.root ++ ["zzz"; "node_modules"; "evil-pkg"];
           Instance.version := JString "unknown"; Instance.depth := 1 |} ]
  ∧ installedFindings <$> run (Table.fs Ex.failing) Ex.versioned ["p"] [] [] = Some [].
Proof.
  split; [|split; [|split; vm_compute; reflexivity]].
  - intros m pkg vs i Hget Hversion. rewrite reportInstance_eq, Hversion.
    rewrite (isCompromised_present _ _ _ _ Hget). unfold includes.
    change (Str.strip_leading_v "unknown") with "unknown".
    by case_bool_decide.
  - intros fs m targetDir deps declared results pkg vs Hrun Hget Hnot f Hf Hpkg Hversion.
    destruct (run_installedFindings _ _ _ _ _ _ Hrun) as [Hnil|Hscan].
    { rewrite Hnil in Hf. by apply elem_of_nil in Hf. }
    rewrite (scanInstalled_Some _ _ _ _ Hscan) in Hf.
    apply list_elem_of_bind in Hf as (pkg' & Hf & _).
    apply elem_of_reported in Hf as (Hpkg' & _ & Hflag & _).
    rewrite Hpkg in Hpkg'. subst pkg'. rewrite Hversion in Hflag.
    rewrite (isCompromised_present _ _ _ _ Hget) in Hflag.
    injection Hflag as Hflag. by apply includes_true in Hflag.
Qed.

(** The report of the example tree for a name whose array is
    [["1.0.0"]]. *)
Lemma unknown_version_matched_literally_witness :
  ∃ results,
    run (Table.fs Ex.failing) Ex.versioned ["p"] [] [] = Some results
    ∧ Map_get Ex.versioned "evil-pkg" = Some ["1.0.0"]
    ∧ ("unknown" ∉ ["1.0.0"])
    ∧ ∀ f, f ∈ installedFindings results →
           Finding.package f = "evil-pkg" → Finding.version f ≠ JString "unknown".
Proof.
  eexists. split; [vm_compute; reflexivity|]. split; [reflexivity|].
  assert ("unknown" ∉ ["1.0.0"]) as Hnot.
  { intros Hin. apply list_elem_of_singleton in Hin. discriminate. }
  split; [exact Hnot|].
  destruct unknown_version_matched_literally as (_ & Hrun & _).
  apply (Hrun (Table.fs Ex.failing) Ex.versioned ["p"] [] [] _ "evil-pkg" ["1.0.0"]);
    [reflexivity|reflexivity|exact Hnot].
Defined.

(** ** Objects: lemmas *)

Lemma assoc_get_None {V : Type} (fields : list (string * V)) (k : string) :
  assoc_get fields k = None ↔ k ∉ fields.*1.
Proof.
  induction fields as [|[k' v'] fields IH]; cbn.
  - split; [intros _; apply not_elem_of_nil|done].
  - rewrite not_elem_of_cons, <- IH.
    destruct (String.eqb_spec k' k) as [->|Hne].
    + split; [done|]. by intros [? _].
    + split; [|by intros [_ ?]]. intros Hget. split; [congruence|done].
Qed.

Lemma assoc_get_Some_elem_of {V : Type} (fields : list (string * V)) (k : string) (v : V) :
  assoc_get fields k = Some v → (k, v) ∈ fields.
Proof.
  induction fields as [|[k' v'] fields IH]; cbn; [done|].
  destruct (String.eqb_spec k' k) as [->|Hne].
  - intros [= ->]. left.
  - intros Hget. right. by apply IH.
Qed.

Lemma assoc_get_NoDup {V : Type} (fields : list (string * V)) (k : string) (v : V) :
  NoDup fields.*1 → (k, v) ∈ fields → assoc_get fields k = Some v.
Proof.
  induction fields as [|[k' v'] fields IH]; cbn; [by intros _ ?%elem_of_nil|].
  intros [Hfresh Hnd]%NoDup_cons [[= -> ->]|Hin]%elem_of_cons.
  - by rewrite String.eqb_refl.
  - destruct (String.eqb_spec k' k) as [->|Hne]; [|by apply IH].
    destruct Hfresh. apply list_elem_of_fmap. by exists (k, v).
Qed.

Lemma insert_index_keys n k v fields :
  (Js.insert_index n k v fields).*1 ≡ₚ k :: fields.*1.
Proof.
  induction fields as [|[k' v'] fields IH]; cbn; [done|].
  destruct (Js.array_index k') as [n'|]; [|done].
  destruct (n' <? n)%N; [|done]. cbn. rewrite IH. apply Permutation_swap.
Qed.

Lemma assoc_get_insert_index n k v fields k' :
  k ∉ fields.*1 →
  assoc_get (Js.insert_index n k v fields) k'
  = if String.eqb k k' then Some v else assoc_get fields k'.
Proof.
  induction fields as [|[k1 v1] fields IH]; cbn; [done|].
  intros [Hne Hnot]%not_elem_of_cons.
  destruct (Js.array_index k1) as [n1|]; [|done].
  destruct (n1 <? n)%N; [|done]. cbn. rewrite IH by done.
  destruct (String.eqb_spec k1 k') as [->|]; [|done].
  by rewrite (proj2 (String.eqb_neq _ _)).
Qed.

Lemma define_keys fields k v :
  (Js.define fields k v).*1
  ≡ₚ if bool_decide (k ∈ fields.*1) then fields.*1 else k :: fields.*1.
Proof.
  unfold Js.define. case_bool_decide as Hin.
  - rewrite <- list_fmap_compose.
    assert ((fst ∘ (λ kv : string * json,
                      if String.eqb kv.1 k then (kv.1, v) else kv)) <$> fields
            = fields.*1) as ->; [|done].
    apply list_fmap_ext. intros i [k' v'] _. cbn. by destruct (String.eqb k' k).
  - destruct (Js.array_index k); [apply insert_index_keys|].
    rewrite fmap_app. cbn. by rewrite Permutation_app_comm.
Qed.

Lemma define_keys_NoDup fields k v :
  NoDup fields.*1 → NoDup (Js.define fields k v).*1.
Proof.
  intros Hnd. rewrite define_keys. case_bool_decide; [done|]. by apply NoDup_cons.
Qed.

Lemma assoc_get_update fields k v k' :
  assoc_get ((λ kv : string * json,
                if String.eqb kv.1 k then (kv.1, v) else kv) <$> fields) k'
  = if String.eqb k k' then (if bool_decide (k ∈ fields.*1) then Some v else None)
    else assoc_get fields k'.
Proof.
  induction fields as [|[k1 v1] fields IH]; cbn.
  { by destruct (String.eqb k k'). }
  destruct (String.eqb_spec k1 k) as [->|Hne1]; cbn.
  - destruct (String.eqb_spec k k') as [->|Hne].
    + rewrite bool_decide_eq_true_2; [done|left].
    + rewrite IH. by destruct (String.eqb_spec k k').
  - rewrite IH. destruct (String.eqb_spec k1 k') as [->|Hne'].
    + by rewrite (proj2 (String.eqb_neq k k')).
    + destruct (String.eqb k k'); [|done].
      destruct (decide (k ∈ fields.*1)).
      * rewrite !bool_decide_eq_true_2; [done|by right|done].
      * rewrite !bool_decide_eq_false_2; [done| |done].
        intros [?|?]%elem_of_cons; congruence.
Qed.

Lemma assoc_get_define fields k v k' :
  assoc_get (Js.define fields k v) k'
  = if String.eqb k k' then Some v else assoc_get fields k'.
Proof.
  unfold Js.define. case_bool_decide as Hin.
  - rewrite assoc_get_update. by rewrite bool_decide_eq_true_2.
  - destruct (Js.array_index k); [by apply assoc_get_insert_index|].
    apply assoc_get_None in Hin.
    induction fields as [|[k1 v1] fields IH]; cbn in *; [done|].
    destruct (String.eqb_spec k1 k) as [->|Hne1]; [done|]. rewrite IH by done.
    destruct (String.eqb_spec k1 k') as [->|]; [|done].
    by rewrite (proj2 (String.eqb_neq k k')).
Qed.

Lemma spread_keys_NoDup target src :
  NoDup target.*1 → NoDup (Js.spread target src).*1.
Proof.
  unfold Js.spread. generalize (Js.own_props src). intros props. revert target.
  induction props as [|[k v] props IH]; intros target Hnd; [done|].
  cbn. by apply IH, define_keys_NoDup.
Qed.

(** The value that a spread leaves under a key: the last one the source
    holds for it, or else the one of the target. *)
Lemma assoc_get_spread target src k :
  assoc_get (Js.spread target src) k
  = match assoc_get (reverse (Js.own_props src)) k with
    | Some v => Some v
    | None => assoc_get target k
    end.
Proof.
  unfold Js.spread. generalize (Js.own_props src). intros props.
  induction props as [|[k1 v1] props IH] using rev_ind; [done|].
  rewrite foldl_snoc, reverse_snoc. cbn. rewrite assoc_get_define, IH.
  by destruct (String.eqb k1 k).
Qed.

Lemma elem_of_spread target src k v :
  (k, v) ∈ Js.spread target src → (k, v) ∈ target ∨ (k, v) ∈ Js.own_props src.
Proof.
  unfold Js.spread. generalize (Js.own_props src). intros props. revert target.
  induction props as [|[k1 v1] props IH]; intros target; [by left|].
  cbn. intros [Hin|Hin]%IH; [|right; by right].
  unfold Js.define in Hin. case_bool_decide.
  - apply list_elem_of_fmap in Hin as ([k2 v2] & Heq & Hin). cbn in Heq.
    destruct (String.eqb_spec k2 k1) as [->|]; injection Heq as -> ->; [|by left].
    right. left.
  - destruct (Js.array_index k1).
    + assert (∀ n fields, (k, v) ∈ Js.insert_index n k1 v1 fields →
                          (k, v) = (k1, v1) ∨ (k, v) ∈ fields) as Hins.
      { intros n' fields. induction fields as [|[k2 v2] fields IHf]; cbn.
        - intros ->%list_elem_of_singleton. by left.
        - destruct (Js.array_index k2); [|by intros [?|?]%elem_of_cons; auto].
          destruct (_ <? _)%N; [|by intros [?|?]%elem_of_cons; auto].
          intros [->|[?|?]%IHf]%elem_of_cons; [right; left|by left|right; by right]. }
      destruct (Hins _ _ Hin) as [[= -> ->]|?]; [right; left|by left].
    + apply elem_of_app in Hin as [?|[= -> ->]%list_elem_of_singleton];
        [by left|right; left].
Qed.

(** ** Manifest scanner: lemmas *)

#[local] Arguments allDeps : simpl never.

Section Scanner.
Context (fs : FileSystem) (compromisedPackages : list string).
Implicit Types (recurse : path → WalkState → list DependencyRef.t * WalkState).

Lemma scan_S fuel nodeModulesPath depth maxDepth st :
  scan (S fuel) fs nodeModulesPath compromisedPackages depth maxDepth st =
    if (maxDepth <? depth) || negb (existsSync fs nodeModulesPath) then ([], st)
    else
      match cycleCheck fs nodeModulesPath st with
      | None => ([], st)
      | Some st1 =>
          match readdirSync fs nodeModulesPath with
          | None => ([], st1)
          | Some entries =>
              for_of (scanEntry
                        (fun p s => scan fuel fs p compromisedPackages (depth + 1) maxDepth s)
                        fs compromisedPackages nodeModulesPath depth)
                     entries
                     {| visitedPaths := visitedPaths st1;
                        enumerated := enumerated st1 ++ [nodeModulesPath] |}
          end
      end.
Proof. reflexivity. Qed.

Lemma elem_of_manifestRefs packagePath packageName depth r :
  r ∈ manifestRefs fs compromisedPackages packagePath packageName depth ↔
  ∃ pkgJson deps k v,
    existsSync fs (path_join packagePath "package.json") = true
    ∧ readJsonSync fs (path_join packagePath "package.json") = Some pkgJson
    ∧ allDeps pkgJson = Some deps
    ∧ (k, v) ∈ deps ∧ k ∈ compromisedPackages
    ∧ r = {| DependencyRef.foundIn := packagePath;
             DependencyRef.foundInPackageName := packageName;
             DependencyRef.compromisedPackage := k;
             DependencyRef.version := v;
             DependencyRef.depth := depth |}.
Proof.
  unfold manifestRefs.
  destruct (existsSync fs _); [|split; [by intros ?%elem_of_nil|by intros (?&?&?&?&?&_)]].
  destruct (readJsonSync fs _) as [pkgJson|];
    [|split; [by intros ?%elem_of_nil|by intros (?&?&?&?&_&?&_)]].
  destruct (allDeps pkgJson) as [deps|] eqn:Hdeps;
    [|split; [by intros ?%elem_of_nil|intros (?&?&?&?&_&[= <-]&?&_); congruence]].
  rewrite list_elem_of_fmap. split.
  - intros ([k v] & -> & [Hk Hin]%list_elem_of_filter).
    exists pkgJson, deps, k, v. by repeat split.
  - intros (? & ? & k & v & _ & [= <-] & Hdeps' & Hin & Hk & ->).
    rewrite Hdeps in Hdeps'. injection Hdeps' as <-.
    exists (k, v). split; [done|]. by apply list_elem_of_filter.
Qed.

Lemma elem_of_scanPackage recurse packagePath packageName depth st r :
  r ∈ (scanPackage recurse fs compromisedPackages packagePath packageName depth st).1 →
  r ∈ manifestRefs fs compromisedPackages packagePath packageName depth
  ∨ ∃ s, r ∈ (recurse (path_join packagePath "node_modules") s).1.
Proof.
  unfold scanPackage. destruct (existsSync fs _); [|by left].
  destruct (recurse _ st) as [nested st'] eqn:Hrec. cbn.
  intros [?|?]%elem_of_app; [by left|]. right. exists st. by rewrite Hrec.
Qed.

Lemma elem_of_scanEntry recurse nodeModulesPath depth entry st r :
  r ∈ (scanEntry recurse fs compromisedPackages nodeModulesPath depth entry st).1 →
  (∃ packagePath packageName,
     r ∈ manifestRefs fs compromisedPackages packagePath packageName depth)
  ∨ ∃ p s, r ∈ (recurse p s).1.
Proof.
  unfold scanEntry. destruct (skipped entry); [by intros ?%elem_of_nil|].
  destruct (Str.startsWith _ _).
  - destruct (readdirSync fs _) as [children|]; [|by intros ?%elem_of_nil].
    intros (child & s & _ & Hr)%elem_of_for_of.
    destruct (skipped child); [by apply elem_of_nil in Hr|].
    apply elem_of_scanPackage in Hr as [?|[s' ?]]; [left|right]; eauto.
  - intros [?|[s' ?]]%elem_of_scanPackage; [left|right]; eauto.
Qed.

(** Every reference was read from the manifest of some package
    directory, by a call entered between [depth] and [maxDepth]. *)
Lemma scan_origin fuel nodeModulesPath depth maxDepth st r :
  r ∈ (scan fuel fs nodeModulesPath compromisedPackages depth maxDepth st).1 →
  ∃ packagePath packageName d,
    depth ≤ d ≤ maxDepth
    ∧ r ∈ manifestRefs fs compromisedPackages packagePath packageName d.
Proof.
  revert nodeModulesPath depth st.
  induction fuel as [|fuel IH]; intros root depth st; [by intros ?%elem_of_nil|].
  rewrite scan_S.
  destruct (Nat.ltb_spec maxDepth depth) as [|Hdepth]; [by intros ?%elem_of_nil|].
  cbn [orb]. destruct (negb _); [by intros ?%elem_of_nil|].
  destruct (cycleCheck fs root st); [|by intros ?%elem_of_nil].
  destruct (readdirSync fs root); [|by intros ?%elem_of_nil].
  intros (entry & s & _ & Hr)%elem_of_for_of.
  apply elem_of_scanEntry in Hr as [(p & n & Hr)|(p & s' & Hr)].
  - exists p, n, depth. split; [lia|done].
  - destruct (IH _ _ _ Hr) as (p' & n' & d & Hd & Hr'). exists p', n', d. split; [lia|done].
Qed.

Lemma scanEntry_ext recurse1 recurse2 nodeModulesPath depth entry st :
  (∀ p s, recurse1 p s = recurse2 p s) →
  scanEntry recurse1 fs compromisedPackages nodeModulesPath depth entry st
  = scanEntry recurse2 fs compromisedPackages nodeModulesPath depth entry st.
Proof.
  intros Hext. unfold scanEntry, scanPackage. repeat case_match; try done; try congruence.
  apply for_of_ext. intros child s. repeat case_match; try done; congruence.
Qed.

Lemma scanPackageJsonDependencies_unfold nodeModulesPath depth maxDepth st :
  scanPackageJsonDependencies fs nodeModulesPath compromisedPackages depth maxDepth st =
    if (maxDepth <? depth) || negb (existsSync fs nodeModulesPath) then ([], st)
    else
      match cycleCheck fs nodeModulesPath st with
      | None => ([], st)
      | Some st1 =>
          match readdirSync fs nodeModulesPath with
          | None => ([], st1)
          | Some entries =>
              for_of (scanEntry
                        (fun p s => scanPackageJsonDependencies fs p compromisedPackages
                                      (depth + 1) maxDepth s)
                        fs compromisedPackages nodeModulesPath depth)
                     entries
                     {| visitedPaths := visitedPaths st1;
                        enumerated := enumerated st1 ++ [nodeModulesPath] |}
          end
      end.
Proof.
  unfold scanPackageJsonDependencies.
  destruct (decide (maxDepth < depth)) as [Hdeep|Hdepth].
  - replace (S maxDepth - depth) with 0 by lia.
    by rewrite (proj2 (Nat.ltb_lt _ _) Hdeep).
  - replace (S maxDepth - depth) with (S (maxDepth - depth)) by lia.
    rewrite scan_S. repeat case_match; try done.
    apply for_of_ext. intros e s. apply scanEntry_ext. intros p s'.
    f_equal. lia.
Qed.
End Scanner.

Lemma allDeps_Some pkgJson deps :
  allDeps pkgJson = Some deps →
  pkgJson ≠ JNull
  ∧ deps = Js.spread (Js.spread (Js.spread (Js.spread []
             (Js.member pkgJson "dependencies"))
             (Js.member pkgJson "devDependencies"))
             (Js.member pkgJson "peerDependencies"))
             (Js.member pkgJson "optionalDependencies").
Proof.
  unfold allDeps, Js.member. destruct pkgJson; cbn; try done;
    by intros [= <-].
Qed.

Lemma allDeps_keys_NoDup pkgJson deps : allDeps pkgJson = Some deps → NoDup deps.*1.
Proof.
  intros [_ ->]%allDeps_Some. do 4 apply spread_keys_NoDup. constructor.
Qed.

Lemma allDeps_lookup pkgJson deps k :
  allDeps pkgJson = Some deps → assoc_get deps k = declaredRange pkgJson k.
Proof.
  intros [_ ->]%allDeps_Some. rewrite !assoc_get_spread. unfold declaredRange, Js.own.
  by repeat case_match.
Qed.

(** ** Each scan returns each combination once *)

Section TaggedBy.
Context {E R K : Type} (f : R → K) (place : K → path) (key : E → string) (dir : path).

Lemma for_of_NoDup_by (body : E → WalkState → list R * WalkState) es st :
  NoDup (key <$> es) →
  (∀ e s, e ∈ es →
          NoDup (f <$> (body e s).1)
          ∧ Forall (λ r, below dir (key e) (place (f r))) (body e s).1) →
  NoDup (f <$> (for_of body es st).1).
Proof.
  revert st. induction es as [|e es IH]; intros st Hkeys Hbody; [constructor|].
  rewrite fmap_cons in Hkeys. apply NoDup_cons in Hkeys as [Hfresh Hkeys].
  rewrite for_of_cons. cbn [fst]. rewrite fmap_app. apply NoDup_app.
  destruct (Hbody e st) as [Hnd Hbelow]; [left|]. split; [done|]. split.
  - intros p (i & -> & Hi)%list_elem_of_fmap (i' & Hp & Hi')%list_elem_of_fmap.
    apply elem_of_for_of in Hi' as (e' & s' & He' & Hi').
    rewrite Forall_forall in Hbelow. specialize (Hbelow _ Hi).
    destruct (Hbody e' s') as [_ Hbelow']; [by right|].
    rewrite Forall_forall in Hbelow'. specialize (Hbelow' _ Hi').
    rewrite <- Hp in Hbelow'. apply Hfresh.
    rewrite (below_inj _ _ _ _ Hbelow Hbelow'). apply list_elem_of_fmap. eauto.
  - apply IH; [done|]. intros e' s' He'. apply Hbody. by right.
Qed.
End TaggedBy.

Section ScanUnique.
Context (fs : FileSystem) (compromisedPackages : list string).
Context (Hwf : well_formed fs).
Implicit Types (recurse : path → WalkState → list DependencyRef.t * WalkState).

Lemma manifestRefs_keys packagePath packageName depth :
  NoDup (DependencyRef.compromisedPackage
           <$> manifestRefs fs compromisedPackages packagePath packageName depth)
  ∧ Forall (λ r, DependencyRef.foundIn r = packagePath)
      (manifestRefs fs compromisedPackages packagePath packageName depth).
Proof.
  unfold manifestRefs. repeat case_match; try (split; constructor). split.
  - rewrite <- list_fmap_compose. eapply sublist_NoDup.
    + by eapply allDeps_keys_NoDup.
    + apply (fmap_sublist fst), sublist_filter.
  - apply Forall_forall. by intros r (kv & -> & _)%list_elem_of_fmap.
Qed.

Lemma scanPackage_keys recurse dir n packageName depth st :
  (∀ p s, tidy_refs p (recurse p s).1) →
  NoDup (refKey <$> (scanPackage recurse fs compromisedPackages (dir ++ [n])
                       packageName depth st).1)
  ∧ Forall (λ r, below dir n (DependencyRef.foundIn r))
      (scanPackage recurse fs compromisedPackages (dir ++ [n]) packageName depth st).1.
Proof.
  intros Hrec. unfold scanPackage. rewrite (path_join_name _ "node_modules") by done.
  destruct (manifestRefs_keys (dir ++ [n]) packageName depth) as [Hnames Hhere].
  assert (NoDup (refKey <$> manifestRefs fs compromisedPackages (dir ++ [n])
                              packageName depth)) as Hrefs.
  { apply (NoDup_fmap_1 snd). by rewrite <- list_fmap_compose. }
  assert (Forall (λ r, below dir n (DependencyRef.foundIn r))
            (manifestRefs fs compromisedPackages (dir ++ [n]) packageName depth))
    as Hbelow.
  { eapply Forall_impl; [exact Hhere|]. intros r ->. by exists []. }
  destruct (existsSync fs _); [|done].
  pose proof (Hrec ((dir ++ [n]) ++ ["node_modules"]) st) as [Hnd Hall].
  destruct (recurse _ st) as [nested st']. cbn [fst] in *. split.
  - rewrite fmap_app. apply NoDup_app. split; [done|]. split; [|done].
    intros [p k] (r & [= -> ->] & Hr)%list_elem_of_fmap
      (r' & [= Hp _] & Hr')%list_elem_of_fmap.
    rewrite Forall_forall in Hhere, Hall.
    destruct (Hall _ Hr') as (m & rest & Hrest).
    rewrite <- Hp, (Hhere _ Hr) in Hrest.
    apply (f_equal length) in Hrest. rewrite !length_app in Hrest. cbn in Hrest. lia.
  - apply Forall_app. split; [done|]. eapply Forall_impl; [exact Hall|].
    intros r [m Hm]. apply below_app in Hm. by eapply below_app.
Qed.

Lemma scanEntry_keys recurse nodeModulesPath depth entry st :
  (∀ p s, tidy_refs p (recurse p s).1) →
  Str.is_name (Dirent.name entry) = true →
  NoDup (refKey <$> (scanEntry recurse fs compromisedPackages nodeModulesPath depth
                       entry st).1)
  ∧ Forall (λ r, below nodeModulesPath (Dirent.name entry) (DependencyRef.foundIn r))
      (scanEntry recurse fs compromisedPackages nodeModulesPath depth entry st).1.
Proof.
  intros Hrec Hname. unfold scanEntry. rewrite path_join_name by done.
  destruct (skipped entry); [by split; constructor|].
  destruct (Str.startsWith (Dirent.name entry) "@"); [|by apply scanPackage_keys].
  destruct (readdirSync fs _) as [children|] eqn:Hdir; [|by split; constructor].
  destruct (Hwf _ _ Hdir) as [Hnames Hclean]. rewrite Forall_forall in Hclean.
  set (body := λ (child : Dirent.t) (s : WalkState),
         if skipped child then ([], s)
         else scanPackage recurse fs compromisedPackages
                (path_join (nodeModulesPath ++ [Dirent.name entry]) (Dirent.name child))
                (Dirent.name entry +:+ "/" +:+ Dirent.name child) depth s).
  assert (∀ child s, child ∈ children →
            NoDup (refKey <$> (body child s).1)
            ∧ Forall (λ r, below (nodeModulesPath ++ [Dirent.name entry])
                             (Dirent.name child) (fst (refKey r)))
                (body child s).1) as Hchild.
  { intros child s Hin. unfold body.
    destruct (skipped child); [by split; constructor|].
    rewrite path_join_name by by apply Hclean. by apply scanPackage_keys. }
  split.
  - by eapply (for_of_NoDup_by refKey fst Dirent.name).
  - apply for_of_Forall. intros child s Hin.
    destruct (Hchild child s Hin) as [_ Hall].
    eapply Forall_impl; [exact Hall|]. intros r Hr. exact (below_app _ _ _ _ Hr).
Qed.

Lemma scan_keys fuel nodeModulesPath depth maxDepth st :
  tidy_refs nodeModulesPath
    (scan fuel fs nodeModulesPath compromisedPackages depth maxDepth st).1.
Proof.
  revert nodeModulesPath depth st.
  induction fuel as [|fuel IH]; intros root depth st; [by split; constructor|].
  rewrite scan_S. destruct (_ || _); [by split; constructor|].
  destruct (cycleCheck fs root st) as [st1|]; [|by split; constructor].
  destruct (readdirSync fs root) as [entries|] eqn:Hdir; [|by split; constructor].
  destruct (Hwf _ _ Hdir) as [Hnames Hclean]. rewrite Forall_forall in Hclean.
  split.
  - eapply (for_of_NoDup_by refKey fst Dirent.name); [exact Hnames|]. intros entry s Hin.
    apply scanEntry_keys; [|by apply Hclean]. intros p s'. apply IH.
  - apply for_of_Forall. intros entry s Hin.
    destruct (scanEntry_keys
                (λ p s, scan fuel fs p compromisedPackages (depth + 1) maxDepth s)
                root depth entry s) as [_ Hall]; [intros; apply IH|by apply Hclean|].
    eapply Forall_impl; [exact Hall|]. intros r Hr. by exists (Dirent.name entry).
Qed.
End ScanUnique.

(** ** The blacklist index: further lemmas *)

Lemma Map_get_set (m : JsMap) (k : string) (v : list string) (k' : string) :
  Map_get (Map_set m k v) k' = if String.eqb k k' then Some v else Map_get m k'.
Proof.
  unfold Map_get. induction m as [|[k1 v1] m IH]; cbn; [done|].
  destruct (String.eqb_spec k1 k) as [->|Hne]; cbn.
  - by destruct (String.eqb k k').
  - rewrite IH. destruct (String.eqb_spec k1 k') as [->|]; [|done].
    by rewrite (proj2 (String.eqb_neq k k')).
Qed.

Lemma Map_get_loaded (packages : list PackageEntry.t) (k : string) :
  Map_get (COMPROMISED_PACKAGES_MAP packages) k
  = (λ pkg, Str.strip_leading_v <$> PackageEntry.versions pkg)
      <$> last (filter (λ pkg, PackageEntry.name pkg = k) packages).
Proof.
  unfold COMPROMISED_PACKAGES_MAP.
  induction packages as [|pkg packages IH] using rev_ind; [done|].
  rewrite foldl_snoc, Map_get_set, filter_app.
  destruct (String.eqb_spec (PackageEntry.name pkg) k) as [Heq|Hne].
  - rewrite (filter_cons_True _ pkg) by done. rewrite filter_nil, last_snoc. done.
  - rewrite (filter_cons_False _ pkg) by done. by rewrite filter_nil, app_nil_r.
Qed.

Lemma Map_keys_get (m : JsMap) (k : string) : k ∈ Map_keys m ↔ is_Some (Map_get m k).
Proof.
  unfold Map_keys, Map_get. destruct (assoc_get m k) eqn:Hget.
  - split; [eauto|]. intros _. apply assoc_get_Some_elem_of in Hget.
    apply list_elem_of_fmap. by eexists (_, _).
  - apply assoc_get_None in Hget. split; [done|]. by intros [? ?].
Qed.

Lemma Map_keys_loaded (packages : list PackageEntry.t) (k : string) :
  k ∈ Map_keys (COMPROMISED_PACKAGES_MAP packages) ↔ k ∈ PackageEntry.name <$> packages.
Proof.
  rewrite Map_keys_get, Map_get_loaded, fmap_is_Some, list_elem_of_fmap.
  split.
  - intros [pkg Hlast]. apply last_Some_elem_of, list_elem_of_filter in Hlast as [? ?].
    eauto.
  - intros (pkg & -> & Hin).
    destruct (last (filter (λ pkg', PackageEntry.name pkg' = PackageEntry.name pkg) packages))
      eqn:Hlast; [eauto|].
    apply last_None in Hlast.
    assert (pkg ∈ filter (λ pkg', PackageEntry.name pkg' = PackageEntry.name pkg) packages)
      as Hpkg by by apply list_elem_of_filter.
    rewrite Hlast in Hpkg. by apply elem_of_nil in Hpkg.
Qed.

(** ** The blacklist index: properties *)

(** X1: when the list file names a package more than once, the index
    holds the versions of the last such entry only, each without one
    leading [v]; earlier entries of the name are overwritten, not
    merged.  A name that no entry carries is not in the index. *)
Theorem COMPROMISED_PACKAGES_MAP_last_entry (packages : list PackageEntry.t)
    (k : string) :
  Map_get (COMPROMISED_PACKAGES_MAP packages) k
  = (λ pkg, Str.strip_leading_v <$> PackageEntry.versions pkg)
      <$> last (filter (λ pkg, PackageEntry.name pkg = k) packages).
Proof. apply Map_get_loaded. Qed.

(** X2: the keys of the index are the names of the list file, each
    once; [COMPROMISED_PACKAGES_MAP.size], which the report gives as
    [totalChecked], is the number of distinct names and not the number
    of entries. *)
Theorem COMPROMISED_PACKAGES_MAP_size (packages : list PackageEntry.t) :
  NoDup (Map_keys (COMPROMISED_PACKAGES_MAP packages))
  ∧ (∀ k, k ∈ Map_keys (COMPROMISED_PACKAGES_MAP packages)
          ↔ k ∈ PackageEntry.name <$> packages)
  ∧ length (Map_keys (COMPROMISED_PACKAGES_MAP packages))
    = length (remove_dups (PackageEntry.name <$> packages)).
Proof.
  destruct (COMPROMISED_PACKAGES_MAP_keys packages) as [Hnd _].
  split; [done|]. split; [apply Map_keys_loaded|].
  apply Permutation_length, NoDup_Permutation; [done|apply NoDup_remove_dups|].
  intros k. by rewrite Map_keys_loaded, elem_of_remove_dups.
Qed.

(** X3: against the loaded index, an installed version string is
    flagged exactly when the last entry of the package lists a version
    equal to it once one leading [v] is removed on both sides. *)
Theorem isCompromised_loaded (packages : list PackageEntry.t) (k v : string) :
  isCompromised (COMPROMISED_PACKAGES_MAP packages) k (JString v) = Some true
  ↔ ∃ pkg w,
      last (filter (λ pkg, PackageEntry.name pkg = k) packages) = Some pkg
      ∧ w ∈ PackageEntry.versions pkg
      ∧ Str.strip_leading_v w = Str.strip_leading_v v.
Proof.
  pose proof (Map_get_loaded packages k) as Hget.
  destruct (last (filter (λ pkg, PackageEntry.name pkg = k) packages)) as [pkg|];
    cbn in Hget.
  - rewrite (isCompromised_present _ _ _ _ Hget). split.
    + intros [= (w & Hw & Hin)%includes_true%list_elem_of_fmap]. eauto.
    + intros (? & w & [= <-] & Hin & Heq). f_equal. apply includes_true.
      apply list_elem_of_fmap. eauto.
  - rewrite (isCompromised_absent _ _ _ Hget). split; [done|]. by intros (? & ? & ? & _).
Qed.

(** ** The walker: what an instance records *)

Lemma split_slash_scoped (scope child : string) :
  Str.no_slash scope = true →
  Str.split_slash (scope +:+ "/" +:+ child) = scope :: Str.split_slash child.
Proof.
  induction scope as [|c scope IH]; [done|].
  change (String c scope +:+ "/" +:+ child) with (String c (scope +:+ "/" +:+ child)).
  cbn. destruct (Ascii.eqb c "/"%char); [done|]. cbn. intros Hscope. by rewrite IH.
Qed.

Lemma path_join_scoped (p : path) (scope child : string) :
  Str.no_slash scope = true → Str.no_slash child = true →
  path_join (path_join p scope) child = path_join p (scope +:+ "/" +:+ child).
Proof.
  intros Hscope Hchild. unfold path_join.
  by rewrite split_slash_scoped, !split_slash_no_slash.
Qed.

Section Hits.
Context (fs : FileSystem) (targetPackage : string).

Lemma walk_hits (Hwf : well_formed fs) fuel nodeModulesPath depth maxDepth st :
  Forall (pushed_at fs targetPackage)
    (walk fuel fs nodeModulesPath targetPackage depth maxDepth st).1.
Proof.
  revert nodeModulesPath depth st.
  induction fuel as [|fuel IH]; intros root depth st; [by constructor|].
  rewrite walk_S. destruct (_ || _); [by constructor|].
  destruct (cycleCheck fs root st) as [st1|]; [|by constructor].
  destruct (readdirSync fs root) as [entries|] eqn:Hdir; [|by constructor].
  destruct (Hwf _ _ Hdir) as [_ Hclean]. rewrite Forall_forall in Hclean.
  apply for_of_Forall. intros entry s Hentry. apply Forall_forall. intros i Hi.
  apply elem_of_rootEntry in Hi as [_ [[_ Hi]|[(_ & _ & Hi)|(_ & _ & Hi)]]].
  - apply elem_of_findInPnpmDirectory in Hi as (? & e & _ & _ & _ & _ & _ & ->).
    by eexists.
  - destruct Hi as (children & child & Hchildren & Hchild & _ & [[Hname ->]|[_ [s' Hi]]]).
    + exists root. cbn. f_equal. rewrite <- Hname.
      destruct (Hwf _ _ Hchildren) as [_ Hclean']. rewrite Forall_forall in Hclean'.
      apply path_join_scoped.
      * by apply (is_name_spec (Dirent.name entry)), Hclean.
      * by apply (is_name_spec (Dirent.name child)), Hclean'.
    + pose proof (IH (path_join (path_join (path_join root (Dirent.name entry))
                                           (Dirent.name child)) "node_modules")
                    (depth + 1) s') as Hall.
      rewrite Forall_forall in Hall. by apply Hall.
  - destruct Hi as [[Hname ->]|[_ [s' Hi]]]; [exists root; by rewrite <- Hname|].
    pose proof (IH (path_join (path_join root (Dirent.name entry)) "node_modules")
                  (depth + 1) s') as Hall.
    rewrite Forall_forall in Hall. by apply Hall.
Qed.
End Hits.

Lemma readVersion_cases (fs : FileSystem) (pkgJsonPath : path) :
  js_truthy (Some (readVersion fs pkgJsonPath)) = true
  ∧ (readVersion fs pkgJsonPath = JString "unknown"
     ∨ ∃ pkgJson,
         existsSync fs pkgJsonPath = true
         ∧ readJsonSync fs pkgJsonPath = Some pkgJson
         ∧ get_version pkgJson = Some (Some (readVersion fs pkgJsonPath))).
Proof.
  unfold readVersion. destruct (existsSync fs pkgJsonPath); [|by split; [|left]].
  destruct (readJsonSync fs pkgJsonPath) as [pkgJson|]; [|by split; [|left]].
  destruct (get_version pkgJson) as [[v|]|] eqn:Hv; try by split; [|left].
  destruct (js_truthy (Some v)) eqn:Htruthy; [|by split; [|left]].
  cbn. split; [done|]. right. by exists pkgJson.
Qed.

(** X4: every instance that a search for [targetPackage] returns is a
    directory [path.join(dir, targetPackage)] for some directory [dir]:
    the walker reports nothing under another name. *)
Theorem findInstances_located (fs : FileSystem) (nodeModulesPath : path)
    (targetPackage : string) (i : Instance.t) :
  well_formed fs →
  i ∈ findInstances fs nodeModulesPath targetPackage →
  ∃ dir, Instance.path i = path_join dir targetPackage.
Proof.
  intros Hwf Hi.
  pose proof (walk_hits fs targetPackage Hwf 6 nodeModulesPath 0 5 fresh) as Hall.
  rewrite Forall_forall in Hall. destruct (Hall _ Hi) as [dir Hdir].
  exists dir. by rewrite Hdir.
Qed.

(** The copy of the package in the install directory of the example
    project. *)
Lemma findInstances_located_witness :
  ∃ dir, Ex.root ++ ["evil-pkg"] = path_join dir "evil-pkg".
Proof.
  apply (findInstances_located (Table.fs Ex.twice) Ex.root "evil-pkg"
           {| Instance.path := Ex.root ++ ["evil-pkg"];
              Instance.version := JString "1.0.0"; Instance.depth := 0 |}).
  - apply Table_well_formed. vm_compute. reflexivity.
  - vm_compute. right. left.
Defined.

(** X5: the version of an instance is never falsy: it is the string
    ["unknown"], or the truthy [version] of the manifest that lies in
    the instance's own directory.  An empty string, [0], [false] or
    [null] in the manifest is reported as ["unknown"]. *)
Theorem findInstances_version (fs : FileSystem) (nodeModulesPath : path)
    (targetPackage : string) (i : Instance.t) :
  well_formed fs →
  i ∈ findInstances fs nodeModulesPath targetPackage →
  js_truthy (Some (Instance.version i)) = true
  ∧ (Instance.version i = JString "unknown"
     ∨ ∃ pkgJson,
         existsSync fs (path_join (Instance.path i) "package.json") = true
         ∧ readJsonSync fs (path_join (Instance.path i) "package.json") = Some pkgJson
         ∧ get_version pkgJson = Some (Some (Instance.version i))).
Proof.
  intros Hwf Hi.
  pose proof (walk_hits fs targetPackage Hwf 6 nodeModulesPath 0 5 fresh) as Hall.
  rewrite Forall_forall in Hall. destruct (Hall _ Hi) as [dir Hdir].
  rewrite Hdir. cbn. apply readVersion_cases.
Qed.

(** The nested copy of the package, whose manifest says [v1.0.0]. *)
Lemma findInstances_version_witness :
  js_truthy (Some (JString "v1.0.0")) = true
  ∧ (JString "v1.0.0" = JString "unknown"
     ∨ ∃ pkgJson,
         existsSync (Table.fs Ex.twice)
           (path_join (Ex.root ++ ["a"; "node_modules"; "evil-pkg"]) "package.json") = true
         ∧ readJsonSync (Table.fs Ex.twice)
             (path_join (Ex.root ++ ["a"; "node_modules"; "evil-pkg"]) "package.json")
           = Some pkgJson
         ∧ get_version pkgJson = Some (Some (JString "v1.0.0"))).
Proof.
  apply (findInstances_version (Table.fs Ex.twice) Ex.root "evil-pkg"
           {| Instance.path := Ex.root ++ ["a"; "node_modules"; "evil-pkg"];
              Instance.version := JString "v1.0.0"; Instance.depth := 1 |}).
  - apply Table_well_formed. vm_compute. reflexivity.
  - vm_compute. left.
Defined.

(** ** The manifest scanner: properties *)

Lemma Sample_refs :
  (scanPackageJsonDependencies (Table.fs Sample.project) Sample.root
     (Map_keys Sample.blacklist) 0 5 fresh).1
  = [Sample.ref_a; Sample.ref_b; Sample.ref_c].
Proof. vm_compute. reflexivity. Qed.

(** X6: the object that merges the four dependency groups of a manifest
    holds each name once, with the value of the last group that
    declares it, in the order [dependencies], [devDependencies],
    [peerDependencies], [optionalDependencies]; the values of earlier
    groups are dropped.  Only the manifest [null] makes the merge
    throw. *)
Theorem allDeps_last_group (pkgJson : json) :
  (allDeps pkgJson = None ↔ pkgJson = JNull)
  ∧ ∀ deps, allDeps pkgJson = Some deps →
            NoDup deps.*1 ∧ ∀ k, assoc_get deps k = declaredRange pkgJson k.
Proof.
  split.
  - split; [|by intros ->]. by destruct pkgJson.
  - intros deps Hdeps. split; [by eapply allDeps_keys_NoDup|].
    intros k. by apply allDeps_lookup.
Qed.

(** The manifest of [a]: the range of [optionalDependencies] replaces
    the one of [dependencies]. *)
Lemma allDeps_last_group_witness :
  allDeps Sample.manifest_a
  = Some [("evil-pkg", JString "2.x"); ("left-pad", JString "1.3.0")]
  ∧ NoDup ["evil-pkg"; "left-pad"]
  ∧ declaredRange Sample.manifest_a "evil-pkg" = Some (JString "2.x").
Proof.
  split; [vm_compute; reflexivity|].
  destruct (allDeps_last_group Sample.manifest_a) as [_ Hmerge].
  destruct (Hmerge [("evil-pkg", JString "2.x"); ("left-pad", JString "1.3.0")])
    as [Hnd Hget]; [vm_compute; reflexivity|].
  split; [exact Hnd|]. by rewrite <- Hget.
Defined.

(** X7: the scanner matches by name only.  Every reference it returns
    names a member of [compromisedPackages], and its version is the
    value that the manifest in the directory [foundIn] declares for that
    name; no version or range is compared with the blacklist. *)
Theorem scanPackageJsonDependencies_name_only (fs : FileSystem)
    (nodeModulesPath : path) (compromisedPackages : list string) (depth maxDepth : nat)
    (st : WalkState) (r : DependencyRef.t) :
  r ∈ (scanPackageJsonDependencies fs nodeModulesPath compromisedPackages depth
         maxDepth st).1 →
  DependencyRef.compromisedPackage r ∈ compromisedPackages
  ∧ ∃ pkgJson,
      existsSync fs (path_join (DependencyRef.foundIn r) "package.json") = true
      ∧ readJsonSync fs (path_join (DependencyRef.foundIn r) "package.json") = Some pkgJson
      ∧ declaredRange pkgJson (DependencyRef.compromisedPackage r)
        = Some (DependencyRef.version r).
Proof.
  intros (p & n & d & _ & Hr)%scan_origin.
  apply elem_of_manifestRefs in Hr as (pkgJson & deps & k & v & Hex & Hread & Hdeps
                                       & Hin & Hk & ->).
  cbn. split; [done|]. exists pkgJson. split; [done|]. split; [done|].
  rewrite <- (allDeps_lookup _ _ _ Hdeps).
  apply assoc_get_NoDup; [by eapply allDeps_keys_NoDup|done].
Qed.

(** The reference found in the manifest of [a]. *)
Lemma scanPackageJsonDependencies_name_only_witness :
  "evil-pkg" ∈ Map_keys Sample.blacklist
  ∧ ∃ pkgJson,
      existsSync (Table.fs Sample.project)
        (path_join (Sample.root ++ ["a"]) "package.json") = true
      ∧ readJsonSync (Table.fs Sample.project)
          (path_join (Sample.root ++ ["a"]) "package.json") = Some pkgJson
      ∧ declaredRange pkgJson "evil-pkg" = Some (JString "2.x").
Proof.
  apply (scanPackageJsonDependencies_name_only (Table.fs Sample.project) Sample.root
           (Map_keys Sample.blacklist) 0 5 fresh Sample.ref_a).
  rewrite Sample_refs. left.
Defined.

(** X8: a call of the scanner deeper than [maxDepth] returns the empty
    array, and every reference carries a depth between the depth of the
    call and [maxDepth]: the scanner has no branch that records
    [depth + 1]. *)
Theorem scanPackageJsonDependencies_depth (fs : FileSystem) (nodeModulesPath : path)
    (compromisedPackages : list string) (depth maxDepth : nat) (st : WalkState) :
  (maxDepth < depth →
   scanPackageJsonDependencies fs nodeModulesPath compromisedPackages depth maxDepth st
   = ([], st))
  ∧ Forall (λ r, depth ≤ DependencyRef.depth r ≤ maxDepth)
      (scanPackageJsonDependencies fs nodeModulesPath compromisedPackages depth
         maxDepth st).1.
Proof.
  split.
  - intros Hdeep. rewrite scanPackageJsonDependencies_unfold.
    by rewrite (proj2 (Nat.ltb_lt _ _) Hdeep).
  - apply Forall_forall. intros r (p & n & d & Hd & Hr)%scan_origin.
    by apply elem_of_manifestRefs in Hr as (? & ? & ? & ? & _ & _ & _ & _ & _ & ->).
Qed.

(** A call at depth 6 under the bound 5, on the install directory of the
    sample project. *)
Lemma scanPackageJsonDependencies_depth_witness :
  5 < 6
  ∧ scanPackageJsonDependencies (Table.fs Sample.project) Sample.root
      (Map_keys Sample.blacklist) 6 5 fresh = ([], fresh).
Proof.
  split; [lia|].
  apply (scanPackageJsonDependencies_depth (Table.fs Sample.project) Sample.root
           (Map_keys Sample.blacklist) 6 5 fresh). lia.
Defined.

(** X9: on a file system whose directories list each entry once, one
    scan returns each combination of declaring directory and referenced
    name at most once. *)
Theorem scanPackageJsonDependencies_once (fs : FileSystem) (nodeModulesPath : path)
    (compromisedPackages : list string) (depth maxDepth : nat) (st : WalkState) :
  well_formed fs →
  NoDup (refKey <$> (scanPackageJsonDependencies fs nodeModulesPath compromisedPackages
                       depth maxDepth st).1).
Proof. intros Hwf. by apply scan_keys. Qed.

(** The scan of the sample project. *)
Lemma scanPackageJsonDependencies_once_witness :
  NoDup [ (Sample.root ++ ["a"], "evil-pkg");
          (Sample.root ++ ["a"; "node_modules"; "b"], "@scope/evil");
          (Sample.root ++ ["@s"; "c"], "evil-pkg") ].
Proof.
  apply (scanPackageJsonDependencies_once (Table.fs Sample.project) Sample.root
           (Map_keys Sample.blacklist) 0 5 fresh).
  apply Table_well_formed. vm_compute. reflexivity.
Defined.

Section ScanComplete.
Context (fs : FileSystem) (compromisedPackages : list string).
Implicit Types (recurse : path → WalkState → list DependencyRef.t * WalkState).

Lemma scanEntry_results nodeModulesPath depth maxDepth st entries entry :
  depth ≤ maxDepth →
  existsSync fs nodeModulesPath = true →
  is_Some (cycleCheck fs nodeModulesPath st) →
  readdirSync fs nodeModulesPath = Some entries →
  entry ∈ entries →
  ∃ s, (scanEntry
          (fun p s => scanPackageJsonDependencies fs p compromisedPackages (depth + 1)
                        maxDepth s)
          fs compromisedPackages nodeModulesPath depth entry s).1
       ⊆ (scanPackageJsonDependencies fs nodeModulesPath compromisedPackages depth
            maxDepth st).1.
Proof.
  intros Hdepth Hex [st1 Hcheck] Hdir Hentry.
  rewrite scanPackageJsonDependencies_unfold.
  rewrite (proj2 (Nat.ltb_ge _ _) Hdepth), Hex, Hcheck, Hdir. cbn [orb negb].
  by apply for_of_elem_of.
Qed.

Lemma manifestRefs_declared packagePath packageName depth pkgJson k v :
  existsSync fs (path_join packagePath "package.json") = true →
  readJsonSync fs (path_join packagePath "package.json") = Some pkgJson →
  k ∈ compromisedPackages →
  declaredRange pkgJson k = Some v →
  {| DependencyRef.foundIn := packagePath;
     DependencyRef.foundInPackageName := packageName;
     DependencyRef.compromisedPackage := k;
     DependencyRef.version := v;
     DependencyRef.depth := depth |}
  ∈ manifestRefs fs compromisedPackages packagePath packageName depth.
Proof.
  intros Hex Hread Hk Hrange. apply elem_of_manifestRefs.
  destruct (allDeps pkgJson) as [deps|] eqn:Hdeps.
  - exists pkgJson, deps, k, v. repeat split; try done.
    apply assoc_get_Some_elem_of. by rewrite (allDeps_lookup _ _ _ Hdeps).
  - by destruct pkgJson.
Qed.

Lemma scanPackage_manifest recurse packagePath packageName depth st :
  manifestRefs fs compromisedPackages packagePath packageName depth
  ⊆ (scanPackage recurse fs compromisedPackages packagePath packageName depth st).1.
Proof.
  unfold scanPackage. destruct (existsSync fs _); [|done].
  destruct (recurse _ st). cbn. intros r Hr. apply elem_of_app. by left.
Qed.
End ScanComplete.

(** X10: the scanner misses no declaration of a package that lies
    directly in a root it reads.  When the root can be read and one of
    its entries is a directory or a link whose manifest declares a
    member of [compromisedPackages] in any of the four groups, the
    reference is returned, whatever happens at the other entries; the
    same holds for a child of a scope directory that can be read.  A
    directory named [.pnpm] is an entry like any other. *)
Theorem scanPackageJsonDependencies_top_level :
  (∀ fs nodeModulesPath compromisedPackages depth maxDepth st entries entry pkgJson k v,
     depth ≤ maxDepth →
     existsSync fs nodeModulesPath = true →
     is_Some (cycleCheck fs nodeModulesPath st) →
     readdirSync fs nodeModulesPath = Some entries →
     entry ∈ entries → skipped entry = false →
     Str.startsWith (Dirent.name entry) "@" = false →
     let packagePath := path_join nodeModulesPath (Dirent.name entry) in
     existsSync fs (path_join packagePath "package.json") = true →
     readJsonSync fs (path_join packagePath "package.json") = Some pkgJson →
     k ∈ compromisedPackages →
     declaredRange pkgJson k = Some v →
     {| DependencyRef.foundIn := packagePath;
        DependencyRef.foundInPackageName := Dirent.name entry;
        DependencyRef.compromisedPackage := k;
        DependencyRef.version := v;
        DependencyRef.depth := depth |}
     ∈ (scanPackageJsonDependencies fs nodeModulesPath compromisedPackages depth
          maxDepth st).1)
  ∧ (∀ fs nodeModulesPath compromisedPackages depth maxDepth st entries entry
       children child pkgJson k v,
     depth ≤ maxDepth →
     existsSync fs nodeModulesPath = true →
     is_Some (cycleCheck fs nodeModulesPath st) →
     readdirSync fs nodeModulesPath = Some entries →
     entry ∈ entries → skipped entry = false →
     Str.startsWith (Dirent.name entry) "@" = true →
     readdirSync fs (path_join nodeModulesPath (Dirent.name entry)) = Some children →
     child ∈ children → skipped child = false →
     let packagePath :=
       path_join (path_join nodeModulesPath (Dirent.name entry)) (Dirent.name child) in
     existsSync fs (path_join packagePath "package.json") = true →
     readJsonSync fs (path_join packagePath "package.json") = Some pkgJson →
     k ∈ compromisedPackages →
     declaredRange pkgJson k = Some v →
     {| DependencyRef.foundIn := packagePath;
        DependencyRef.foundInPackageName :=
          Dirent.name entry +:+ "/" +:+ Dirent.name child;
        DependencyRef.compromisedPackage := k;
        DependencyRef.version := v;
        DependencyRef.depth := depth |}
     ∈ (scanPackageJsonDependencies fs nodeModulesPath compromisedPackages depth
          maxDepth st).1).
Proof.
  split.
  - intros fs root cp depth maxDepth st entries entry pkgJson k v
      Hdepth Hex Hcheck Hdir Hentry Hskip Hscope packagePath Hman Hread Hk Hrange.
    destruct (scanEntry_results fs cp root depth maxDepth st entries entry)
      as [s Hs]; try done.
    apply Hs. unfold scanEntry. rewrite Hskip, Hscope.
    by apply scanPackage_manifest, manifestRefs_declared with pkgJson.
  - intros fs root cp depth maxDepth st entries entry children child pkgJson k v
      Hdepth Hex Hcheck Hdir Hentry Hskip Hscope Hchildren Hchild Hskip'
      packagePath Hman Hread Hk Hrange.
    destruct (scanEntry_results fs cp root depth maxDepth st entries entry)
      as [s Hs]; try done.
    apply Hs. unfold scanEntry. rewrite Hskip, Hscope, Hchildren.
    match goal with
    | |- _ ∈ (for_of ?body children s).1 =>
        destruct (for_of_elem_of body children s child Hchild) as [s' Hs']
    end.
    apply Hs'. cbn beta. rewrite Hskip'.
    by apply scanPackage_manifest, manifestRefs_declared with pkgJson.
Qed.

(** The package [a] of the sample project, which declares [evil-pkg] in
    two groups, and the scoped package [@s/c]. *)
Lemma scanPackageJsonDependencies_top_level_witness :
  Sample.ref_a
    ∈ (scanPackageJsonDependencies (Table.fs Sample.project) Sample.root
         (Map_keys Sample.blacklist) 0 5 fresh).1
  ∧ Sample.ref_c
    ∈ (scanPackageJsonDependencies (Table.fs Sample.project) Sample.root
         (Map_keys Sample.blacklist) 0 5 fresh).1.
Proof.
  destruct scanPackageJsonDependencies_top_level as [Hplain Hscoped]. split.
  - apply (Hplain (Table.fs Sample.project) Sample.root (Map_keys Sample.blacklist)
             0 5 fresh
             [Table.dir "a"; Table.dir "@s"; Table.file ".package-lock.json"]
             (Table.dir "a") Sample.manifest_a "evil-pkg" (JString "2.x"));
      try (vm_compute; reflexivity); try lia.
    + by eexists.
    + left.
    + vm_compute. left.
  - apply (Hscoped (Table.fs Sample.project) Sample.root (Map_keys Sample.blacklist)
             0 5 fresh
             [Table.dir "a"; Table.dir "@s"; Table.file ".package-lock.json"]
             (Table.dir "@s") [Table.dir "c"] (Table.dir "c")
             Sample.manifest_c "evil-pkg" (JString "1.0.0"));
      try (vm_compute; reflexivity); try lia.
    + by eexists.
    + right. left.
    + left.
    + vm_compute. left.
Defined.

(** ** The manifest of the project: lemmas *)

Section PushUntil.
Context {A : Type} (throws : A → bool).

Lemma push_until_app (l1 l2 : list A) :
  push_until throws (l1 ++ l2)
  = if (push_until throws l1).2 then push_until throws l1
    else ((push_until throws l1).1 ++ (push_until throws l2).1,
          (push_until throws l2).2).
Proof.
  induction l1 as [|x l1 IH]; cbn; [by destruct (push_until throws l2)|].
  destruct (throws x); [done|]. rewrite IH.
  destruct (push_until throws l1) as [p1 []]; cbn; [done|].
  by destruct (push_until throws l2).
Qed.

Lemma push_until_prefix (l : list A) : (push_until throws l).1 `prefix_of` l.
Proof.
  induction l as [|x l IH]; cbn; [done|].
  destruct (throws x); cbn; [by apply prefix_cons, prefix_nil|].
  destruct (push_until throws l). by apply prefix_cons.
Qed.

Lemma push_until_all (l : list A) :
  Forall (λ x, throws x = false) l → push_until throws l = (l, false).
Proof.
  induction 1 as [|x l Hx _ IH]; cbn; [done|]. by rewrite Hx, IH.
Qed.

(** When the loop stops early, the last element pushed is the one whose
    log line threw. *)
Lemma push_until_thrown (l : list A) :
  (push_until throws l).2 = true →
  ∃ x, last (push_until throws l).1 = Some x ∧ throws x = true.
Proof.
  induction l as [|x l IH]; cbn; [done|].
  destruct (throws x) eqn:Hx; cbn; [eauto|].
  destruct (push_until throws l) as [pushed thrown]; cbn in *.
  intros Hthrown. destruct (IH Hthrown) as (y & Hlast & Hy). exists y. split; [|done].
  destruct pushed; [done|]. done.
Qed.
End PushUntil.

Lemma own_props_falsy (deps : option json) : js_truthy deps = false → Js.own_props deps = [].
Proof.
  destruct deps as [[| | |s| |]|]; cbn; try done.
  destruct (String.eqb_spec s "") as [->|]; done.
Qed.

Lemma checkDeps_push_until (m : JsMap) (packageJson : json) (group : string) :
  checkDeps m (Js.member packageJson group) group
  = push_until logThrows (declaredIn m packageJson group).
Proof.
  unfold checkDeps, declaredIn.
  destruct (js_truthy (Js.member packageJson group)) eqn:Htruthy; [done|].
  by rewrite (own_props_falsy _ Htruthy).
Qed.

Lemma checkGroups_push_until (m : JsMap) (packageJson : json) (groups : list string) :
  packageJson ≠ JNull →
  checkGroups m packageJson groups
  = (push_until logThrows (groups ≫= declaredIn m packageJson)).1.
Proof.
  intros Hnull. induction groups as [|group groups IH]; [done|].
  cbn [checkGroups mbind list_bind].
  assert (Js.get_prop packageJson group = Some (Js.member packageJson group)) as ->.
  { unfold Js.member. by destruct packageJson. }
  rewrite checkDeps_push_until, push_until_app, IH.
  by destruct (push_until logThrows (declaredIn m packageJson group)) as [pushed []].
Qed.

Lemma allDeclared_null (m : JsMap) : allDeclared m JNull = [].
Proof. reflexivity. Qed.

Lemma scanPackageJson_push_until (fs : FileSystem) (m : JsMap) (packageJsonPath : path)
    (packageJson : json) :
  existsSync fs packageJsonPath = true →
  readJsonSync fs packageJsonPath = Some packageJson →
  scanPackageJson fs m packageJsonPath
  = (push_until logThrows (allDeclared m packageJson)).1.
Proof.
  intros Hex Hread. unfold scanPackageJson. rewrite Hex, Hread.
  destruct packageJson; [done|by apply checkGroups_push_until..].
Qed.

(** The loop stops right after the first element whose log line
    throws. *)
Lemma push_until_first {A : Type} (throws : A → bool) (before after : list A) (x : A) :
  Forall (λ y, throws y = false) before → throws x = true →
  push_until throws (before ++ x :: after) = (before ++ [x], true).
Proof.
  intros Hbefore Hx. induction Hbefore as [|y before Hy _ IH]; cbn.
  - by rewrite Hx.
  - by rewrite Hy, IH.
Qed.

Lemma push_until_complete {A : Type} (throws : A → bool) (l : list A) :
  (push_until throws l).2 = false → (push_until throws l).1 = l.
Proof.
  induction l as [|x l IH]; cbn; [done|].
  destruct (throws x); [done|].
  destruct (push_until throws l) as [pushed thrown]; cbn in *.
  intros Hthrown. by rewrite IH.
Qed.

Lemma elem_of_allDeclared (m : JsMap) (packageJson : json) (d : Declared.t) :
  d ∈ allDeclared m packageJson ↔
  Declared.group d ∈ dependencyGroups
  ∧ Map_has m (Declared.package d) = true
  ∧ (Declared.package d, Declared.version d)
    ∈ Js.own_props (Js.member packageJson (Declared.group d)).
Proof.
  unfold allDeclared, declaredIn. rewrite list_elem_of_bind. split.
  - intros (group & ([k v] & -> & [Hk Hin]%list_elem_of_filter)%list_elem_of_fmap
            & Hgroup).
    by repeat split.
  - intros (Hgroup & Hk & Hin). exists (Declared.group d). split; [|done].
    apply list_elem_of_fmap. exists (Declared.package d, Declared.version d).
    split; [by destruct d|]. by apply list_elem_of_filter.
Qed.

Lemma scanPackageJson_allDeclared (fs : FileSystem) (m : JsMap) (packageJsonPath : path)
    (d : Declared.t) :
  d ∈ scanPackageJson fs m packageJsonPath →
  ∃ packageJson,
    readJsonSync fs packageJsonPath = Some packageJson ∧ d ∈ allDeclared m packageJson.
Proof.
  intros Hd.
  destruct (existsSync fs packageJsonPath) eqn:Hex;
    [|unfold scanPackageJson in Hd; rewrite Hex in Hd; by apply elem_of_nil in Hd].
  destruct (readJsonSync fs packageJsonPath) as [packageJson|] eqn:Hread;
    [|unfold scanPackageJson in Hd; rewrite Hex, Hread in Hd; by apply elem_of_nil in Hd].
  rewrite (scanPackageJson_push_until _ _ _ _ Hex Hread) in Hd.
  destruct (push_until_prefix logThrows (allDeclared m packageJson)) as [rest Hrest].
  exists packageJson. split; [done|]. rewrite Hrest. apply elem_of_app. by left.
Qed.

(** ** The manifest of the project: properties *)

(** X11: the check of the project manifest reports by name only and
    merges nothing.  Every finding names a key of the index and one of
    the four groups, with the value that the manifest stores under that
    name in that group.  When no log line of a declared name throws,
    the converse holds: each key of the index that a group declares is
    reported with that group and its value, so a name declared in two
    groups is reported for each. *)
Theorem scanPackageJson_sound (fs : FileSystem) (m : JsMap) (packageJsonPath : path) :
  (∀ d, d ∈ scanPackageJson fs m packageJsonPath →
     Map_has m (Declared.package d) = true
     ∧ Declared.group d ∈ dependencyGroups
     ∧ ∃ packageJson,
         readJsonSync fs packageJsonPath = Some packageJson
         ∧ (Declared.package d, Declared.version d)
           ∈ Js.own_props (Js.member packageJson (Declared.group d)))
  ∧ (∀ packageJson group k v,
       existsSync fs packageJsonPath = true →
       readJsonSync fs packageJsonPath = Some packageJson →
       Forall (λ d, logThrows d = false) (allDeclared m packageJson) →
       group ∈ dependencyGroups →
       Map_has m k = true →
       (k, v) ∈ Js.own_props (Js.member packageJson group) →
       {| Declared.package := k; Declared.version := v; Declared.group := group |}
       ∈ scanPackageJson fs m packageJsonPath).
Proof.
  split.
  - intros d (packageJson & Hread & Hall)%scanPackageJson_allDeclared.
    apply elem_of_allDeclared in Hall as (Hgroup & Hk & Hin). eauto.
  - intros packageJson group k v Hex Hread Hquiet Hgroup Hk Hin.
    rewrite (scanPackageJson_push_until _ _ _ _ Hex Hread), push_until_all by done.
    by apply elem_of_allDeclared.
Qed.

(** The two findings of the sample project: [evil-pkg] is declared in
    two groups. *)
Lemma scanPackageJson_sound_witness :
  {| Declared.package := "evil-pkg"; Declared.version := JString "^1.0.0";
     Declared.group := "dependencies" |}
  ∈ scanPackageJson (Table.fs Sample.project) Sample.blacklist ["p"; "package.json"]
  ∧ {| Declared.package := "evil-pkg"; Declared.version := JString "1.0.0";
       Declared.group := "devDependencies" |}
    ∈ scanPackageJson (Table.fs Sample.project) Sample.blacklist ["p"; "package.json"].
Proof.
  destruct (scanPackageJson_sound (Table.fs Sample.project) Sample.blacklist
              ["p"; "package.json"]) as [_ Hall].
  split; apply (Hall Sample.manifest_project); try (vm_compute; reflexivity).
  - vm_compute. repeat constructor.
  - left.
  - vm_compute. left.
  - vm_compute. repeat constructor.
  - right. left.
  - vm_compute. right. left.
Defined.

(** X12: what the check of the project manifest returns.  Nothing, when
    the manifest is missing, cannot be read or parsed, or is [null].
    Otherwise the declared blacklisted names of the four groups, in
    order: all of them when no log line throws, and else those up to and
    including the first one whose log line throws.  The exception is
    caught and the findings after it are lost. *)
Theorem scanPackageJson_findings (fs : FileSystem) (m : JsMap) (packageJsonPath : path) :
  (existsSync fs packageJsonPath = false
   ∨ readJsonSync fs packageJsonPath = None
   ∨ readJsonSync fs packageJsonPath = Some JNull →
   scanPackageJson fs m packageJsonPath = [])
  ∧ (∀ packageJson,
       existsSync fs packageJsonPath = true →
       readJsonSync fs packageJsonPath = Some packageJson →
       Forall (λ d, logThrows d = false) (allDeclared m packageJson) →
       scanPackageJson fs m packageJsonPath = allDeclared m packageJson)
  ∧ (∀ packageJson before d after,
       existsSync fs packageJsonPath = true →
       readJsonSync fs packageJsonPath = Some packageJson →
       allDeclared m packageJson = before ++ d :: after →
       Forall (λ d', logThrows d' = false) before →
       logThrows d = true →
       scanPackageJson fs m packageJsonPath = before ++ [d]).
Proof.
  split; [|split].
  - unfold scanPackageJson. intros [->|[->| ->]]; [done| |]; by destruct (existsSync _ _).
  - intros packageJson Hex Hread Hquiet.
    rewrite (scanPackageJson_push_until _ _ _ _ Hex Hread). by rewrite push_until_all.
  - intros packageJson before d after Hex Hread Hall Hbefore Hd.
    rewrite (scanPackageJson_push_until _ _ _ _ Hex Hread), Hall.
    by rewrite push_until_first.
Qed.

(** A manifest that declares [@scope/evil], then [evil-pkg] with a range
    that cannot be logged, then [evil-pkg] again in the next group: the
    first two findings are kept and the third is lost. *)
Lemma scanPackageJson_findings_witness :
  let first := {| Declared.package := "@scope/evil"; Declared.version := JString "1.0.0";
                  Declared.group := "dependencies" |} in
  let second := {| Declared.package := "evil-pkg"; Declared.version := Hostile.range;
                   Declared.group := "dependencies" |} in
  let third := {| Declared.package := "evil-pkg"; Declared.version := JString "2.0.0";
                  Declared.group := "devDependencies" |} in
  allDeclared Sample.blacklist Hostile.late = [first] ++ second :: [third]
  ∧ logThrows first = false
  ∧ logThrows second = true
  ∧ scanPackageJson (Table.fs Hostile.late_project) Sample.blacklist ["p"; "package.json"]
    = [first] ++ [second].
Proof.
  cbv zeta. split; [vm_compute; reflexivity|]. split; [vm_compute; reflexivity|].
  split; [vm_compute; reflexivity|].
  destruct (scanPackageJson_findings (Table.fs Hostile.late_project) Sample.blacklist
              ["p"; "package.json"]) as (_ & _ & Hfirst).
  apply (Hfirst Hostile.late _ _
           [ {| Declared.package := "evil-pkg"; Declared.version := JString "2.0.0";
                Declared.group := "devDependencies" |} ]);
    try (vm_compute; reflexivity).
  constructor; [vm_compute; reflexivity|constructor].
Defined.

(** ** The whole run: lemmas *)

#[local] Arguments scanPackageJsonDependencies : simpl never.
#[local] Arguments scanInstalled : simpl never.
#[local] Arguments scanPackageJson : simpl never.

Lemma isCompromised_None (m : JsMap) (pkg : string) (v : json) :
  isCompromised m pkg v = None ↔ Map_has m pkg = true ∧ ∀ s, v ≠ JString s.
Proof.
  unfold isCompromised. destruct (Map_has m pkg) eqn:Hhas; cbn.
  - apply Map_has_get in Hhas as [vs ->]. split.
    + intros Hv. split; [done|]. intros s ->. done.
    + intros [_ Hv]. destruct v; try done. by destruct (Hv s).
  - split; [done|]. by intros [? _].
Qed.

Lemma mapM_None {A B : Type} (f : A → option B) (l : list A) :
  mapM f l = None ↔ ∃ x, x ∈ l ∧ f x = None.
Proof.
  induction l as [|x l IH]; cbn.
  - split; [done|]. by intros (? & ?%elem_of_nil & _).
  - destruct (f x) as [y|] eqn:Hx; cbn.
    + destruct (mapM f l) as [k|]; cbn.
      * split; [done|]. intros (x' & [->|Hin]%elem_of_cons & Hx'); [congruence|].
        assert (Some k = None) as Habs by (apply IH; eauto). done.
      * split; [|done]. intros _. destruct (proj1 IH eq_refl) as (x' & Hin & Hx').
        exists x'. split; [by right|done].
    + split; [|done]. intros _. exists x. split; [left|done].
Qed.

Lemma scanInstalled_None (fs : FileSystem) (m : JsMap) (nodeModules : path) :
  scanInstalled fs m nodeModules = None ↔
  ∃ pkg i, pkg ∈ Map_keys m ∧ i ∈ findInstances fs nodeModules pkg
           ∧ ∀ s, Instance.version i ≠ JString s.
Proof.
  unfold scanInstalled. rewrite fmap_None, mapM_None. split.
  - intros (pkg & Hpkg & (i & Hi & Hnone)%fmap_None%mapM_None).
    exists pkg, i. split; [done|]. split; [done|].
    rewrite reportInstance_eq in Hnone.
    destruct (isCompromised m pkg (Instance.version i)) as [[]|] eqn:Hflag; try done.
    by apply isCompromised_None in Hflag as [_ ?].
  - intros (pkg & i & Hpkg & Hi & Hv). exists pkg. split; [done|].
    apply fmap_None, mapM_None. exists i. split; [done|].
    rewrite reportInstance_eq.
    assert (isCompromised m pkg (Instance.version i) = None) as ->; [|done].
    apply isCompromised_None. split; [|done]. by apply Map_has_get, Map_keys_get.
Qed.

Lemma elem_of_scanInstalled (fs : FileSystem) (m : JsMap) (nodeModules : path)
    (found : list Finding.t) (f : Finding.t) :
  scanInstalled fs m nodeModules = Some found →
  f ∈ found ↔
  ∃ pkg i, pkg ∈ Map_keys m ∧ i ∈ findInstances fs nodeModules pkg
           ∧ isCompromised m pkg (Instance.version i) = Some true
           ∧ f = finding m pkg i.
Proof.
  intros ->%scanInstalled_Some. rewrite list_elem_of_bind. unfold reported. split.
  - intros (pkg & (i & -> & [Hflag Hi]%list_elem_of_filter)%list_elem_of_fmap & Hpkg).
    by exists pkg, i.
  - intros (pkg & i & Hpkg & Hi & Hflag & ->). exists pkg. split; [|done].
    apply list_elem_of_fmap. exists i. split; [done|]. by apply list_elem_of_filter.
Qed.

(** ** The whole run: properties *)

(** X13: when the run ends with an uncaught exception and writes no
    report.  Exactly when [node_modules] exists and either some
    directory found under a blacklisted name has a manifest whose truthy
    [version] is not a string, or some dependency reference carries a
    range whose conversion to a string throws.  Nothing in the manifest
    of the project, and no unreadable file or directory, ends the
    run. *)
Theorem main_throws_iff (fs : FileSystem) (m : JsMap) (targetDir : path) :
  main fs m targetDir = None ↔
  existsSync fs (path_join targetDir "node_modules") = true
  ∧ ((∃ pkg i,
        pkg ∈ Map_keys m
        ∧ i ∈ findInstances fs (path_join targetDir "node_modules") pkg
        ∧ ∀ s, Instance.version i ≠ JString s)
     ∨ ∃ dep,
         dep ∈ (scanPackageJsonDependencies fs (path_join targetDir "node_modules")
                  (Map_keys m) 0 5 fresh).1
         ∧ Js.toString_throws (DependencyRef.version dep) = true).
Proof.
  unfold main. destruct (existsSync fs _); cbn; [|split; [done|by intros [? _]]].
  destruct (scanInstalled fs m _) as [inst|] eqn:Hinst; cbn.
  - destruct (existsb _ _) eqn:Hthrows; cbn.
    + split; [|done]. intros _. split; [done|]. right.
      apply existsb_exists in Hthrows as (dep & Hdep%list_elem_of_In & Hdep').
      by exists dep.
    + split; [done|]. intros [_ [Hversion|(dep & Hdep & Hdep')]].
      * apply scanInstalled_None in Hversion. congruence.
      * assert (existsb (λ dep, Js.toString_throws (DependencyRef.version dep))
                  (scanPackageJsonDependencies fs (path_join targetDir "node_modules")
                     (Map_keys m) 0 5 fresh).1 = true) as Htrue; [|congruence].
        apply existsb_exists. exists dep. split; [by apply list_elem_of_In|done].
  - split; [|done]. intros _. split; [done|]. left. by apply scanInstalled_None.
Qed.

Lemma scanPackageJsonDependencies_keys (fs : FileSystem) (nodeModulesPath : path)
    (compromisedPackages : list string) (depth maxDepth : nat) (st : WalkState)
    (dep : DependencyRef.t) :
  dep ∈ (scanPackageJsonDependencies fs nodeModulesPath compromisedPackages depth
           maxDepth st).1 →
  DependencyRef.compromisedPackage dep ∈ compromisedPackages.
Proof.
  intros (p & n & d & _ & Hr)%scan_origin.
  by apply elem_of_manifestRefs in Hr as (? & ? & ? & ? & _ & _ & _ & _ & ? & ->).
Qed.

Lemma main_Some (fs : FileSystem) (m : JsMap) (targetDir : path) (results : Results) :
  main fs m targetDir = Some results →
  ∃ found,
    results = summarize {| foundInNodeModules := found;
                           foundInPackageJson :=
                             scanPackageJson fs m (path_join targetDir "package.json");
                           summary := {| safe := true; totalIssues := 0;
                                         criticalLevel := none |} |}
    ∧ if existsSync fs (path_join targetDir "node_modules") then
        ∃ inst,
          scanInstalled fs m (path_join targetDir "node_modules") = Some inst
          ∧ found = inst ++ (reportDependency m
                               <$> (scanPackageJsonDependencies fs
                                      (path_join targetDir "node_modules")
                                      (Map_keys m) 0 5 fresh).1)
      else found = [].
Proof.
  unfold main. destruct (existsSync fs _); cbn.
  - destruct (scanInstalled fs m _) as [inst|]; cbn; [|done].
    destruct (existsb _ _); cbn; [done|]. intros [= <-]. eauto.
  - intros [= <-]. eauto.
Qed.

(** X14: what a report holds.  Its [node_modules] findings are exactly
    the directories that the walker found under a blacklisted name and
    whose version string matches the index, and every dependency
    reference of the manifest scanner, whatever range it carries; its
    [package.json] findings are those of the check of the project
    manifest. *)
Theorem main_findings (fs : FileSystem) (m : JsMap) (targetDir : path)
    (results : Results) :
  main fs m targetDir = Some results →
  (∀ f, f ∈ foundInNodeModules results ↔
        existsSync fs (path_join targetDir "node_modules") = true
        ∧ ((∃ pkg i,
              pkg ∈ Map_keys m
              ∧ i ∈ findInstances fs (path_join targetDir "node_modules") pkg
              ∧ isCompromised m pkg (Instance.version i) = Some true
              ∧ f = finding m pkg i)
           ∨ ∃ dep,
               dep ∈ (scanPackageJsonDependencies fs (path_join targetDir "node_modules")
                        (Map_keys m) 0 5 fresh).1
               ∧ f = reportDependency m dep))
  ∧ foundInPackageJson results
    = scanPackageJson fs m (path_join targetDir "package.json").
Proof.
  intros (found & -> & Hfound)%main_Some. split; [|done]. intros f. cbn.
  destruct (existsSync fs _).
  - destruct Hfound as (inst & Hinst & ->).
    rewrite elem_of_app, (elem_of_scanInstalled _ _ _ _ _ Hinst), list_elem_of_fmap.
    split.
    + intros [Hinstalled|(dep & -> & Hdep)]; (split; [done|]); [by left|].
      right. by exists dep.
    + intros [_ [Hinstalled|(dep & Hdep & ->)]]; [by left|]. right. by exists dep.
  - subst found. split; [by intros ?%elem_of_nil|]. by intros [? _].
Qed.

(** The report of the sample project holds the reference found in the
    manifest of [a]. *)
Lemma main_findings_witness :
  ∃ results,
    main (Table.fs Sample.project) Sample.blacklist ["p"] = Some results
    ∧ reportDependency Sample.blacklist Sample.ref_a ∈ foundInNodeModules results
    ∧ length (foundInPackageJson results) = 2.
Proof.
  eexists. split; [vm_compute; reflexivity|].
  edestruct (main_findings (Table.fs Sample.project) Sample.blacklist ["p"])
    as [Hfound Hdeclared]; [vm_compute; reflexivity|].
  split.
  - apply Hfound. split; [vm_compute; reflexivity|]. right. exists Sample.ref_a.
    split; [|done]. vm_compute. left.
  - by rewrite Hdeclared.
Defined.

(** X15: a report names only packages of the index, and attaches to
    each [node_modules] finding the version array that the index holds
    for it. *)
Theorem main_names_blacklisted (fs : FileSystem) (m : JsMap) (targetDir : path)
    (results : Results) :
  main fs m targetDir = Some results →
  Forall (λ f, Finding.package f ∈ Map_keys m
               ∧ Map_get m (Finding.package f) = Some (Finding.compromisedVersions f))
    (foundInNodeModules results)
  ∧ Forall (λ d, Declared.package d ∈ Map_keys m) (foundInPackageJson results).
Proof.
  intros (found & -> & Hfound)%main_Some. cbn. split.
  - assert (∀ k, k ∈ Map_keys m → Map_get m k = Some (default [] (Map_get m k))) as Hget.
    { intros k [vs ->]%Map_keys_get. done. }
    destruct (existsSync fs _); [|subst found; constructor].
    destruct Hfound as (inst & Hinst & ->). apply Forall_forall. intros f.
    rewrite elem_of_app, (elem_of_scanInstalled _ _ _ _ _ Hinst), list_elem_of_fmap.
    intros [(pkg & i & Hpkg & _ & _ & ->)|(dep & -> & Hdep)]; cbn.
    + split; [done|]. by apply Hget.
    + apply scanPackageJsonDependencies_keys in Hdep. split; [done|]. by apply Hget.
  - apply Forall_forall. intros d Hd. apply Map_keys_get, Map_has_get.
    apply scanPackageJson_allDeclared in Hd as (packageJson & _ & Hd).
    by apply elem_of_allDeclared in Hd as (_ & ? & _).
Qed.

(** The report of the sample project. *)
Lemma main_names_blacklisted_witness :
  ∃ results,
    main (Table.fs Sample.project) Sample.blacklist ["p"] = Some results
    ∧ Finding.package <$> foundInNodeModules results
      = ["evil-pkg"; "@scope/evil"; "evil-pkg"]
    ∧ Forall (λ d, Declared.package d ∈ Map_keys Sample.blacklist)
        (foundInPackageJson results).
Proof.
  eexists. split; [vm_compute; reflexivity|]. split; [vm_compute; reflexivity|].
  apply (main_names_blacklisted (Table.fs Sample.project) Sample.blacklist ["p"]).
  vm_compute. reflexivity.
Defined.

(** X16: the exit code of a run that writes its report is 0 exactly
    when the report has no finding at all, and 1 otherwise; the report
    is marked safe in exactly that case, its issue count is the number
    of its findings, and its risk level is [none] exactly when it is
    safe. *)
Theorem main_exit_code (fs : FileSystem) (m : JsMap) (targetDir : path)
    (results : Results) :
  main fs m targetDir = Some results →
  (exitCode results = 0
   ↔ foundInNodeModules results = [] ∧ foundInPackageJson results = [])
  ∧ (exitCode results = 0 ∨ exitCode results = 1)
  ∧ (safe (summary results) = true ↔ exitCode results = 0)
  ∧ totalIssues (summary results)
    = length (foundInNodeModules results) + length (foundInPackageJson results)
  ∧ (criticalLevel (summary results) = none ↔ exitCode results = 0).
Proof.
  intros (found & -> & _)%main_Some. unfold exitCode. cbn.
  destruct found as [|f found], (scanPackageJson fs m _) as [|d declared]; cbn;
    repeat split; try done; try (by left); try (by right); try (by intros [? ?]).
Qed.

(** The report of the sample project: five findings, exit code 1. *)
Lemma main_exit_code_witness :
  ∃ results,
    main (Table.fs Sample.project) Sample.blacklist ["p"] = Some results
    ∧ totalIssues (summary results) = 5
    ∧ exitCode results = 1.
Proof.
  eexists. split; [vm_compute; reflexivity|].
  edestruct (main_exit_code (Table.fs Sample.project) Sample.blacklist ["p"])
    as (_ & Hcode & _ & Htotal & _); [vm_compute; reflexivity|].
  split; [exact Htotal|]. destruct Hcode as [Hcode|Hcode]; [discriminate Hcode|exact Hcode].
Defined.

(** ** The manifest scanner: cycle check *)

Section ScanCycle.
Context (fs : FileSystem) (compromisedPackages : list string).
Implicit Types (recurse : path → WalkState → list DependencyRef.t * WalkState).

Lemma scanPackage_grows recurse packagePath packageName depth st :
  (∀ p s, grows fs s (recurse p s).2) →
  grows fs st (scanPackage recurse fs compromisedPackages packagePath packageName
                 depth st).2.
Proof.
  intros Hrec. unfold scanPackage. destruct (existsSync fs _); [|apply grows_refl].
  specialize (Hrec (path_join packagePath "node_modules") st).
  by destruct (recurse _ st).
Qed.

Lemma scanEntry_grows recurse nodeModulesPath depth entry st :
  (∀ p s, grows fs s (recurse p s).2) →
  grows fs st (scanEntry recurse fs compromisedPackages nodeModulesPath depth entry st).2.
Proof.
  intros Hrec. unfold scanEntry. destruct (skipped entry); [apply grows_refl|].
  destruct (Str.startsWith _ _); [|by apply scanPackage_grows].
  destruct (readdirSync fs _); [|apply grows_refl].
  apply for_of_rel; [apply grows_refl|apply grows_trans|].
  intros child s _. cbn beta. destruct (skipped child); [apply grows_refl|].
  by apply scanPackage_grows.
Qed.

Lemma scan_grows fuel nodeModulesPath depth maxDepth st :
  grows fs st (scan fuel fs nodeModulesPath compromisedPackages depth maxDepth st).2.
Proof.
  revert nodeModulesPath depth st.
  induction fuel as [|fuel IH]; intros root depth st; [apply grows_refl|].
  rewrite scan_S. destruct (_ || _); [apply grows_refl|].
  destruct (cycleCheck fs root st) as [st1|] eqn:Hcheck; [|apply grows_refl].
  destruct (readdirSync fs root) as [entries|].
  - eapply grows_trans; [by apply cycleCheck_grows|].
    apply for_of_rel; [apply grows_refl|apply grows_trans|].
    intros entry s _. apply scanEntry_grows. intros p s'. apply IH.
  - by eapply cycleCheck_grows_unread.
Qed.
End ScanCycle.

(** X17: the manifest scanner has the cycle check of the walker.  A
    call whose root resolves to a real path that is already in
    [visitedPaths] returns the empty array and changes nothing; the
    roots whose entries one call and its nested calls read resolve to
    pairwise distinct real paths, none of them in the set the call was
    given.  On the ring where [A] depends on [B] and [B] on [A], the
    scan reads three roots and returns. *)
Theorem scanPackageJsonDependencies_cycle_guard :
  (∀ fs nodeModulesPath compromisedPackages depth maxDepth st real,
     realpathSync fs nodeModulesPath = Some real →
     real ∈ visitedPaths st →
     scanPackageJsonDependencies fs nodeModulesPath compromisedPackages depth maxDepth st
     = ([], st))
  ∧ (∀ fs nodeModulesPath compromisedPackages depth maxDepth st,
       ∃ new,
         enumerated (scanPackageJsonDependencies fs nodeModulesPath compromisedPackages
                       depth maxDepth st).2 = enumerated st ++ new
         ∧ NoDup (resolved fs new)
         ∧ ∀ real, real ∈ resolved fs new → real ∉ visitedPaths st)
  ∧ enumerated (scanPackageJsonDependencies Ex.ring Ex.root ["A"; "B"] 0 5 fresh).2
    = [ Ex.root; Ex.root ++ ["A"; "node_modules"];
        Ex.root ++ ["A"; "node_modules"; "B"; "node_modules"] ].
Proof.
  split; [|split; [|vm_compute; reflexivity]].
  - intros fs root cp depth maxDepth st real Hreal Hin.
    rewrite scanPackageJsonDependencies_unfold.
    destruct (_ || _); [done|]. unfold cycleCheck. rewrite Hreal.
    by rewrite bool_decide_eq_true_2.
  - intros fs root cp depth maxDepth st.
    destruct (scan_grows fs cp (S maxDepth - depth) root depth maxDepth st)
      as [_ (new & Hlog & Hnd & Hnew)].
    exists new. split; [done|]. split; [done|]. intros real Hin. by apply Hnew.
Qed.

(** On the ring, the install directory of [A] reached again through
    [B], when its real path is in the set. *)
Lemma scanPackageJsonDependencies_cycle_guard_witness :
  realpathSync Ex.ring
    (Ex.root ++ ["A"; "node_modules"; "B"; "node_modules"; "A"; "node_modules"])
  = Some (Ex.root ++ ["A"; "node_modules"])
  ∧ scanPackageJsonDependencies Ex.ring
      (Ex.root ++ ["A"; "node_modules"; "B"; "node_modules"; "A"; "node_modules"])
      ["A"; "B"] 2 5
      {| visitedPaths := {[ Ex.root ++ ["A"; "node_modules"] ]};
         enumerated := [Ex.root ++ ["A"; "node_modules"]] |}
    = ([], {| visitedPaths := {[ Ex.root ++ ["A"; "node_modules"] ]};
              enumerated := [Ex.root ++ ["A"; "node_modules"]] |}).
Proof.
  split; [vm_compute; reflexivity|].
  destruct scanPackageJsonDependencies_cycle_guard as [Hguard _].
  apply (Hguard Ex.ring _ ["A"; "B"] 2 5 _ (Ex.root ++ ["A"; "node_modules"]));
    [vm_compute; reflexivity|]. cbn [visitedPaths]. apply elem_of_singleton. reflexivity.
Defined.

(** The hostile project: the range of the reference found in the
    manifest of [a] cannot be logged. *)
Lemma main_throws_iff_witness :
  main (Table.fs Hostile.project) Sample.blacklist ["p"] = None
  ∧ ∃ results, main (Table.fs Hostile.uninstalled) Sample.blacklist ["p"] = Some results.
Proof.
  split; [|eexists; vm_compute; reflexivity].
  apply (main_throws_iff (Table.fs Hostile.project) Sample.blacklist ["p"]).
  split; [vm_compute; reflexivity|]. right.
  exists {| DependencyRef.foundIn := Sample.root ++ ["a"];
            DependencyRef.foundInPackageName := "a";
            DependencyRef.compromisedPackage := "evil-pkg";
            DependencyRef.version := Hostile.range;
            DependencyRef.depth := 0 |}.
  split; [vm_compute; left|reflexivity].
Defined.

(** ** Trees without links: the cycle check changes nothing *)

Lemma prefix_snoc_inj (root p : path) (n1 n2 : string) :
  (root ++ [n1]) `prefix_of` p → (root ++ [n2]) `prefix_of` p → n1 = n2.
Proof.
  intros [r1 ->] [r2 Heq]. rewrite <- !app_assoc in Heq.
  apply app_inv_head in Heq. by injection Heq.
Qed.

Lemma prefix_snoc_weaken (root p : path) (n : string) :
  (root ++ [n]) `prefix_of` p → root `prefix_of` p.
Proof. intros [r ->]. exists (n :: r). by rewrite <- app_assoc. Qed.

Lemma fresh_for_snoc (root : path) (n : string) (st : WalkState) :
  fresh_for root st → fresh_for (root ++ [n]) st.
Proof. intros Hfresh p Hp Hpre. by eapply Hfresh, prefix_snoc_weaken. Qed.

Lemma grown_under_refl (root : path) (st : WalkState) : grown_under root st st.
Proof. intros p Hp. by left. Qed.

Lemma grown_under_snoc (root : path) (n : string) (st st' : WalkState) :
  grown_under (root ++ [n]) st st' → grown_under root st st'.
Proof.
  intros Hgrown p Hp. destruct (Hgrown p Hp) as [?|Hpre]; [by left|].
  right. by eapply prefix_snoc_weaken.
Qed.

Section PlainLoop.
Context {E R : Type} (key : E → string) (root : path).

(** A loop whose passes each work below their own entry of [root]
    returns what the passes return on their own. *)
Lemma for_of_plain (body : E → WalkState → list R * WalkState) (f : E → list R) es st :
  NoDup (key <$> es) →
  (∀ e, e ∈ es → fresh_for (root ++ [key e]) st) →
  (∀ e s, e ∈ es → fresh_for (root ++ [key e]) s →
          (body e s).1 = f e ∧ grown_under (root ++ [key e]) s (body e s).2) →
  (for_of body es st).1 = es ≫= f ∧ grown_under root st (for_of body es st).2.
Proof.
  revert st. induction es as [|e es IH]; intros st Hkeys Hfresh Hbody.
  { split; [done|]. apply grown_under_refl. }
  rewrite fmap_cons in Hkeys. apply NoDup_cons in Hkeys as [Hnew Hkeys].
  rewrite for_of_cons. cbn [fst snd].
  destruct (Hbody e st) as [Hres Hgrown]; [left|apply Hfresh; left|].
  destruct (IH (body e st).2) as [Hrest Hgrown']; [done| |by intros; apply Hbody; [right|]|].
  { intros e' He' p Hp Hpre. destruct (Hgrown p Hp) as [Hold|Hpre'].
    - by apply (Hfresh e' (list_elem_of_further _ _ _ He') p).
    - apply Hnew. rewrite (prefix_snoc_inj _ _ _ _ Hpre' Hpre).
      apply list_elem_of_fmap. eauto. }
  split; [by rewrite Hres, Hrest|].
  intros p Hp. destruct (Hgrown' p Hp) as [Hmid|?]; [|by right].
  destruct (Hgrown p Hmid) as [?|Hpre]; [by left|].
  right. by eapply prefix_snoc_weaken.
Qed.
End PlainLoop.

Lemma Table_plain_spec (tbl : Table.t) :
  Table_plain tbl = true → link_free (Table.fs tbl) ∧ store_free (Table.fs tbl).
Proof.
  unfold Table_plain. intros [[Hwf Hreal]%andb_true_iff Hdirs]%andb_true_iff.
  assert (∀ p entries, readdirSync (Table.fs tbl) p = Some entries →
            Forall (λ entry, Dirent.isSymbolicLink entry = false
                             ∧ Dirent.name entry ≠ ".pnpm") entries) as Hplain.
  { cbn. intros p entries. induction (Table.dirs tbl) as [|[k v] dirs IH]; [done|].
    cbn in *. apply andb_true_iff in Hdirs as [Hhere Hdirs].
    destruct (decide (k = p)) as [->|Hne];
      [rewrite bool_decide_eq_true_2 by done
      |rewrite bool_decide_eq_false_2 by done; by apply IH].
    intros [= ->]. apply Forall_forall. intros entry Hin%list_elem_of_In.
    rewrite forallb_forall in Hhere.
    apply Hhere, andb_true_iff in Hin as [Hlink Hname].
    split; [by apply negb_true_iff|]. by apply String.eqb_neq, negb_true_iff. }
  split; [split; [by apply Table_well_formed|split]|].
  - cbn. intros p real. induction (Table.real tbl) as [|[k v] reals IH]; [done|].
    cbn in *. apply andb_true_iff in Hreal as [Hhere Hreal].
    destruct (decide (k = p)) as [->|Hne].
    + rewrite bool_decide_eq_true_2 by done. intros [= ->].
      by apply bool_decide_eq_true in Hhere.
    + rewrite bool_decide_eq_false_2 by done. by apply IH.
  - intros p entries Hdir. eapply Forall_impl; [exact (Hplain p entries Hdir)|].
    by intros e [? _].
  - intros p entries Hdir. eapply Forall_impl; [exact (Hplain p entries Hdir)|].
    by intros e [_ ?].
Qed.

Section Plain.
Context (fs : FileSystem) (Hfree : link_free fs).

Lemma skipped_plain p entries entry :
  readdirSync fs p = Some entries → entry ∈ entries →
  skipped entry = Earlier.skipped entry.
Proof.
  intros Hdir Hin. destruct Hfree as (_ & _ & Hlinks).
  specialize (Hlinks p entries Hdir). rewrite Forall_forall in Hlinks.
  unfold skipped, Earlier.skipped. rewrite (Hlinks entry Hin). apply andb_true_r.
Qed.

Lemma entry_name p entries entry :
  readdirSync fs p = Some entries → entry ∈ entries →
  Str.is_name (Dirent.name entry) = true.
Proof.
  intros Hdir Hin. destruct Hfree as (Hwf & _).
  destruct (Hwf p entries Hdir) as [_ Hnames]. rewrite Forall_forall in Hnames. auto.
Qed.

Lemma cycleCheck_plain root st :
  fresh_for root st →
  ∃ st1, cycleCheck fs root st = Some st1
         ∧ grown_under root st st1
         ∧ ∀ n, fresh_for (root ++ [n]) st1.
Proof.
  intros Hfresh. destruct Hfree as (_ & Hreal & _). unfold cycleCheck.
  destruct (realpathSync fs root) as [real|] eqn:Hroot.
  - apply Hreal in Hroot as ->. rewrite bool_decide_eq_false_2 by by intros ?%Hfresh.
    eexists. split; [done|]. split.
    + intros p. cbn. rewrite elem_of_union, elem_of_singleton.
      intros [->|?]; [by right|by left].
    + intros n p. cbn. rewrite elem_of_union, elem_of_singleton.
      intros [->|Hp] Hpre.
      * apply prefix_length in Hpre. rewrite length_app in Hpre. cbn in Hpre. lia.
      * by eapply Hfresh, prefix_snoc_weaken.
  - exists st. split; [done|]. split; [apply grown_under_refl|].
    intros n. by apply fresh_for_snoc.
Qed.

Section Walker.
Context (targetPackage : string) (Hstore : store_free fs).
Context (recurse : path → WalkState → list Instance.t * WalkState).
Context (recurse' : path → list Instance.t).
Context (Hrec : ∀ p s, fresh_for p s →
                       (recurse p s).1 = recurse' p ∧ grown_under p s (recurse p s).2).

Lemma packageDir_plain dir n isTarget depth st :
  fresh_for (dir ++ [n]) st →
  (packageDir recurse fs (dir ++ [n]) isTarget depth st).1
  = Earlier.packageDir recurse' fs (dir ++ [n]) isTarget depth
  ∧ grown_under (dir ++ [n]) st (packageDir recurse fs (dir ++ [n]) isTarget depth st).2.
Proof.
  intros Hfresh. unfold packageDir, Earlier.packageDir.
  rewrite (path_join_name _ "node_modules") by done.
  destruct (existsSync fs _); [|split; [done|apply grown_under_refl]].
  destruct (Hrec ((dir ++ [n]) ++ ["node_modules"]) st) as [Hres Hgrown];
    [by apply fresh_for_snoc|].
  destruct (recurse _ st) as [nested st']. cbn in *. rewrite Hres.
  split; [done|]. by eapply grown_under_snoc.
Qed.

Lemma rootEntry_plain root depth entries entry st :
  readdirSync fs root = Some entries → entry ∈ entries →
  fresh_for (root ++ [Dirent.name entry]) st →
  (rootEntry recurse fs root targetPackage depth entry st).1
  = Earlier.rootEntry recurse' fs root targetPackage depth entry
  ∧ grown_under (root ++ [Dirent.name entry]) st
      (rootEntry recurse fs root targetPackage depth entry st).2.
Proof.
  intros Hdir Hin Hfresh. unfold rootEntry, Earlier.rootEntry.
  rewrite <- (skipped_plain _ _ _ Hdir Hin).
  rewrite (path_join_name root) by by eapply entry_name.
  destruct (skipped entry); [split; [done|apply grown_under_refl]|].
  specialize (Hstore root entries Hdir). rewrite Forall_forall in Hstore.
  rewrite (proj2 (String.eqb_neq _ _) (Hstore entry Hin)).
  destruct (Str.startsWith (Dirent.name entry) "@"); [|by apply packageDir_plain].
  destruct (readdirSync fs (root ++ [Dirent.name entry])) as [children|] eqn:Hchildren;
    [|split; [done|apply grown_under_refl]].
  destruct Hfree as (Hwf & _). destruct (Hwf _ _ Hchildren) as [Hnames _].
  apply (for_of_plain Dirent.name (root ++ [Dirent.name entry])); [done| |].
  - intros child _. by apply fresh_for_snoc.
  - intros child s Hchild Hs. unfold scopedEntry.
    rewrite <- (skipped_plain _ _ _ Hchildren Hchild).
    destruct (skipped child); [split; [done|apply grown_under_refl]|].
    rewrite path_join_name by by eapply entry_name. by apply packageDir_plain.
Qed.
End Walker.

Lemma walk_plain targetPackage (Hstore : store_free fs) fuel root depth maxDepth st :
  fresh_for root st →
  (walk fuel fs root targetPackage depth maxDepth st).1
  = Earlier.walk fuel fs root targetPackage depth maxDepth
  ∧ grown_under root st (walk fuel fs root targetPackage depth maxDepth st).2.
Proof.
  revert root depth st.
  induction fuel as [|fuel IH]; intros root depth st Hfresh;
    [split; [done|apply grown_under_refl]|].
  rewrite walk_S. cbn [Earlier.walk].
  destruct (_ || _); [split; [done|apply grown_under_refl]|].
  destruct (cycleCheck_plain root st Hfresh) as (st1 & -> & Hgrown & Hfresh1).
  destruct (readdirSync fs root) as [entries|] eqn:Hdir; [|done].
  destruct Hfree as (Hwf & _). destruct (Hwf _ _ Hdir) as [Hnames _].
  edestruct (for_of_plain Dirent.name root
               (rootEntry (λ p s, walk fuel fs p targetPackage (depth + 1) maxDepth s)
                  fs root targetPackage depth)
               (Earlier.rootEntry
                  (λ p, Earlier.walk fuel fs p targetPackage (depth + 1) maxDepth)
                  fs root targetPackage depth)
               entries) as [Hres Hgrown']; [exact Hnames| | |split; [exact Hres|]].
  - intros e _. apply (Hfresh1 (Dirent.name e)).
  - intros e s He Hs. apply rootEntry_plain with entries; try done.
    intros p s' Hs'. by apply IH.
  - intros p Hp. destruct (Hgrown' p Hp) as [Hmid|?]; [|by right]. by apply Hgrown.
Qed.

Section Scan.
Context (compromisedPackages : list string).
Context (recurse : path → WalkState → list DependencyRef.t * WalkState).
Context (recurse' : path → list DependencyRef.t).
Context (Hrec : ∀ p s, fresh_for p s →
                       (recurse p s).1 = recurse' p ∧ grown_under p s (recurse p s).2).

Lemma scanPackage_plain dir n packageName depth st :
  fresh_for (dir ++ [n]) st →
  (scanPackage recurse fs compromisedPackages (dir ++ [n]) packageName depth st).1
  = Earlier.scanPackage recurse' fs compromisedPackages (dir ++ [n]) packageName depth
  ∧ grown_under (dir ++ [n]) st
      (scanPackage recurse fs compromisedPackages (dir ++ [n]) packageName depth st).2.
Proof.
  intros Hfresh. unfold scanPackage, Earlier.scanPackage.
  rewrite (path_join_name _ "node_modules") by done.
  destruct (existsSync fs _); [|split; [done|apply grown_under_refl]].
  destruct (Hrec ((dir ++ [n]) ++ ["node_modules"]) st) as [Hres Hgrown];
    [by apply fresh_for_snoc|].
  destruct (recurse _ st) as [nested st']. cbn in *. rewrite Hres.
  split; [done|]. by eapply grown_under_snoc.
Qed.

Lemma scanEntry_plain root depth entries entry st :
  readdirSync fs root = Some entries → entry ∈ entries →
  fresh_for (root ++ [Dirent.name entry]) st →
  (scanEntry recurse fs compromisedPackages root depth entry st).1
  = Earlier.scanEntry recurse' fs compromisedPackages root depth entry
  ∧ grown_under (root ++ [Dirent.name entry]) st
      (scanEntry recurse fs compromisedPackages root depth entry st).2.
Proof.
  intros Hdir Hin Hfresh. unfold scanEntry, Earlier.scanEntry.
  rewrite <- (skipped_plain _ _ _ Hdir Hin).
  rewrite (path_join_name root) by by eapply entry_name.
  destruct (skipped entry); [split; [done|apply grown_under_refl]|].
  destruct (Str.startsWith (Dirent.name entry) "@"); [|by apply scanPackage_plain].
  destruct (readdirSync fs (root ++ [Dirent.name entry])) as [children|] eqn:Hchildren;
    [|split; [done|apply grown_under_refl]].
  destruct Hfree as (Hwf & _). destruct (Hwf _ _ Hchildren) as [Hnames _].
  apply (for_of_plain Dirent.name (root ++ [Dirent.name entry])); [done| |].
  - intros child _. by apply fresh_for_snoc.
  - intros child s Hchild Hs. cbn beta.
    rewrite <- (skipped_plain _ _ _ Hchildren Hchild).
    destruct (skipped child); [split; [done|apply grown_under_refl]|].
    rewrite path_join_name by by eapply entry_name. by apply scanPackage_plain.
Qed.
End Scan.

Lemma scan_plain compromisedPackages fuel root depth maxDepth st :
  fresh_for root st →
  (scan fuel fs root compromisedPackages depth maxDepth st).1
  = Earlier.scan fuel fs root compromisedPackages depth maxDepth
  ∧ grown_under root st (scan fuel fs root compromisedPackages depth maxDepth st).2.
Proof.
  revert root depth st.
  induction fuel as [|fuel IH]; intros root depth st Hfresh;
    [split; [done|apply grown_under_refl]|].
  rewrite scan_S. cbn [Earlier.scan].
  destruct (_ || _); [split; [done|apply grown_under_refl]|].
  destruct (cycleCheck_plain root st Hfresh) as (st1 & -> & Hgrown & Hfresh1).
  destruct (readdirSync fs root) as [entries|] eqn:Hdir; [|done].
  destruct Hfree as (Hwf & _). destruct (Hwf _ _ Hdir) as [Hnames _].
  edestruct (for_of_plain Dirent.name root
               (scanEntry (λ p s, scan fuel fs p compromisedPackages (depth + 1) maxDepth s)
                  fs compromisedPackages root depth)
               (Earlier.scanEntry
                  (λ p, Earlier.scan fuel fs p compromisedPackages (depth + 1) maxDepth)
                  fs compromisedPackages root depth)
               entries) as [Hres Hgrown']; [exact Hnames| | |split; [exact Hres|]].
  - intros e _. apply (Hfresh1 (Dirent.name e)).
  - intros e s He Hs. apply scanEntry_plain with entries; try done.
    intros p s' Hs'. by apply IH.
  - intros p Hp. destruct (Hgrown' p Hp) as [Hmid|?]; [|by right]. by apply Hgrown.
Qed.
End Plain.

Lemma fresh_for_fresh (root : path) : fresh_for root fresh.
Proof. intros p Hp. by apply elem_of_empty in Hp. Qed.

(** X18: on a tree without symbolic links and without a content store,
    the cycle check of the walker never fires and the walker returns
    exactly what the walker of the earlier scanner returns, the same
    instances in the same order, for every call whose set of visited
    paths has no path at or below the root. *)
Theorem findPackageRecursively_link_free (fs : FileSystem) (nodeModulesPath : path)
    (targetPackage : string) :
  link_free fs → store_free fs →
  (∀ depth maxDepth st,
     fresh_for nodeModulesPath st →
     (findPackageRecursively fs nodeModulesPath targetPackage depth maxDepth st).1
     = Earlier.findPackageRecursively fs nodeModulesPath targetPackage depth maxDepth)
  ∧ findInstances fs nodeModulesPath targetPackage
    = Earlier.findPackageRecursively fs nodeModulesPath targetPackage 0 5.
Proof.
  intros Hfree Hstore. split.
  - intros depth maxDepth st Hfresh. by apply walk_plain.
  - apply walk_plain; [done|done|apply fresh_for_fresh].
Qed.

(** The tree that holds [evil-pkg] twice. *)
Lemma findPackageRecursively_link_free_witness :
  findInstances (Table.fs Ex.twice) Ex.root "evil-pkg"
  = Earlier.findPackageRecursively (Table.fs Ex.twice) Ex.root "evil-pkg" 0 5
  ∧ length (Earlier.findPackageRecursively (Table.fs Ex.twice) Ex.root "evil-pkg" 0 5) = 2.
Proof.
  split; [|vm_compute; reflexivity].
  destruct (Table_plain_spec Ex.twice) as [Hfree Hstore]; [vm_compute; reflexivity|].
  by destruct (findPackageRecursively_link_free (Table.fs Ex.twice) Ex.root "evil-pkg"
                 Hfree Hstore) as [_ ?].
Defined.

(** X19: on a tree without symbolic links the manifest scanner returns
    exactly what the manifest scanner of the earlier scanner returns,
    the same references in the same order. *)
Theorem scanPackageJsonDependencies_link_free (fs : FileSystem) (nodeModulesPath : path)
    (compromisedPackages : list string) (depth maxDepth : nat) (st : WalkState) :
  link_free fs →
  fresh_for nodeModulesPath st →
  (scanPackageJsonDependencies fs nodeModulesPath compromisedPackages depth maxDepth st).1
  = Earlier.scanPackageJsonDependencies fs nodeModulesPath compromisedPackages
      depth maxDepth.
Proof. intros Hfree Hfresh. by apply scan_plain. Qed.

(** The sample project. *)
Lemma scanPackageJsonDependencies_link_free_witness :
  [Sample.ref_a; Sample.ref_b; Sample.ref_c]
  = Earlier.scanPackageJsonDependencies (Table.fs Sample.project) Sample.root
      (Map_keys Sample.blacklist) 0 5.
Proof.
  rewrite <- Sample_refs.
  apply (scanPackageJsonDependencies_link_free (Table.fs Sample.project) Sample.root
           (Map_keys Sample.blacklist) 0 5 fresh).
  - by destruct (Table_plain_spec Sample.project) as [? _]; [vm_compute; reflexivity|].
  - apply fresh_for_fresh.
Defined.

(** ** The list extractor: the loop *)

Lemma Extract_sample :
  Extract.extract Extract.sample
  = [Extract.tinycolor; Extract.left_pad; Extract.ngx_toastr].
Proof. vm_compute. reflexivity. Qed.

Section ExtractLoop.
Import Extract.

Lemma step_packages (st : gset (list N) * list Package) (il : nat * list N) :
  (step st il).2 = st.2
  ∨ ∃ n vs, parseLine il.2 = Some (n, vs) ∧ (n ∉ st.1)
            ∧ step st il = ({[n]} ∪ st.1,
                            st.2 ++ [ {| name := n; versions := vs; line := il.1 + 1 |} ]).
Proof.
  unfold step. destruct (parseLine il.2) as [[n vs]|]; [|by left].
  case_bool_decide; [by left|]. right. by exists n, vs.
Qed.

Lemma step_seen (st : gset (list N) * list Package) (il : nat * list N) n vs :
  parseLine il.2 = Some (n, vs) → n ∈ (step st il).1.
Proof.
  intros Hparse. unfold step. rewrite Hparse. case_bool_decide; [done|].
  cbn. set_solver.
Qed.

Lemma step_keeps (st : gset (list N) * list Package) (il : nat * list N) n :
  n ∈ st.1 → n ∈ (step st il).1.
Proof.
  intros Hn. unfold step. destruct (parseLine il.2) as [[n' vs]|]; [|done].
  case_bool_decide; [done|]. cbn. set_solver.
Qed.

Lemma foldl_step_invariant (ils : list (nat * list N)) :
  loop_invariant ils (foldl step (∅, []) ils).
Proof.
  induction ils as [|il ils IH] using rev_ind.
  { repeat split; cbn; try set_solver. constructor. }
  rewrite foldl_snoc. destruct IH as (Hset & Hnd & Hfirst & Hall).
  set (st := foldl step (∅, []) ils) in *.
  assert (∀ il' n vs, il' ∈ ils ++ [il] → parseLine il'.2 = Some (n, vs) →
                      n ∈ (step st il).1) as Hall'.
  { intros il' n vs [Hin| ->%list_elem_of_singleton]%elem_of_app Hparse.
    - by eapply step_keeps, Hall.
    - by eapply step_seen. }
  assert (∀ pkg, pkg ∈ st.2 →
            ∃ j il0, (ils ++ [il]) !! j = Some il0
                     ∧ parseLine il0.2 = Some (name pkg, versions pkg)
                     ∧ line pkg = il0.1 + 1
                     ∧ ∀ j' il' vs, j' < j → (ils ++ [il]) !! j' = Some il' →
                                    parseLine il'.2 ≠ Some (name pkg, vs)) as Hfirst'.
  { intros pkg Hpkg. destruct (Hfirst pkg Hpkg) as (j & il0 & Hj & Hparse & Hline & Hmin).
    exists j, il0. split; [by apply lookup_app_l_Some|]. split; [done|]. split; [done|].
    intros j' il' vs Hlt Hj'. apply (Hmin j' il' vs Hlt).
    apply lookup_lt_Some in Hj. by rewrite lookup_app_l in Hj' by lia. }
  unfold loop_invariant.
  destruct (step_packages st il) as [Hsame|(n & vs & Hparse & Hnew & Hstep)].
  - assert (step st il = st) as Hst.
    { unfold step in *. destruct (parseLine il.2) as [[n vs]|]; [|done].
      case_bool_decide; [done|]. cbn in Hsame.
      apply (f_equal length) in Hsame. rewrite length_app in Hsame. cbn in Hsame. lia. }
    rewrite Hst in *. split; [done|]. split; [done|]. split; done.
  - rewrite Hstep in *. cbn [fst snd] in *. rewrite fmap_app. cbn [fmap list_fmap].
    split; [|split; [|split; [|done]]].
    + intros n'. rewrite elem_of_union, elem_of_singleton, elem_of_app,
        list_elem_of_singleton, Hset. cbn. tauto.
    + apply NoDup_app. split; [done|]. split; [|apply NoDup_singleton].
      intros n' Hin ->%list_elem_of_singleton. cbn in Hnew. by apply Hnew, Hset.
    + intros pkg [Hpkg| ->%list_elem_of_singleton]%elem_of_app; [by apply Hfirst'|].
      exists (length ils), il. cbn.
      split; [by rewrite lookup_app_r, Nat.sub_diag by lia|].
      split; [done|]. split; [done|].
      intros j' il' vs' Hlt Hj' Hparse'. rewrite lookup_app_l in Hj' by done.
      apply Hnew. eapply Hall; [|exact Hparse']. by eapply list_elem_of_lookup_2.
Qed.

Lemma extract_parsed content pkg :
  pkg ∈ extract content → ∃ l, parseLine l = Some (name pkg, versions pkg).
Proof.
  unfold extract. intros Hpkg.
  destruct (foldl_step_invariant (imap pair (split 10 content)))
    as (_ & _ & Hfirst & _).
  destruct (Hfirst pkg Hpkg) as (j & il & _ & Hparse & _). eauto.
Qed.
End ExtractLoop.

(** ** The matcher: lemmas *)

Lemma run_sound (r : Re.t) :
  ∀ s c k res,
    Re.run r s c k = Some res →
    ∃ s1 c1, Re.Derives r s c s1 c1 ∧ k s1 c1 = Some res.
Proof.
  induction r as [|p|r1 IH1 r2 IH2|r1 IH1|r1 IH1|n r1 IH1|]; intros s c k res;
    cbn [Re.run].
  - intros Hk. exists s, c. split; [constructor|done].
  - destruct s as [|a s1]; [done|]. destruct (p a) eqn:Hp; [|done].
    intros Hk. exists s1, c. split; [by constructor|done].
  - intros (s1 & c1 & Hd1 & (s2 & c2 & Hd2 & Hk)%IH2)%IH1.
    exists s2, c2. split; [by econstructor|done].
  - destruct (Re.run r1 s c _) as [res'|] eqn:Hrun.
    + intros [= <-]. apply IH1 in Hrun as (s1 & c1 & Hd & Hk).
      destruct (length s1 <? length s); [|done].
      exists s1, c1. split; [by apply Re.D_Opt_take|done].
    + intros Hk. exists s, c. split; [apply Re.D_Opt_skip|done].
  - generalize (length s). intros fuel. revert s c.
    induction fuel as [|fuel IHf]; intros s c.
    + intros Hk. exists s, c. split; [apply Re.D_Star_stop|done].
    + destruct (Re.run r1 s c _) as [res'|] eqn:Hrun.
      * intros [= <-]. apply IH1 in Hrun as (s1 & c1 & Hd & Hk).
        destruct (length s1 <? length s); [|done].
        apply IHf in Hk as (s2 & c2 & Hd2 & Hk).
        exists s2, c2. split; [by eapply Re.D_Star_more|done].
      * intros Hk. exists s, c. split; [apply Re.D_Star_stop|done].
  - intros (s1 & c1 & Hd & Hk)%IH1. exists s1, ((n, Re.consumed s s1) :: c1).
    split; [by constructor|done].
  - destruct s; [|done]. intros Hk. exists [], c. split; [constructor|done].
Qed.

Lemma exec_Derives (r : Re.t) (s : list N) (c : Re.captures) :
  Re.exec r s = Some c → ∃ s1, Re.Derives r s [] s1 c.
Proof. intros (s1 & c1 & Hd & [= <-])%run_sound. eauto. Qed.

Lemma consumed_app (w s1 : list N) : Re.consumed (w ++ s1) s1 = w.
Proof.
  unfold Re.consumed. rewrite length_app.
  replace (length w + length s1 - length s1) with (length w) by lia.
  by rewrite take_app_length.
Qed.

Section Shapes.
Import Re Extract.

Lemma lit_eq x c : lit x c = true → c = code x.
Proof. apply N.eqb_eq. Qed.

Lemma Derives_Chr p s c s1 c1 :
  Derives (Chr p) s c s1 c1 → c1 = c ∧ ∃ a, p a = true ∧ s = a :: s1.
Proof. inversion 1; subst. eauto. Qed.

Lemma Derives_Star_Chr p s c s1 c1 :
  Derives (Star (Chr p)) s c s1 c1 →
  c1 = c ∧ ∃ w, Forall (λ a, p a = true) w ∧ s = w ++ s1.
Proof.
  remember (Star (Chr p)) as r eqn:Hr. intros Hd.
  induction Hd as [| | | | |r0 s c|r0 s c s1 c1 s2 c2 Hd1 _ Hd2 IH| |]; try done.
  - split; [done|]. by exists [].
  - injection Hr as ->. apply Derives_Chr in Hd1 as [-> (a & Hp & ->)].
    destruct (IH eq_refl) as [-> (w & Hw & ->)]. split; [done|].
    exists (a :: w). split; [by constructor|done].
Qed.

Lemma Derives_Plus_Chr p s c s1 c1 :
  Derives (Plus (Chr p)) s c s1 c1 →
  c1 = c ∧ ∃ w, w ≠ [] ∧ Forall (λ a, p a = true) w ∧ s = w ++ s1.
Proof.
  unfold Plus. inversion 1 as [| |? ? ? ? ? ? ? ? Hd1 Hd2| | | | | |]; subst.
  apply Derives_Chr in Hd1 as [-> (a & Hp & ->)].
  apply Derives_Star_Chr in Hd2 as [-> (w & Hw & ->)]. split; [done|].
  exists (a :: w). split; [done|]. split; [by constructor|done].
Qed.

Lemma Derives_version s c s1 c1 :
  Derives version_re s c s1 c1 → c1 = c ∧ ∃ w, version_shape w ∧ s = w ++ s1.
Proof.
  unfold version_re. inversion 1 as [| |? ? ? ? ? ? ? ? Hd1 Hd2| | | | | |]; subst.
  apply Derives_Chr in Hd1 as [-> (x & Hx & ->)].
  apply Derives_Plus_Chr in Hd2 as [-> (d & Hne & Hd & ->)]. split; [done|].
  exists (x :: d). split; [|done]. by exists x, d.
Qed.

Lemma Derives_items s c s1 c1 :
  Derives (Star (Seq (Chr (lit ",")) (Seq (Star (Chr is_space)) version_re))) s c s1 c1 →
  c1 = c
  ∧ ∃ items, s = items_text items ++ s1
             ∧ Forall (λ item, Forall (λ a, is_space a = true) item.1
                               ∧ version_shape item.2) items.
Proof.
  remember (Star (Seq (Chr (lit ",")) (Seq (Star (Chr is_space)) version_re)))
    as r eqn:Hr. intros Hd.
  induction Hd as [| | | | |r0 s c|r0 s c s1 c1 s2 c2 Hd1 _ Hd2 IH| |]; try done.
  - split; [done|]. by exists [].
  - injection Hr as ->. destruct (IH eq_refl) as [-> (items & -> & Hitems)].
    inversion Hd1 as [| |? ? ? ? ? ? ? ? Hcomma Hrest| | | | | |]; subst.
    apply Derives_Chr in Hcomma as [-> (a & ->%lit_eq & ->)].
    inversion Hrest as [| |? ? ? ? ? ? ? ? Hws Hver| | | | | |]; subst.
    apply Derives_Star_Chr in Hws as [-> (ws & Hws & ->)].
    apply Derives_version in Hver as [-> (v & Hv & ->)].
    split; [done|]. exists ((ws, v) :: items). split.
    + unfold items_text. cbn. by rewrite <- !app_assoc.
    + by constructor.
Qed.

Lemma Derives_versions s c s1 c1 :
  Derives versions_re s c s1 c1 →
  ∃ v0 items,
    c1 = (3, v0 ++ items_text items) :: c
    ∧ s = (v0 ++ items_text items) ++ s1
    ∧ version_shape v0
    ∧ Forall (λ item, Forall (λ a, is_space a = true) item.1 ∧ version_shape item.2) items.
Proof.
  unfold versions_re. inversion 1 as [| | | | | | |? ? ? ? ? ? Hd|]; subst.
  inversion Hd as [| |? ? ? ? ? ? ? ? Hfirst Hrest| | | | | |]; subst.
  apply Derives_version in Hfirst as [-> (v0 & Hv0 & ->)].
  apply Derives_items in Hrest as [-> (items & -> & Hitems)].
  exists v0, items. rewrite app_assoc, consumed_app. by rewrite <- app_assoc.
Qed.

Lemma Derives_name s c s1 c1 :
  Derives name_re s c s1 c1 →
  ∃ w, c1 = (2, w) :: c ∧ base_shape w ∧ s = w ++ s1.
Proof.
  unfold name_re. inversion 1 as [| | | | | | |? ? ? ? ? ? Hd|]; subst.
  apply Derives_Plus_Chr in Hd as [-> (w & Hne & Hw & ->)].
  exists w. by rewrite consumed_app.
Qed.

Lemma Derives_scope s c s1 c1 :
  Derives scope_re s c s1 c1 →
  ∃ w, scope_shape w ∧ s = w ++ s1
       ∧ ((w = [] ∧ c1 = c) ∨ (w ≠ [] ∧ c1 = (1, w) :: c)).
Proof.
  unfold scope_re. inversion 1 as [| | |? ? ?|? ? ? ? ? Hgroup| | | |]; subst.
  { exists []. split; [by left|]. split; [done|]. by left. }
  inversion Hgroup as [| | | | | | |? ? ? ? ? ? Hd|]; subst.
  inversion Hd as [| |? ? ? ? ? ? ? ? Hsign Hrest| | | | | |]; subst.
  inversion Hrest as [| |? ? ? ? ? ? ? ? Hrun Hslash| | | | | |]; subst.
  apply Derives_Plus_Chr in Hrun as [-> (run & Hne & Hrun & ->)].
  apply Derives_Chr in Hslash as [-> (a & ->%lit_eq & ->)].
  assert (c1 = c ∧ ∃ sign, (sign = [] ∨ sign = [code "@"])
                           ∧ s = sign ++ run ++ code "/" :: s1)
    as (-> & sign & Hsign' & ->).
  { inversion Hsign as [| | |? ? ?|? ? ? ? ? Hat| | | |]; subst.
    - split; [done|]. exists []. split; [by left|done].
    - apply Derives_Chr in Hat as [-> (a & ->%lit_eq & ->)].
      split; [done|]. exists [code "@"]. split; [by right|done]. }
  exists (sign ++ run ++ [code "/"]).
  replace (sign ++ run ++ code "/" :: s1) with ((sign ++ run ++ [code "/"]) ++ s1)
    by (by rewrite <- !app_assoc).
  rewrite consumed_app. split; [right; by exists sign, run|]. split; [done|].
  right. split; [|done]. destruct sign, run; done.
Qed.

(** What the first pattern captures. *)
Lemma exec_pattern1 s match1 :
  exec pattern1 s = Some match1 →
  ∃ scope base v0 items,
    default [] (group match1 1) = scope
    ∧ group match1 2 = Some base
    ∧ group match1 3 = Some (v0 ++ items_text items)
    ∧ scope_shape scope ∧ base_shape base ∧ version_shape v0
    ∧ Forall (λ item, Forall (λ a, is_space a = true) item.1 ∧ version_shape item.2) items.
Proof.
  intros [s1 Hd]%exec_Derives. unfold pattern1 in Hd.
  inversion Hd as [| |? ? ? ? ? ? ? ? Hscope H1| | | | | |]; subst.
  inversion H1 as [| |? ? ? ? ? ? ? ? Hname H2| | | | | |]; subst.
  inversion H2 as [| |? ? ? ? ? ? ? ? Hspace H3| | | | | |]; subst.
  inversion H3 as [| |? ? ? ? ? ? ? ? Hopen H4| | | | | |]; subst.
  inversion H4 as [| |? ? ? ? ? ? ? ? Hversions Hclose| | | | | |]; subst.
  apply Derives_scope in Hscope as (scope & Hscope & _ & Hcaps).
  apply Derives_name in Hname as (base & -> & Hbase & _).
  apply Derives_Plus_Chr in Hspace as [-> _].
  apply Derives_Chr in Hopen as [-> _].
  apply Derives_versions in Hversions as (v0 & items & -> & _ & Hv0 & Hitems).
  apply Derives_Chr in Hclose as [-> _].
  exists scope, base, v0, items.
  destruct Hcaps as [[-> ->]|[Hne ->]]; cbn; by do 6 (split; [done|]).
Qed.

(** What the second pattern captures. *)
Lemma exec_pattern2 s match2 :
  exec pattern2 s = Some match2 →
  ∃ scope base,
    default [] (group match2 1) = scope
    ∧ group match2 2 = Some base
    ∧ scope_shape scope ∧ base_shape base
    ∧ s = scope ++ base.
Proof.
  intros [s1 Hd]%exec_Derives. unfold pattern2 in Hd.
  inversion Hd as [| |? ? ? ? ? ? ? ? Hscope H1| | | | | |]; subst.
  inversion H1 as [| |? ? ? ? ? ? ? ? Hname Hend| | | | | |]; subst.
  apply Derives_scope in Hscope as (scope & Hscope & -> & Hcaps).
  apply Derives_name in Hname as (base & -> & Hbase & ->).
  inversion Hend; subst.
  exists scope, base. rewrite app_nil_r.
  destruct Hcaps as [[-> ->]|[Hne ->]]; cbn; by do 4 (split; [done|]).
Qed.
End Shapes.

(** ** Code units: lemmas *)

Section CodeUnits.
Import Extract.

Lemma version_char_plain c : version_char c = true → plain_char c.
Proof. code_facts. Qed.

Lemma lit_v_plain c : lit_v c = true → plain_char c.
Proof. code_facts. Qed.

Lemma scope_char_plain c : scope_char c = true → plain_char c.
Proof. code_facts. Qed.

Lemma name_char_plain c : name_char c = true → plain_char c.
Proof. code_facts. Qed.

Lemma plain_char_ascii c : plain_char c → (c < 128)%N.
Proof. code_facts. Qed.

Lemma plain_char_not_space c : plain_char c → is_space c = false.
Proof. code_facts. Qed.

(** No code unit of a name or a version is a double quote, a comma, a
    semicolon or a line feed. *)
Lemma plain_char_field c : plain_char c → c ≠ 34%N ∧ c ≠ code "," ∧ c ≠ code ";" ∧ c ≠ 10%N.
Proof. code_facts. Qed.

Lemma version_char_not_v c : version_char c = true → c ≠ code "v".
Proof. code_facts. Qed.

Lemma is_space_not_comma c : is_space c = true → c ≠ code ",".
Proof. code_facts. Qed.

Lemma version_shape_plain w : version_shape w → Forall plain_char w.
Proof.
  intros (x & d & -> & Hx & _ & Hd). constructor; [by apply lit_v_plain|].
  eapply Forall_impl; [exact Hd|]. apply version_char_plain.
Qed.

Lemma name_shape_plain n : name_shape n → Forall plain_char n.
Proof.
  intros (scope & base & -> & Hscope & [_ Hbase]). apply Forall_app. split.
  - destruct Hscope as [->|(sign & run & -> & Hsign & _ & Hrun)]; [constructor|].
    apply Forall_app. split.
    { destruct Hsign as [->| ->]; [constructor|].
      constructor; [|constructor]. unfold plain_char. tauto. }
    apply Forall_app. split.
    + eapply Forall_impl; [exact Hrun|]. apply scope_char_plain.
    + constructor; [|constructor]. unfold plain_char. tauto.
  - eapply Forall_impl; [exact Hbase|]. apply name_char_plain.
Qed.

Lemma ascii_of_N_eqb c x :
  (c < 256)%N → Ascii.eqb (ascii_of_N c) x = (c =? code x)%N.
Proof.
  intros Hc. unfold code. destruct (Ascii.eqb_spec (ascii_of_N c) x) as [<-|Hne].
  - rewrite N_ascii_embedding by done. by rewrite N.eqb_refl.
  - symmetry. apply N.eqb_neq. intros ->. by rewrite ascii_N_embedding in Hne.
Qed.

Lemma text_inj w1 w2 :
  Forall (λ c, (c < 256)%N) w1 → Forall (λ c, (c < 256)%N) w2 →
  text w1 = text w2 → w1 = w2.
Proof.
  intros H1. revert w2. induction H1 as [|c1 w1 Hc1 _ IH]; intros w2 H2.
  - by destruct w2.
  - destruct H2 as [|c2 w2 Hc2 H2]; [done|]. unfold text. cbn.
    intros [= Hc Hw]. f_equal; [|by apply IH].
    apply (f_equal N_of_ascii) in Hc. by rewrite !N_ascii_embedding in Hc.
Qed.

Lemma plain_below (w : list N) : Forall plain_char w → Forall (λ c, (c < 256)%N) w.
Proof.
  intros Hw. eapply Forall_impl; [exact Hw|]. intros c Hc%plain_char_ascii. lia.
Qed.
End CodeUnits.

(** ** Pieces of the third group *)

Section Pieces.
Import Extract.

Lemma split_no_sep sep w : Forall (λ c, c ≠ sep) w → split sep w = [w].
Proof.
  induction 1 as [|c w Hc _ IH]; [done|]. cbn.
  by rewrite (proj2 (N.eqb_neq _ _) Hc), IH.
Qed.

Lemma split_app sep a b :
  Forall (λ c, c ≠ sep) a → split sep (a ++ sep :: b) = a :: split sep b.
Proof.
  induction 1 as [|c a Hc _ IH]; cbn.
  - by rewrite N.eqb_refl.
  - by rewrite (proj2 (N.eqb_neq _ _) Hc), IH.
Qed.

Lemma version_no_comma w : version_shape w → Forall (λ c, c ≠ code ",") w.
Proof.
  intros Hw%version_shape_plain. eapply Forall_impl; [exact Hw|].
  by intros c (_ & ? & _)%plain_char_field.
Qed.

Lemma trimStart_spaces ws s :
  Forall (λ c, is_space c = true) ws → trimStart (ws ++ s) = trimStart s.
Proof. induction 1 as [|c ws Hc _ IH]; [done|]. cbn. by rewrite Hc. Qed.

Lemma trimStart_head c s : is_space c = false → trimStart (c :: s) = c :: s.
Proof. intros Hc. cbn. by rewrite Hc. Qed.

Lemma trim_version ws v :
  Forall (λ c, is_space c = true) ws → version_shape v → trim (ws ++ v) = v.
Proof.
  intros Hws (x & d & -> & Hx & Hne & Hd). unfold trim.
  rewrite trimStart_spaces by done.
  rewrite trimStart_head by by apply plain_char_not_space, lit_v_plain.
  destruct d as [|z d' _] using rev_ind; [done|].
  apply Forall_app in Hd as [_ [Hz _]%Forall_cons].
  rewrite app_comm_cons, reverse_snoc.
  rewrite trimStart_head by by apply plain_char_not_space, version_char_plain.
  by rewrite <- reverse_snoc, reverse_involutive.
Qed.

Lemma split_items head items :
  Forall (λ c, c ≠ code ",") head →
  Forall (λ item, Forall (λ c, is_space c = true) item.1 ∧ version_shape item.2) items →
  split (code ",") (head ++ items_text items)
  = head :: ((λ item, item.1 ++ item.2) <$> items).
Proof.
  intros Hhead Hitems. revert head Hhead.
  induction Hitems as [|[ws v] items [Hws Hv] _ IH]; intros head Hhead.
  { cbn. rewrite app_nil_r. by apply split_no_sep. }
  unfold items_text. cbn [mbind list_bind fst snd]. fold (items_text items).
  cbn [app fst snd] in *. rewrite split_app by done. rewrite IH; [done|].
  apply Forall_app. split; [|by apply version_no_comma].
  eapply Forall_impl; [exact Hws|]. intros c. apply is_space_not_comma.
Qed.

Lemma versions_pieces v0 items :
  version_shape v0 →
  Forall (λ item, Forall (λ c, is_space c = true) item.1 ∧ version_shape item.2) items →
  trim <$> split (code ",") (v0 ++ items_text items) = v0 :: items.*2.
Proof.
  intros Hv0 Hitems. rewrite split_items by (by try apply version_no_comma).
  cbn. f_equal; [by apply (trim_version [])|].
  rewrite <- list_fmap_compose. apply Forall_fmap_ext.
  eapply Forall_impl; [exact Hitems|]. intros [ws v] [Hws Hv]. by apply trim_version.
Qed.

(** What a line can yield: a name of the shape of the patterns, and
    versions of the shape of the first pattern. *)
Lemma parseLine_shape l n vs :
  parseLine l = Some (n, vs) → name_shape n ∧ Forall version_shape vs.
Proof.
  unfold parseLine. destruct (_ || _); [done|].
  destruct (Re.exec pattern1 (trim l)) as [match1|] eqn:H1.
  - apply exec_pattern1 in H1
      as (scope & base & v0 & items & -> & -> & -> & Hscope & Hbase & Hv0 & Hitems).
    cbn [default]. intros [= <- <-]. split; [by exists scope, base|].
    rewrite versions_pieces by done. constructor; [done|].
    apply Forall_fmap. eapply Forall_impl; [exact Hitems|]. by intros [ws v] [_ ?].
  - destruct (Re.exec pattern2 (trim l)) as [match2|] eqn:H2; [|done].
    apply exec_pattern2 in H2 as (scope & base & -> & -> & Hscope & Hbase & _).
    cbn [default]. intros [= <- <-]. split; [by exists scope, base|constructor].
Qed.

Lemma extract_shapes content pkg :
  pkg ∈ extract content → name_shape (name pkg) ∧ Forall version_shape (versions pkg).
Proof. intros [l Hparse]%extract_parsed. by eapply parseLine_shape. Qed.
End Pieces.

(** ** The extractor and the index *)

Lemma Map_set_fresh (m : JsMap) (k : string) (v : list string) :
  k ∉ Map_keys m → Map_set m k v = m ++ [(k, v)].
Proof.
  unfold Map_keys. induction m as [|[k' v'] m IH]; [done|]. cbn.
  intros [Hne Hk]%not_elem_of_cons.
  rewrite (proj2 (String.eqb_neq k' k)) by done. by rewrite IH.
Qed.

Lemma COMPROMISED_PACKAGES_MAP_distinct (packages : list PackageEntry.t) :
  NoDup (PackageEntry.name <$> packages) →
  COMPROMISED_PACKAGES_MAP packages
  = (λ pkg, (PackageEntry.name pkg, Str.strip_leading_v <$> PackageEntry.versions pkg))
      <$> packages.
Proof.
  unfold COMPROMISED_PACKAGES_MAP.
  induction packages as [|pkg packages IH] using rev_ind; [done|].
  rewrite fmap_app. intros (Hnd & Hfresh & _)%NoDup_app.
  rewrite foldl_snoc, fmap_app, IH by done. cbn. apply Map_set_fresh.
  unfold Map_keys. rewrite <- list_fmap_compose. intros Hin.
  apply (Hfresh _ Hin). cbn. left.
Qed.

Lemma output_names_NoDup (content : list N) :
  NoDup (PackageEntry.name <$> Extract.output (Extract.extract content)).
Proof.
  unfold Extract.output. rewrite <- list_fmap_compose.
  change (NoDup ((Extract.text ∘ Extract.name) <$> Extract.extract content)).
  rewrite list_fmap_compose. apply NoDup_fmap_2_strong.
  - intros n1 n2 (p1 & -> & Hp1)%list_elem_of_fmap (p2 & -> & Hp2)%list_elem_of_fmap.
    apply text_inj; apply plain_below, name_shape_plain;
      by eapply proj1, extract_shapes.
  - unfold Extract.extract.
    by destruct (foldl_step_invariant (imap pair (Extract.split 10 content)))
      as (_ & ? & _).
Qed.

(** ** Names and versions as the index reads them *)

Lemma text_no_slash (w : list N) :
  Forall (λ c, (c < 256)%N ∧ c ≠ Extract.code "/") w →
  Str.no_slash (Extract.text w) = true.
Proof.
  induction 1 as [|c w [Hc Hne] _ IH]; [done|]. unfold Extract.text in *. cbn.
  rewrite ascii_of_N_eqb by done. by rewrite (proj2 (N.eqb_neq _ _) Hne), IH.
Qed.

Lemma replace_first_slash_none (w : list N) :
  Forall (λ c, (c < 256)%N ∧ c ≠ Extract.code "/") w →
  Str.replace_first_slash (Extract.text w) = Extract.text w.
Proof.
  induction 1 as [|c w [Hc Hne] _ IH]; [done|]. unfold Extract.text in *. cbn.
  rewrite ascii_of_N_eqb by done. by rewrite (proj2 (N.eqb_neq _ _) Hne), IH.
Qed.

Lemma replace_first_slash_app (w1 w2 : list N) :
  Forall (λ c, (c < 256)%N ∧ c ≠ Extract.code "/") w1 →
  Str.replace_first_slash (Extract.text (w1 ++ Extract.code "/" :: w2))
  = Extract.text (w1 ++ Extract.code "+" :: w2).
Proof.
  induction 1 as [|c w [Hc Hne] _ IH]; [done|]. unfold Extract.text in *. cbn.
  rewrite ascii_of_N_eqb by done. rewrite (proj2 (N.eqb_neq _ _) Hne).
  f_equal. exact IH.
Qed.

Lemma scope_char_no_slash c :
  Extract.scope_char c = true → (c < 256)%N ∧ c ≠ Extract.code "/".
Proof. code_facts. Qed.

Lemma name_char_no_slash c :
  Extract.name_char c = true → (c < 256)%N ∧ c ≠ Extract.code "/".
Proof. code_facts. Qed.

Lemma name_shape_pattern (n : list N) :
  name_shape n → Str.no_slash (Str.replace_first_slash (Extract.text n)) = true.
Proof.
  intros (scope & base & -> & Hscope & [_ Hbase]).
  assert (Forall (λ c, (c < 256)%N ∧ c ≠ Extract.code "/") base) as Hbase'.
  { eapply Forall_impl; [exact Hbase|]. apply name_char_no_slash. }
  destruct Hscope as [->|(sign & run & -> & Hsign & _ & Hrun)].
  { cbn [app]. rewrite replace_first_slash_none by done. by apply text_no_slash. }
  assert (Forall (λ c, (c < 256)%N ∧ c ≠ Extract.code "/") (sign ++ run)) as Hhead.
  { apply Forall_app. split.
    - destruct Hsign as [->| ->]; [constructor|]. by repeat constructor.
    - eapply Forall_impl; [exact Hrun|]. apply scope_char_no_slash. }
  replace ((sign ++ run ++ [Extract.code "/"]) ++ base)
    with ((sign ++ run) ++ Extract.code "/" :: base) by (by rewrite <- !app_assoc).
  rewrite replace_first_slash_app by done. apply text_no_slash.
  apply Forall_app. split; [done|]. constructor; [|done]. by split.
Qed.

Lemma version_shape_normalized (w : list N) :
  version_shape w →
  Str.strip_leading_v (Str.strip_leading_v (Extract.text w))
  = Str.strip_leading_v (Extract.text w).
Proof.
  intros (x & d & -> & _ & Hne & Hd). unfold Extract.text. cbn.
  destruct (Ascii.eqb (ascii_of_N x) "v"%char) eqn:Hx; cbn; [|by rewrite Hx].
  destruct Hd as [|z d Hz _]; [done|]. cbn.
  rewrite ascii_of_N_eqb
    by (apply version_char_plain, plain_char_ascii in Hz; lia).
  by rewrite (proj2 (N.eqb_neq _ _) (version_char_not_v z Hz)).
Qed.

(** ** The CSV file: lemmas *)

Lemma split_join sep (lines : list (list N)) :
  lines ≠ [] →
  Forall (Forall (λ c, c ≠ sep)) lines →
  Extract.split sep (Csv.join [sep] lines) = lines.
Proof.
  intros Hne Hlines. induction Hlines as [|l lines Hl Hlines IH]; [done|].
  destruct lines as [|l' lines]; [by apply split_no_sep|].
  change (Csv.join [sep] (l :: l' :: lines))
    with (l ++ sep :: Csv.join [sep] (l' :: lines)).
  rewrite split_app by done. by rewrite IH.
Qed.

Lemma count_app x s1 s2 : Csv.count x (s1 ++ s2) = Csv.count x s1 + Csv.count x s2.
Proof. unfold Csv.count. by rewrite filter_app, length_app. Qed.

Lemma count_none x s : Forall (λ c, c ≠ x) s → Csv.count x s = 0.
Proof.
  unfold Csv.count. induction 1 as [|c s Hc _ IH]; [done|].
  by rewrite filter_cons_False.
Qed.

Lemma join_plain (pieces : list (list N)) :
  Forall (Forall plain_char) pieces →
  Forall (λ c, c ≠ 34%N ∧ c ≠ Extract.code "," ∧ c ≠ 10%N)
    (Csv.join [Extract.code ";"] pieces).
Proof.
  assert (∀ w, Forall plain_char w →
               Forall (λ c, c ≠ 34%N ∧ c ≠ Extract.code "," ∧ c ≠ 10%N) w) as Hfield.
  { intros w Hw. eapply Forall_impl; [exact Hw|].
    intros c (? & ? & _ & ?)%plain_char_field. done. }
  induction 1 as [|piece pieces Hpiece Hpieces IH]; [constructor|].
  destruct pieces as [|piece' pieces]; [by apply Hfield|].
  change (Csv.join [Extract.code ";"] (piece :: piece' :: pieces))
    with (piece ++ Extract.code ";" :: Csv.join [Extract.code ";"] (piece' :: pieces)).
  apply Forall_app. split; [by apply Hfield|]. by constructor.
Qed.

Lemma row_plain (pkg : Extract.Package) :
  name_shape (Extract.name pkg) → Forall version_shape (Extract.versions pkg) →
  Forall (λ c, c ≠ 10%N) (Csv.row pkg)
  ∧ Csv.count Csv.quote (Csv.row pkg) = 4
  ∧ Csv.count (Extract.code ",") (Csv.row pkg) = 1.
Proof.
  intros Hname%name_shape_plain Hversions.
  assert (Forall (λ c, c ≠ 34%N ∧ c ≠ Extract.code "," ∧ c ≠ 10%N) (Extract.name pkg))
    as Hn.
  { eapply Forall_impl; [exact Hname|].
    intros c (? & ? & _ & ?)%plain_char_field. done. }
  assert (Forall (λ c, c ≠ 34%N ∧ c ≠ Extract.code "," ∧ c ≠ 10%N)
            (Csv.join [Extract.code ";"] (Extract.versions pkg))) as Hv.
  { apply join_plain. eapply Forall_impl; [exact Hversions|].
    apply version_shape_plain. }
  unfold Csv.row. cbn zeta. split; [|split].
  - repeat (apply Forall_app; split); try by repeat constructor.
    + eapply Forall_impl; [exact Hn|]. by intros c (_ & _ & ?).
    + eapply Forall_impl; [exact Hv|]. by intros c (_ & _ & ?).
  - rewrite !count_app.
    rewrite (count_none Csv.quote (Extract.name pkg)),
      (count_none Csv.quote (Csv.join _ _)); [done| |].
    + eapply Forall_impl; [exact Hv|]. by intros c (? & _).
    + eapply Forall_impl; [exact Hn|]. by intros c (? & _).
  - rewrite !count_app.
    rewrite (count_none (Extract.code ",") (Extract.name pkg)),
      (count_none (Extract.code ",") (Csv.join _ _)); [done| |].
    + eapply Forall_impl; [exact Hv|]. by intros c (_ & ? & _).
    + eapply Forall_impl; [exact Hn|]. by intros c (_ & ? & _).
Qed.

(** ** The list extractor: properties *)

(** X20: the extractor removes duplicates by name, and the first line
    wins.  The names of [packages] are distinct; each package is the
    record of the first line of the file that yields its name, with the
    versions and the number of that line, so the versions of later lines
    for the same name are dropped; and every name that some line yields
    is in [packages]. *)
Theorem extract_first_line_wins (content : list N) :
  NoDup (Extract.name <$> Extract.extract content)
  ∧ (∀ pkg, pkg ∈ Extract.extract content →
       ∃ i l, Extract.split 10 content !! i = Some l
              ∧ Extract.parseLine l = Some (Extract.name pkg, Extract.versions pkg)
              ∧ Extract.line pkg = i + 1
              ∧ ∀ j l' vs, j < i → Extract.split 10 content !! j = Some l' →
                           Extract.parseLine l' ≠ Some (Extract.name pkg, vs))
  ∧ (∀ l n vs, l ∈ Extract.split 10 content →
               Extract.parseLine l = Some (n, vs) →
               n ∈ Extract.name <$> Extract.extract content).
Proof.
  unfold Extract.extract.
  destruct (foldl_step_invariant (imap pair (Extract.split 10 content)))
    as (Hset & Hnd & Hfirst & Hall).
  split; [done|]. split.
  - intros pkg Hpkg. destruct (Hfirst pkg Hpkg) as (j & il & Hj & Hparse & Hline & Hmin).
    rewrite list_lookup_imap in Hj. apply fmap_Some in Hj as (l & Hl & ->).
    exists j, l. split; [done|]. split; [done|]. split; [done|].
    intros j' l' vs Hlt Hl'. apply (Hmin j' (j', l') vs Hlt).
    by rewrite list_lookup_imap, Hl'.
  - intros l n vs [j Hj]%list_elem_of_lookup_1 Hparse. apply Hset.
    apply (Hall (j, l) n vs); [|done].
    apply list_elem_of_lookup. exists j. by rewrite list_lookup_imap, Hj.
Qed.

(** The sample file names [left-pad] twice: the entry of line 4, without
    versions, is kept, and the versions of line 7 are dropped. *)
Lemma extract_first_line_wins_witness :
  Extract.parseLine (Extract.str "left-pad (v1.3.0)")
  = Some (Extract.str "left-pad", [Extract.str "v1.3.0"])
  ∧ ∃ i l, Extract.split 10 Extract.sample !! i = Some l
           ∧ Extract.parseLine l = Some (Extract.str "left-pad", [])
           ∧ 4 = i + 1
           ∧ ∀ j l' vs, j < i → Extract.split 10 Extract.sample !! j = Some l' →
                        Extract.parseLine l' ≠ Some (Extract.str "left-pad", vs).
Proof.
  split; [vm_compute; reflexivity|].
  destruct (extract_first_line_wins Extract.sample) as (_ & Hfirst & _).
  apply (Hfirst Extract.left_pad). rewrite Extract_sample. right. left.
Defined.

(** X21: the index that index.cjs builds from the extractor's output
    has one key for each package, in the order of the file, and under
    it the versions of the package, each without one leading [v]: no
    entry overwrites another. *)
Theorem extract_index (content : list N) :
  COMPROMISED_PACKAGES_MAP (Extract.output (Extract.extract content))
  = (λ pkg, (Extract.text (Extract.name pkg),
             Str.strip_leading_v <$> (Extract.text <$> Extract.versions pkg)))
      <$> Extract.extract content.
Proof.
  rewrite COMPROMISED_PACKAGES_MAP_distinct by apply output_names_NoDup.
  unfold Extract.output. by rewrite <- list_fmap_compose.
Qed.

(** X22: every version that the extractor writes is [v] or [V]
    followed by one or more digits or dots, whatever the list file
    holds.  So the normalization of index.cjs is idempotent on it; a
    version written with a capital [V] keeps it in the index. *)
Theorem extract_versions_shape (content : list N) (pkg : Extract.Package)
    (v : list N) :
  pkg ∈ Extract.extract content →
  v ∈ Extract.versions pkg →
  version_shape v
  ∧ Str.strip_leading_v (Str.strip_leading_v (Extract.text v))
    = Str.strip_leading_v (Extract.text v).
Proof.
  intros [_ Hvs]%extract_shapes Hv. rewrite Forall_forall in Hvs.
  split; [by apply Hvs|]. by apply version_shape_normalized, Hvs.
Qed.

(** The version of [ngx-toastr] in the sample file: it is not matched
    by the installed version 19.0.1. *)
Lemma extract_versions_shape_witness :
  (version_shape (Extract.str "V19.0.1")
   ∧ Str.strip_leading_v (Str.strip_leading_v "V19.0.1") = Str.strip_leading_v "V19.0.1")
  ∧ isCompromised
      (COMPROMISED_PACKAGES_MAP (Extract.output (Extract.extract Extract.sample)))
      "ngx-toastr" (JString "19.0.1") = Some false.
Proof.
  split; [|vm_compute; reflexivity].
  apply (extract_versions_shape Extract.sample Extract.ngx_toastr
           (Extract.str "V19.0.1")).
  - rewrite Extract_sample. right. right. left.
  - left.
Defined.

(** X23: every name that the extractor writes is an optional scope (an
    optional [@], word characters or hyphens, a slash) followed by one
    or more letters, digits, hyphens, underscores or dots.  It has at
    most one slash, so the search pattern that [findInPnpmDirectory]
    builds from it is a single path segment. *)
Theorem extract_names_shape (content : list N) (pkg : Extract.Package) :
  pkg ∈ Extract.extract content →
  name_shape (Extract.name pkg)
  ∧ Str.no_slash (Str.replace_first_slash (Extract.text (Extract.name pkg))) = true.
Proof.
  intros [Hname _]%extract_shapes. split; [done|]. by apply name_shape_pattern.
Qed.

(** The scoped name of the sample file. *)
Lemma extract_names_shape_witness :
  name_shape (Extract.str "@ctrl/tinycolor")
  ∧ Str.no_slash (Str.replace_first_slash "@ctrl/tinycolor") = true.
Proof.
  apply (extract_names_shape Extract.sample Extract.tinycolor).
  rewrite Extract_sample. left.
Defined.

(** X24: the CSV file of the extractor needs no escaping.  Whatever the
    list file holds, the text written has one line for the header and
    one for each package, and the line of a package has exactly the
    four double quotes and the one comma that the template writes: no
    name and no version holds a double quote, a comma or a line
    feed. *)
Theorem csv_rows (content : list N) :
  Extract.split 10 (Csv.content (Extract.extract content))
  = Csv.header :: (Csv.row <$> Extract.extract content)
  ∧ ∀ pkg, pkg ∈ Extract.extract content →
           Csv.count Csv.quote (Csv.row pkg) = 4
           ∧ Csv.count (Extract.code ",") (Csv.row pkg) = 1.
Proof.
  assert (∀ pkg, pkg ∈ Extract.extract content →
                 Forall (λ c, c ≠ 10%N) (Csv.row pkg)
                 ∧ Csv.count Csv.quote (Csv.row pkg) = 4
                 ∧ Csv.count (Extract.code ",") (Csv.row pkg) = 1) as Hrows.
  { intros pkg [Hname Hversions]%extract_shapes. by apply row_plain. }
  split.
  - unfold Csv.content. apply split_join; [done|]. constructor.
    + unfold Csv.header. by repeat constructor.
    + apply Forall_fmap, Forall_forall. intros pkg Hpkg. by apply Hrows.
  - intros pkg Hpkg. by apply Hrows.
Qed.

(** The rows of the sample file. *)
Lemma csv_rows_witness :
  length (Extract.split 10 (Csv.content (Extract.extract Extract.sample))) = 4
  ∧ Csv.count Csv.quote (Csv.row Extract.tinycolor) = 4
  ∧ Csv.count (Extract.code ",") (Csv.row Extract.tinycolor) = 1.
Proof.
  destruct (csv_rows Extract.sample) as [Hlines Hrows].
  split; [by rewrite Hlines, Extract_sample|].
  apply Hrows. rewrite Extract_sample. left.
Defined.
